(** * Tokyo Escape: the game-master engine, the speech sequencer and the
      stage orchestrator

    A shallow embedding of [gemini.js] (class [GeoAIGameMaster] and its proxy
    exports), [tts.js] and the game flow of [main.js], with the properties
    the specification states about them. *)

From Stdlib Require Import List ZArith NArith Bool Lia String Ascii DecimalString.
Import ListNotations.
Open Scope Z_scope.

(** ** JavaScript strings

    A JavaScript string is a sequence of UTF-16 code units; [length],
    [includes], [startsWith] and [substring] all count code units.  String
    constants of the source are written here as Rocq literals, whose bytes
    are the UTF-8 encoding of the source text, and re-encoded by [js]. *)

Module JS.

Definition jsstr := list N.

(** UTF-8 bytes to UTF-16 code units (code points above the BMP become a
    surrogate pair). *)
Fixpoint utf16_of_utf8 (bs : list N) : jsstr :=
  match bs with
  | [] => []
  | b0 :: r0 =>
    if (b0 <? 128)%N then b0 :: utf16_of_utf8 r0
    else match r0 with
    | [] => [b0]
    | b1 :: r1 =>
      if (b0 <? 224)%N then
        N.lor (N.shiftl (N.land b0 31) 6) (N.land b1 63) :: utf16_of_utf8 r1
      else match r1 with
      | [] => [b0; b1]
      | b2 :: r2 =>
        if (b0 <? 240)%N then
          N.lor (N.shiftl (N.land b0 15) 12)
                (N.lor (N.shiftl (N.land b1 63) 6) (N.land b2 63))
          :: utf16_of_utf8 r2
        else match r2 with
        | [] => [b0; b1; b2]
        | b3 :: r3 =>
          let cp := N.lor (N.shiftl (N.land b0 7) 18)
                     (N.lor (N.shiftl (N.land b1 63) 12)
                       (N.lor (N.shiftl (N.land b2 63) 6) (N.land b3 63))) in
          let c := (cp - 65536)%N in
          (55296 + N.shiftr c 10)%N :: (56320 + N.land c 1023)%N
          :: utf16_of_utf8 r3
        end
      end
    end
  end.

Fixpoint bytes_of_string (s : string) : list N :=
  match s with
  | EmptyString => []
  | String a r => N_of_ascii a :: bytes_of_string r
  end.

Definition js (s : string) : jsstr := utf16_of_utf8 (bytes_of_string s).

Definition len (s : jsstr) : Z := Z.of_nat (List.length s).

(** Truthiness of a string: the empty string is falsy. *)
Definition truthy (s : jsstr) : bool :=
  match s with [] => false | _ => true end.

Fixpoint eqb (a b : jsstr) : bool :=
  match a, b with
  | [], [] => true
  | x :: a', y :: b' => (x =? y)%N && eqb a' b'
  | _, _ => false
  end.

(** [s.startsWith(p)] *)
Fixpoint startsWith (s p : jsstr) : bool :=
  match p, s with
  | [], _ => true
  | _ :: _, [] => false
  | y :: p', x :: s' => (x =? y)%N && startsWith s' p'
  end.

(** [s.includes(p)] *)
Fixpoint includes (s p : jsstr) : bool :=
  startsWith s p ||
  match s with
  | [] => false
  | _ :: s' => includes s' p
  end.

(** [s.substring(0, n)] for a non-negative integer [n]. *)
Definition substring0 (s : jsstr) (n : nat) : jsstr := firstn n s.

(** [String(z)] for an integer-valued number. *)
Definition ofZ (z : Z) : jsstr := js (NilZero.string_of_int (Z.to_int z)).

(** [String(n).padStart(2, '0')] *)
Definition padStart2 (s : jsstr) : jsstr :=
  match s with
  | [] => [48; 48]%N
  | [c] => [48%N; c]
  | _ => s
  end.

(** [parts.join(sep)] *)
Fixpoint join (sep : jsstr) (l : list jsstr) : jsstr :=
  match l with
  | [] => []
  | [x] => x
  | x :: r => x ++ sep ++ join sep r
  end.

Definition nl : jsstr := [10%N].

(** Code units removed by [trim()]: white space and line terminators. *)
Definition isWhiteSpace (c : N) : bool :=
  (((9 <=? c) && (c <=? 13)) || (c =? 32) || (c =? 160) || (c =? 5760)
   || ((8192 <=? c) && (c <=? 8202)) || (c =? 8232) || (c =? 8233)
   || (c =? 8239) || (c =? 8287) || (c =? 12288) || (c =? 65279))%N.

Fixpoint trimStart (s : jsstr) : jsstr :=
  match s with
  | [] => []
  | c :: r => if isWhiteSpace c then trimStart r else s
  end.

(** [s.trim()] *)
Definition trim (s : jsstr) : jsstr := rev (trimStart (rev (trimStart s))).

End JS.

Import JS.
Notation "a +++ b" := (@app N a b) (at level 60, right associativity).

(** ** The game-master engine ([gemini.js])

    The generative-AI services are collaborators outside the program, so
    their answers are given by an environment [Env]: the n-th external call
    of a run, made with a given prompt, either resolves with a value or
    rejects.  Every method of the class is a state transformer over the
    engine's fields, the call counter and a trace of the external effects.
    A call that never settles is not modelled: every [await] returns.  The
    numbers of the program (counters, ids, hint counts) are integers far
    below 2^53 and are taken in [Z].  Console logging is left out. *)

Module Engine.

Inductive outcome (A : Type) : Type :=
| Resolves (a : A)
| Rejects.
Arguments Resolves {A} a.
Arguments Rejects {A}.

(** The shape of a cloud reply that [_extractResponseText] walks through;
    an absent or null property is [None]. *)
Record Part := { text : option jsstr; thought : bool }.
Record Content := { parts : option (list Part) }.
Record Candidate := { content : option Content }.
Record Response := { candidates : option (list Candidate) }.
Record Result := { response : option Response }.

Record Stage := {
  id : Z;
  name : jsstr;
  nameEn : jsstr;
  difficulty : Z;
  description : jsstr;
  puzzleContext : jsstr;
}.

Record PlayerStats := { hintsUsed : option Z; elapsedTime : option Z }.

(** The fields of [GeoAIGameMaster] that its methods read or write.
    [cloudModel] says whether the constructor found an API key; a session
    field is [true] when it holds a session object. *)
Record GeoAIGameMaster := {
  cloudModel : bool;
  hybridMode : bool;
  chatSession : bool;
  localAiSession : bool;
  consecutiveWrong : Z;
  consecutiveCorrect : Z;
}.

(** [new GeoAIGameMaster(config)] *)
Definition constructor (apiKey hybrid : bool) : GeoAIGameMaster :=
  {| cloudModel := apiKey; hybridMode := hybrid;
     chatSession := false; localAiSession := false;
     consecutiveWrong := 0; consecutiveCorrect := 0 |}.

Inductive Effect : Type :=
| StartChat (systemPrompt : jsstr)
| EdgeCapabilities
| EdgeCreate
| CloudSend (prompt : jsstr)
| EdgePrompt (prompt : jsstr)
| Sleep (ms : Z).

Record Env := {
  window_ai : bool;
  capabilities : nat -> outcome jsstr;
  create : nat -> outcome unit;
  sendMessage : nat -> jsstr -> outcome Result;
  prompt : nat -> jsstr -> outcome jsstr;
}.

Record St := { eng : GeoAIGameMaster; tick : nat; trace : list Effect }.

Definition M (A : Type) : Type := St -> A * St.
Definition ret {A} (a : A) : M A := fun s => (a, s).
Definition bind {A B} (m : M A) (k : A -> M B) : M B :=
  fun s => let (a, s') := m s in k a s'.

Notation "x <- m ;; k" := (bind m (fun x => k))
  (at level 61, m at next level, right associativity).
Notation "m ;;; k" := (bind m (fun _ => k))
  (at level 61, right associativity).

Definition this : M GeoAIGameMaster := fun s => (eng s, s).
Definition modify (f : GeoAIGameMaster -> GeoAIGameMaster) : M unit :=
  fun s => (tt, {| eng := f (eng s); tick := tick s; trace := trace s |}).
Definition emit (e : Effect) : M unit :=
  fun s => (tt, {| eng := eng s; tick := tick s; trace := trace s ++ [e] |}).
(** An external call: it is recorded, its answer is read from the
    environment at the current call number, and the number advances. *)
Definition external {A} (e : Effect) (answer : nat -> A) : M A :=
  fun s => (answer (tick s),
            {| eng := eng s; tick := S (tick s); trace := trace s ++ [e] |}).

Definition set_counters (w c : Z) (e : GeoAIGameMaster) : GeoAIGameMaster :=
  {| cloudModel := cloudModel e; hybridMode := hybridMode e;
     chatSession := chatSession e; localAiSession := localAiSession e;
     consecutiveWrong := w; consecutiveCorrect := c |}.
Definition set_chatSession (b : bool) (e : GeoAIGameMaster) : GeoAIGameMaster :=
  {| cloudModel := cloudModel e; hybridMode := hybridMode e;
     chatSession := b; localAiSession := localAiSession e;
     consecutiveWrong := consecutiveWrong e;
     consecutiveCorrect := consecutiveCorrect e |}.
Definition set_localAiSession (b : bool) (e : GeoAIGameMaster) : GeoAIGameMaster :=
  {| cloudModel := cloudModel e; hybridMode := hybridMode e;
     chatSession := chatSession e; localAiSession := b;
     consecutiveWrong := consecutiveWrong e;
     consecutiveCorrect := consecutiveCorrect e |}.

(** *** Constants of the source *)

Definition CORRECT : jsstr := js "[CORRECT]".
Definition WRONG : jsstr := js "[WRONG]".

Definition _getSystemPrompt : jsstr :=
  js "あなたは「Tokyo Escape」のAIゲームマスター「AXIOM」。サイバーパンク風に短く簡潔に応答せよ。"
  +++ nl +++ nl +++ js "ルール:" +++ nl
  +++ js "- パズル出題時は[PUZZLE]で開始。答えは1単語〜1フレーズ。" +++ nl
  +++ js "- 正解判定は[CORRECT]、不正解は[WRONG]で開始。表記ゆれは柔軟に許容。" +++ nl
  +++ js "- ヒントは[HINT]で開始。段階的に具体化。" +++ nl
  +++ js "- 全ての応答は2-4文で完結させること。長文禁止。".

Definition CONNECTION_LOST : jsstr :=
  js "[WRONG] [AXIOM] 神経リンク切断。再接続を試みよ。".
Definition UNSTABLE : jsstr :=
  js "[WRONG] [AXIOM] データストリーム不安定。回答を再送信せよ。".
Definition HINT_OFFLINE : jsstr := js "[HINT] システムオフライン。".
Definition HINT_FAILED : jsstr := js "[HINT] ヒントのロードに失敗しました...".
Definition ENDING_FALLBACK : jsstr :=
  js "都市のデータネットワークから解放された。あなたの脱出は完了した。".
Definition GENERIC_PUZZLE : jsstr := js "[PUZZLE] 座標を特定し、回答を入力せよ。".

(** The [fallbacks] object of [_getFallbackPuzzle], as a lookup by key. *)
Definition fallbacks (k : Z) : option jsstr :=
  match k with
  | 1 => Some (js "[PUZZLE] [BABEL-01 認証プロトコル] このジャミングタワーの全高は333m。旧世紀、この構造物は何と呼ばれていた？正式名称をデータベースから検索せよ。")
  | 2 => Some (js "[PUZZLE] [GINZA-BLOCK 暗号解読] 1932年竣工の時計塔を持つビル。旧名「服部時計店」。現在の名称を特定せよ。")
  | 3 => Some (js "[PUZZLE] [SHIBUYA-NEXUS 生体認証] 駅前に設置された犬型モニュメント。この犬種を回答せよ。AXIOMの初期プロトタイプのコードネームでもある。")
  | 4 => Some (js "[PUZZLE] [AKIBA-GRID 歴史照合] この電脳街の名称の由来となった神社がある。火除けの神を祀るその神社の名は？")
  | 5 => Some (js "[PUZZLE] [AXIOM-CORE 最終認証] 双子の神殿、第一本庁舎。その高さを数値で回答せよ。単位はメートル。")
  | _ => None
  end.

(** [fallbacks[stage.id] || '...'] *)
Definition _getFallbackPuzzle (stage : Stage) : jsstr :=
  match fallbacks (id stage) with
  | Some t => if truthy t then t else GENERIC_PUZZLE
  | None => GENERIC_PUZZLE
  end.

(** *** Pure helpers *)

Definition has_text (p : Part) : bool :=
  match text p with Some t => truthy t | None => false end.
Definition text_of (p : Part) : jsstr :=
  match text p with Some t => t | None => [] end.

Definition _extractResponseText (response : option Response) : jsstr :=
  match response with
  | None => []
  | Some r =>
    match candidates r with
    | None | Some [] => []
    | Some (c :: _) =>
      match content c with
      | None => []
      | Some ct =>
        match parts ct with
        | None => []
        | Some ps =>
          let textParts := filter (fun p => has_text p && negb (thought p)) ps in
          match textParts with
          | [] => match find has_text ps with
                  | Some anyText => text_of anyText
                  | None => []
                  end
          | _ => join nl (map text_of textParts)
          end
        end
      end
    end
  end.

Definition _getDifficultyModifier (e : GeoAIGameMaster) : jsstr :=
  if consecutiveWrong e >=? 3 then
    js "(難易度調整: プレイヤーが苦戦中。直接的なヒントを含む非常に簡単なパズルにしてください)"
  else if consecutiveWrong e >=? 2 then js "(難易度調整: やや易しめに)"
  else if consecutiveCorrect e >=? 3 then
    js "(難易度調整: プレイヤーが好調。複数の知識を組み合わせる難しいパズルにしてください)"
  else [].

Definition _updateDifficultyStats (t : jsstr) : M unit :=
  modify (fun e =>
    if includes t CORRECT
    then set_counters 0 (consecutiveCorrect e + 1) e
    else set_counters (consecutiveWrong e + 1) 0 e).

(** *** Prompts *)

Definition puzzlePrompt (stage : Stage) (diffMod : jsstr) : jsstr :=
  js "[パズル生成] " +++ name stage +++ nl
  +++ js "難易度: " +++ ofZ (difficulty stage) +++ js "/5" +++ nl
  +++ js "データ: " +++ substring0 (puzzleContext stage) 500 +++ nl +++ nl
  +++ js "上記データから1問出題。答えは1単語。2-3文で簡潔に。" +++ diffMod.

Definition PUZZLE_EDGE_SUFFIX : jsstr :=
  js " [PUZZLE]というタグから始めて出題してください。".

Definition edgeEvalPrompt (answer : jsstr) : jsstr :=
  js "プレイヤーの回答: 「" +++ answer +++ js "」" +++ nl
  +++ js "想定されるコンテキスト情報を加味して、この回答が論理的に正解か不正解かを判定してください。" +++ nl
  +++ js "正解なら[CORRECT]、不正解なら[WRONG]から始めてください。".

Definition cloudEvalPrompt (answer : jsstr) : jsstr :=
  js "プレイヤーの回答: 「" +++ answer +++ js "」" +++ nl
  +++ js "この回答が正しいか判定してください。表記ゆれは柔軟に許容してください。" +++ nl
  +++ js "正解なら[CORRECT]、不正解なら[WRONG]を先頭につけてください。".

Definition hintPrompt (hintLevel : Z) : jsstr :=
  js "プレイヤーがヒントを要求中。段階: " +++ ofZ hintLevel +++ js "/3" +++ nl
  +++ js "段階" +++ ofZ hintLevel +++ js "のヒントを提供してください([HINT]タグ付与)。".

Definition performance (e : GeoAIGameMaster) : jsstr :=
  if consecutiveCorrect e >=? 2 then js "好調（連続正解中）"
  else if consecutiveWrong e >=? 2 then js "苦戦中（連続不正解）"
  else js "安定".

(** [playerStats.hintsUsed || 0] *)
Definition hintsUsed_or_0 (playerStats : PlayerStats) : Z :=
  match hintsUsed playerStats with
  | Some h => if h =? 0 then 0 else h
  | None => 0
  end.

Definition narrationPrompt (e : GeoAIGameMaster) (fromStage toStage : Stage)
    (playerStats : PlayerStats) : jsstr :=
  js "[ナレーション生成]" +++ nl
  +++ js "クリアしたステージ: " +++ name fromStage +++ nl
  +++ js "次のステージ: " +++ name toStage +++ nl
  +++ js "プレイヤー状態: " +++ performance e +++ nl
  +++ js "ヒント使用: " +++ ofZ (hintsUsed_or_0 playerStats) +++ js "回" +++ nl +++ nl
  +++ js "上記を踏まえ、AXIOM（都市管理AI）としてプレイヤーに語りかけるサイバーパンク風ナレーション(2-3文)を生成せよ。" +++ nl
  +++ js "好調なら称賛、苦戦中なら挑発や警告を含めること。".

Definition narrationFallback (fromStage toStage : Stage) : jsstr :=
  js "[AXIOM] " +++ name fromStage
  +++ js "セクターの突破を確認。次の座標へ転送中... " +++ name toStage
  +++ js "エリアに接近。".

Definition endingPrompt (totalTime : jsstr) (hints stageCount : Z) : jsstr :=
  js "全" +++ ofZ stageCount +++ js "ステージクリア。プレイ時間:" +++ totalTime
  +++ js "、ヒント数:" +++ ofZ hints +++ js "。" +++ nl
  +++ js "サイバーパンク風のエンディングを生成せよ(3-4文)。実績に応じた称号を含めること。".

(** *** Methods *)

Section Methods.

Variable env : Env.

Definition init : M unit :=
  modify (set_counters 0 0) ;;;
  e <- this ;;
  (if cloudModel e
   then emit (StartChat _getSystemPrompt) ;;; modify (set_chatSession true)
   else ret tt) ;;;
  if hybridMode e && window_ai env then
    caps <- external EdgeCapabilities (capabilities env) ;;
    match caps with
    | Resolves available =>
      if eqb available (js "readily") || eqb available (js "after-download")
      then
        created <- external EdgeCreate (create env) ;;
        match created with
        | Resolves _ => modify (set_localAiSession true)
        | Rejects => ret tt
        end
      else ret tt
    | Rejects => ret tt
    end
  else ret tt.

(** [this.chatSession.sendMessage(p)] inside a [try]: with no session the
    property access throws before anything is sent. *)
Definition chat_sendMessage (p : jsstr) : M (outcome Result) :=
  e <- this ;;
  if chatSession e
  then external (CloudSend p) (fun n => sendMessage env n p)
  else ret Rejects.

Definition local_prompt (p : jsstr) : M (outcome jsstr) :=
  external (EdgePrompt p) (fun n => prompt env n p).

Definition ensure_session : M unit :=
  e <- this ;;
  if chatSession e then ret tt else init.

Definition generatePuzzle (stage : Stage) : M jsstr :=
  ensure_session ;;;
  e <- this ;;
  let diffMod := _getDifficultyModifier e in
  let p := puzzlePrompt stage diffMod in
  r <- chat_sendMessage p ;;
  match r with
  | Resolves result =>
    let t := _extractResponseText (response result) in
    if negb (truthy t) || (len t <? 10)
    then ret (_getFallbackPuzzle stage)
    else ret t
  | Rejects =>
    if localAiSession e then
      lr <- local_prompt (p +++ PUZZLE_EDGE_SUFFIX) ;;
      match lr with
      | Resolves localResponse =>
        if truthy localResponse && (len localResponse >? 10)
        then ret localResponse
        else ret (_getFallbackPuzzle stage)
      | Rejects => ret (_getFallbackPuzzle stage)
      end
    else ret (_getFallbackPuzzle stage)
  end.

(** The body of [for (let attempt = 0; attempt < 2; attempt++)], over the
    values [attempt] takes. *)
Fixpoint cloudAttempts (p : jsstr) (attempts : list Z) : M jsstr :=
  match attempts with
  | [] => ret UNSTABLE
  | attempt :: rest =>
    r <- chat_sendMessage p ;;
    match r with
    | Resolves result =>
      let t := _extractResponseText (response result) in
      if truthy t && (len t >? 5)
      then _updateDifficultyStats t ;;; ret t
      else cloudAttempts p rest
    | Rejects =>
      (if attempt =? 0 then emit (Sleep 500) else ret tt) ;;;
      cloudAttempts p rest
    end
  end.

Definition evaluateAnswer (answer : jsstr) : M jsstr :=
  e <- this ;;
  if negb (chatSession e) && negb (localAiSession e) then ret CONNECTION_LOST
  else
    let cloud := cloudAttempts (cloudEvalPrompt answer) [0; 1] in
    if localAiSession e then
      r <- local_prompt (edgeEvalPrompt answer) ;;
      match r with
      | Resolves resp => _updateDifficultyStats resp ;;; ret resp
      | Rejects => cloud
      end
    else cloud.

Definition requestHint (hintLevel : Z) : M jsstr :=
  e <- this ;;
  if negb (chatSession e) then ret HINT_OFFLINE
  else
    let p := hintPrompt hintLevel in
    r <- chat_sendMessage p ;;
    match r with
    | Resolves result => ret (_extractResponseText (response result))
    | Rejects =>
      if localAiSession e then
        lr <- local_prompt p ;;
        match lr with
        | Resolves t => ret t
        | Rejects => ret HINT_FAILED
        end
      else ret HINT_FAILED
    end.

Definition generateNarration (fromStage toStage : Stage)
    (playerStats : PlayerStats) : M jsstr :=
  ensure_session ;;;
  e <- this ;;
  r <- chat_sendMessage (narrationPrompt e fromStage toStage playerStats) ;;
  match r with
  | Resolves result => ret (_extractResponseText (response result))
  | Rejects => ret (narrationFallback fromStage toStage)
  end.

Definition generateEndingStory (totalTime : jsstr) (hints stageCount : Z)
    : M jsstr :=
  ensure_session ;;;
  r <- chat_sendMessage (endingPrompt totalTime hints stageCount) ;;
  match r with
  | Resolves result => ret (_extractResponseText (response result))
  | Rejects => ret ENDING_FALLBACK
  end.

End Methods.

(** *** Sequences of calls

    What a client can do with the engine, and the state after [init] followed
    by any number of such calls. *)

Inductive Call : Type :=
| CallInit
| CallGeneratePuzzle (stage : Stage)
| CallEvaluateAnswer (answer : jsstr)
| CallRequestHint (hintLevel : Z)
| CallGenerateNarration (fromStage toStage : Stage) (playerStats : PlayerStats)
| CallGenerateEndingStory (totalTime : jsstr) (hints stageCount : Z).

Definition perform (env : Env) (c : Call) (s : St) : St :=
  match c with
  | CallInit => snd (init env s)
  | CallGeneratePuzzle st => snd (generatePuzzle env st s)
  | CallEvaluateAnswer a => snd (evaluateAnswer env a s)
  | CallRequestHint l => snd (requestHint env l s)
  | CallGenerateNarration f t ps => snd (generateNarration env f t ps s)
  | CallGenerateEndingStory t h c => snd (generateEndingStory env t h c s)
  end.

Definition session (env : Env) (calls : list Call) (s0 : St) : St :=
  fold_left (fun s c => perform env c s) calls (snd (init env s0)).

(** The text of a cloud attempt of [evaluateAnswer] that is accepted as a
    verdict: the call resolved and the extracted text is longer than 5. *)
Definition verdictOf (o : outcome Result) : option jsstr :=
  match o with
  | Resolves result =>
    let t := _extractResponseText (response result) in
    if truthy t && (len t >? 5) then Some t else None
  | Rejects => None
  end.

Definition rejected {A} (o : outcome A) : bool :=
  match o with Rejects => true | Resolves _ => false end.

(** *** The proxy exports

    [export const f = (...) => gameMasterEngine.f(...)]: each proxy names the
    parameters it forwards; a parameter of the method that the proxy does not
    forward takes the method's default. *)

Module Exports.

Definition noStats : PlayerStats := {| hintsUsed := None; elapsedTime := None |}.

Definition initGameSession (env : Env) : M unit := init env.
Definition generatePuzzle (env : Env) (stage : Stage) : M jsstr :=
  Engine.generatePuzzle env stage.
Definition evaluateAnswer (env : Env) (answer : jsstr) : M jsstr :=
  Engine.evaluateAnswer env answer.
Definition requestHint (env : Env) (level : Z) : M jsstr :=
  Engine.requestHint env level.
Definition generateNarration (env : Env) (from to : Stage) : M jsstr :=
  Engine.generateNarration env from to noStats.
Definition generateEndingStory (env : Env) (time : jsstr) (hints count : Z)
    : M jsstr :=
  Engine.generateEndingStory env time hints count.

End Exports.

End Engine.

(** ** The speech sequencer ([tts.js])

    The module state is the six [let] variables of the file.  JavaScript runs
    one handler at a time, so the sequencer is modelled as a transition
    system: an exported function runs up to its first [await], and each
    later resumption of a suspended [synthesizeAndPlay] call is a
    transition of its own, taken when the environment delivers the awaited
    event (the fetch settles, the body is parsed, the audio element fires).
    A suspended call is kept as a [Task] with the point it waits at and the
    caller that awaits it.  The DOM indicator is left out. *)

Module Tts.

(** *** Cleaning the text *)

(** Code units that [.] does not match in a regular expression. *)
Definition isLineTerminator (c : N) : bool :=
  ((c =? 10) || (c =? 13) || (c =? 8232) || (c =? 8233))%N.

(** After a ['['], the number of code units that [.*?\]] consumes. *)
Fixpoint closeBracket (s : jsstr) : option nat :=
  match s with
  | [] => None
  | c :: r =>
    if (c =? 93)%N then Some 1%nat
    else if isLineTerminator c then None
    else option_map S (closeBracket r)
  end.

(** [.replace(/\[.*?\]/g, '')]; [skip] counts the code units of a match
    still to be dropped. *)
Fixpoint replaceBracketed (skip : nat) (s : jsstr) : jsstr :=
  match s with
  | [] => []
  | c :: r =>
    match skip with
    | S k => replaceBracketed k r
    | O =>
      if (c =? 91)%N then
        match closeBracket r with
        | Some n => replaceBracketed n r
        | None => c :: replaceBracketed 0 r
        end
      else c :: replaceBracketed 0 r
    end
  end.

(** [.replace(/\*\*/g, '')] *)
Fixpoint replaceStars (s : jsstr) : jsstr :=
  match s with
  | [] => []
  | c :: r =>
    match r with
    | d :: r' =>
      if ((c =? 42) && (d =? 42))%N then replaceStars r'
      else c :: replaceStars r
    | [] => [c]
    end
  end.

(** After a ['<'], the number of code units up to and including the first
    ['>']. *)
Fixpoint closeTag (s : jsstr) : option nat :=
  match s with
  | [] => None
  | c :: r => if (c =? 62)%N then Some 1%nat else option_map S (closeTag r)
  end.

(** [.replace(/<[^>]+>/g, '')] *)
Fixpoint replaceTags (skip : nat) (s : jsstr) : jsstr :=
  match s with
  | [] => []
  | c :: r =>
    match skip with
    | S k => replaceTags k r
    | O =>
      if (c =? 60)%N then
        match closeTag r with
        | Some (S (S k)) => replaceTags (S (S k)) r
        | _ => c :: replaceTags 0 r
        end
      else c :: replaceTags 0 r
    end
  end.

(** [.replace(/[>]/g, '')] *)
Definition replaceGt (s : jsstr) : jsstr :=
  filter (fun c => negb (c =? 62)%N) s.

Definition clean (text : jsstr) : jsstr :=
  trim (replaceGt (replaceTags 0 (replaceStars (replaceBracketed 0 text)))).

(** *** State *)

Inductive Pc : Type := AwaitFetch | AwaitJson | Playing.

(** Who awaits a [synthesizeAndPlay] call: the loop of [processQueue], or
    the [then]/[catch] of a [speakAndWait] whose promise is [resolve]. *)
Inductive Caller : Type := FromQueue | FromWait (resolve : nat).

Record Task := { tid : nat; ttext : jsstr; pc : Pc; caller : Caller }.

(** What [response.json()] delivers in [data.audioContent]. *)
Inductive AudioContent : Type := Missing | Undecodable | Mp3.

(** [!data.audioContent] *)
Definition missing (d : AudioContent) : bool :=
  match d with Missing => true | _ => false end.
(** Whether [atob] accepts it; when it throws, the [catch] of
    [synthesizeAndPlay] ends the call. *)
Definition decodable (d : AudioContent) : bool :=
  match d with Mp3 => true | _ => false end.

Record State := {
  ttsEnabled : bool;
  currentAudio : option nat;
  audioQueue : list jsstr;
  isPlaying : bool;
  currentSpeakResolve : option nat;
  synthesisAborted : bool;
  (* the run-time around the variables *)
  tasks : list Task;
  nextId : nat;
  resolved : list nat;
  sounding : list nat;
  played : list (nat * jsstr);
}.

Definition initial : State :=
  {| ttsEnabled := true; currentAudio := None; audioQueue := [];
     isPlaying := false; currentSpeakResolve := None;
     synthesisAborted := false;
     tasks := []; nextId := 0; resolved := []; sounding := []; played := [] |}.

Definition set_ttsEnabled v (s : State) : State :=
  let '(Build_State _ b c d e f g h i j k) := s in Build_State v b c d e f g h i j k.
Definition set_currentAudio v (s : State) : State :=
  let '(Build_State a _ c d e f g h i j k) := s in Build_State a v c d e f g h i j k.
Definition set_audioQueue v (s : State) : State :=
  let '(Build_State a b _ d e f g h i j k) := s in Build_State a b v d e f g h i j k.
Definition set_isPlaying v (s : State) : State :=
  let '(Build_State a b c _ e f g h i j k) := s in Build_State a b c v e f g h i j k.
Definition set_currentSpeakResolve v (s : State) : State :=
  let '(Build_State a b c d _ f g h i j k) := s in Build_State a b c d v f g h i j k.
Definition set_synthesisAborted v (s : State) : State :=
  let '(Build_State a b c d e _ g h i j k) := s in Build_State a b c d e v g h i j k.
Definition set_tasks v (s : State) : State :=
  let '(Build_State a b c d e f _ h i j k) := s in Build_State a b c d e f v h i j k.
Definition set_nextId v (s : State) : State :=
  let '(Build_State a b c d e f g _ i j k) := s in Build_State a b c d e f g v i j k.
Definition set_resolved v (s : State) : State :=
  let '(Build_State a b c d e f g h _ j k) := s in Build_State a b c d e f g h v j k.
Definition set_sounding v (s : State) : State :=
  let '(Build_State a b c d e f g h i _ k) := s in Build_State a b c d e f g h i v k.
Definition set_played v (s : State) : State :=
  let '(Build_State a b c d e f g h i j _) := s in Build_State a b c d e f g h i j v.

Definition without (i : nat) (l : list nat) : list nat :=
  filter (fun j => negb (Nat.eqb i j)) l.

(** [resolve()] of the promise [p]. *)
Definition resolve (p : nat) (s : State) : State :=
  set_resolved (p :: resolved s) s.

Definition drop_task (i : nat) (s : State) : State :=
  set_tasks (filter (fun t => negb (Nat.eqb (tid t) i)) (tasks s)) s.

Definition set_pc (i : nat) (v : Pc) (s : State) : State :=
  set_tasks (map (fun t => if Nat.eqb (tid t) i
                           then {| tid := tid t; ttext := ttext t;
                                   pc := v; caller := caller t |}
                           else t) (tasks s)) s.

Definition pc_eqb (a b : Pc) : bool :=
  match a, b with
  | AwaitFetch, AwaitFetch | AwaitJson, AwaitJson | Playing, Playing => true
  | _, _ => false
  end.

(** The suspended call [i], if it waits at [at_]. *)
Definition waiting (i : nat) (at_ : Pc) (s : State) : option Task :=
  find (fun t => Nat.eqb (tid t) i && pc_eqb (pc t) at_) (tasks s).

(** *** Functions *)

Section Sequencer.

(** [import.meta.env.VITE_GOOGLE_TTS_API_KEY] *)
Variable TTS_API_KEY : option jsstr.

Definition hasKey : bool :=
  match TTS_API_KEY with Some k => truthy k | None => false end.

(** [synthesizeAndPlay(text)] up to [await fetch(...)]. *)
Definition synthesizeAndPlay (text : jsstr) (c : Caller) (s : State) : State :=
  let s := set_synthesisAborted false s in
  let t := {| tid := nextId s; ttext := text; pc := AwaitFetch; caller := c |} in
  set_nextId (S (nextId s)) (set_tasks (tasks s ++ [t]) s).

(** [processQueue()] up to its first [await]. *)
Definition processQueue (s : State) : State :=
  if isPlaying s then s
  else match audioQueue s with
  | [] => s
  | text :: rest =>
    synthesizeAndPlay text FromQueue
      (set_audioQueue rest (set_isPlaying true s))
  end.

Definition stopSpeaking (s : State) : State :=
  let s := set_synthesisAborted true s in
  let s := set_audioQueue [] s in
  let s := set_isPlaying false s in
  match currentAudio s with
  | Some a => set_currentAudio None (set_sounding (without a (sounding s)) s)
  | None => s
  end.

Definition speak (text : jsstr) (s : State) : State :=
  if negb (ttsEnabled s) || negb hasKey || negb (truthy text) then s
  else
    let c := clean text in
    if negb (truthy c) || (len c <? 3) then s
    else
      let s := set_synthesisAborted false s in
      let s := set_audioQueue (audioQueue s ++ [c]) s in
      if isPlaying s then s else processQueue s.

(** [speakAndWait(text)]: the promise it returns, and the state when the
    executor has run. *)
Definition speakAndWait (text : jsstr) (s : State) : nat * State :=
  let p := nextId s in
  let s := set_nextId (S p) s in
  if negb (ttsEnabled s) || negb hasKey || negb (truthy text)
  then (p, resolve p s)
  else
    let c := clean text in
    if negb (truthy c) || (len c <? 3) then (p, resolve p s)
    else
      let s := set_currentSpeakResolve (Some p) s in
      let s := stopSpeaking s in
      (p, synthesizeAndPlay c (FromWait p) s).

Definition skipAndProceed (s : State) : State :=
  let s := stopSpeaking s in
  match currentSpeakResolve s with
  | Some p => resolve p (set_currentSpeakResolve None s)
  | None => s
  end.

Definition toggleTTS (s : State) : bool * State :=
  let s := set_ttsEnabled (negb (ttsEnabled s)) s in
  let s := if negb (ttsEnabled s) then stopSpeaking s else s in
  (ttsEnabled s, s).

(** The call [t] of [synthesizeAndPlay] settles, and what awaits it runs:
    the callbacks of [speakAndWait], or the next turn of the [while] loop of
    [processQueue]. *)
Definition settle (t : Task) (s : State) : State :=
  let s := drop_task (tid t) s in
  match caller t with
  | FromWait p => resolve p (set_currentSpeakResolve None s)
  | FromQueue =>
    match audioQueue s with
    | [] => set_isPlaying false s
    | text :: rest => synthesizeAndPlay text FromQueue (set_audioQueue rest s)
    end
  end.

Inductive Event : Type :=
| FetchRejected (i : nat)
| FetchResolved (i : nat) (ok : bool)
| JsonRejected (i : nat)
| JsonResolved (i : nat) (audioContent : AudioContent)
| AudioEnded (i : nat)
| AudioError (i : nat)
| PlayRejected (i : nat).

(** The resumption of a suspended [synthesizeAndPlay] call. *)
Definition on_event (ev : Event) (s : State) : State :=
  match ev with
  | FetchRejected i =>
    match waiting i AwaitFetch s with
    | Some t => settle t s
    | None => s
    end
  | FetchResolved i ok =>
    match waiting i AwaitFetch s with
    | Some t =>
      if synthesisAborted s then settle t s
      else if negb ok then settle t s
      else set_pc i AwaitJson s
    | None => s
    end
  | JsonRejected i =>
    match waiting i AwaitJson s with
    | Some t => settle t s
    | None => s
    end
  | JsonResolved i data =>
    match waiting i AwaitJson s with
    | Some t =>
      if missing data || synthesisAborted s then settle t s
      else if negb (decodable data) then settle t s
      else if synthesisAborted s then settle t s
      else
        let s := set_currentAudio (Some i) s in
        let s := set_sounding (i :: sounding s) s in
        let s := set_played (played s ++ [(i, ttext t)]) s in
        set_pc i Playing s
    | None => s
    end
  | AudioEnded i =>
    match waiting i Playing s with
    | Some t =>
      if existsb (Nat.eqb i) (sounding s) then
        settle t (set_currentAudio None (set_sounding (without i (sounding s)) s))
      else s
    | None => s
    end
  | AudioError i =>
    (* the handlers stay on the element when its call has settled: a late
       error still clears the shared [currentAudio] *)
    let s' := set_currentAudio None (set_sounding (without i (sounding s)) s) in
    match waiting i Playing s with
    | Some t => settle t s'
    | None => if existsb (fun e => Nat.eqb (fst e) i) (played s) then s' else s
    end
  | PlayRejected i =>
    match waiting i Playing s with
    | Some t => settle t (set_sounding (without i (sounding s)) s)
    | None => s
    end
  end.

(** What can happen to the sequencer: a call of an exported function, or the
    environment delivering an event. *)
Inductive Action : Type :=
| CallSpeak (text : jsstr)
| CallSpeakAndWait (text : jsstr)
| CallStopSpeaking
| CallSkipAndProceed
| CallToggleTTS
| Deliver (ev : Event).

Definition act (a : Action) (s : State) : State :=
  match a with
  | CallSpeak text => speak text s
  | CallSpeakAndWait text => snd (speakAndWait text s)
  | CallStopSpeaking => stopSpeaking s
  | CallSkipAndProceed => skipAndProceed s
  | CallToggleTTS => snd (toggleTTS s)
  | Deliver ev => on_event ev s
  end.

Definition run (l : list Action) (s : State) : State :=
  fold_left (fun s a => act a s) l s.

(** The ways the synthesis or the playback of a suspended call can fail at
    the point it waits at. *)
Definition failures (t : Task) : list Event :=
  match pc t with
  | AwaitFetch => [FetchRejected (tid t); FetchResolved (tid t) false]
  | AwaitJson => [JsonRejected (tid t); JsonResolved (tid t) Missing;
                  JsonResolved (tid t) Undecodable]
  | Playing => [AudioError (tid t); PlayRejected (tid t)]
  end.

End Sequencer.

End Tts.

(** ** The stage orchestrator ([main.js])

    The game flow over the [state] object, the engine behind its proxy
    exports, and a log of what the flow asks of its collaborators (DOM,
    sound, map, speech).  An [await] on a collaborator is logged and the flow
    goes on: the model follows the run in which each awaited promise
    settles.  [STAGES] comes from [stages.js] and is a parameter. *)

Module Orchestrator.

Import Engine.

(** The fields of [state] that the flow reads or writes after the boot
    sequence; [elapsedSeconds] is kept up to date by the timer. *)
Record GameState := {
  currentStage : nat;
  hintLevel : Z;
  totalHintsUsed : Z;
  elapsedSeconds : Z;
  isProcessing : bool;
  gameStarted : bool;
}.

Inductive Sound : Type := correct | wrong | hint | stage | boot.
Inductive MessageType : Type := ai | user | system.

Inductive Step : Type :=
| PlaySound (type : Sound)
| AddMessage (text : jsstr) (type : MessageType)
| AppendAiMessage (text : jsstr)
| AddTypingIndicator
| RemoveTypingIndicator
| ClearInput
| DisableSend (disabled : bool)
| StopSpeaking
| Speak (text : jsstr)
| AwaitSpeakAndWait (text : jsstr)
| AwaitStageTransition (text : jsstr)
| UpdateStageUI (s : Stage)
| ClearHighlights
| FlyToLandmark (s : Stage)
| AddLandmarkMarker (s : Stage)
| AwaitTimeout (ms : Z)
| StopTimer
| MinimizeChatPanel
| SetClearSkyWeather
| ShowFinal (time : jsstr) (hints : Z) (rank : jsstr) (story : jsstr)
| AwaitSky
| ShowScreen (name : jsstr).

Record World := { game : GameState; engine : Engine.St; log : list Step }.

Definition O (A : Type) : Type := World -> A * World.
Definition oret {A} (a : A) : O A := fun w => (a, w).
Definition obind {A B} (m : O A) (k : A -> O B) : O B :=
  fun w => let (a, w') := m w in k a w'.

Notation "x <~ m ;; k" := (obind m (fun x => k))
  (at level 61, m at next level, right associativity).
Notation "m ;~ k" := (obind m (fun _ => k))
  (at level 61, right associativity).

Definition state : O GameState := fun w => (game w, w).
Definition update (f : GameState -> GameState) : O unit :=
  fun w => (tt, {| game := f (game w); engine := engine w; log := log w |}).
Definition does (st : Step) : O unit :=
  fun w => (tt, {| game := game w; engine := engine w; log := log w ++ [st] |}).
(** A call into the engine. *)
Definition call {A} (m : Engine.M A) : O A :=
  fun w => let (a, e) := m (engine w) in
           (a, {| game := game w; engine := e; log := log w |}).

Definition set_currentStage v (g : GameState) : GameState :=
  {| currentStage := v; hintLevel := hintLevel g;
     totalHintsUsed := totalHintsUsed g; elapsedSeconds := elapsedSeconds g;
     isProcessing := isProcessing g; gameStarted := gameStarted g |}.
Definition set_hintLevel v (g : GameState) : GameState :=
  {| currentStage := currentStage g; hintLevel := v;
     totalHintsUsed := totalHintsUsed g; elapsedSeconds := elapsedSeconds g;
     isProcessing := isProcessing g; gameStarted := gameStarted g |}.
Definition set_totalHintsUsed v (g : GameState) : GameState :=
  {| currentStage := currentStage g; hintLevel := hintLevel g;
     totalHintsUsed := v; elapsedSeconds := elapsedSeconds g;
     isProcessing := isProcessing g; gameStarted := gameStarted g |}.
Definition set_isProcessing v (g : GameState) : GameState :=
  {| currentStage := currentStage g; hintLevel := hintLevel g;
     totalHintsUsed := totalHintsUsed g; elapsedSeconds := elapsedSeconds g;
     isProcessing := v; gameStarted := gameStarted g |}.

Definition getFormattedTime (g : GameState) : jsstr :=
  let min := padStart2 (ofZ (elapsedSeconds g / 60)) in
  let sec := padStart2 (ofZ (Z.rem (elapsedSeconds g) 60)) in
  min +++ js ":" +++ sec.

Definition calculateRank (g : GameState) : jsstr :=
  let time := elapsedSeconds g in
  let hints := totalHintsUsed g in
  if (hints =? 0) && (time <? 300) then js "S"
  else if (hints <=? 2) && (time <? 600) then js "A"
  else if (hints <=? 5) && (time <? 900) then js "B"
  else if time <? 1200 then js "C"
  else js "D".

Definition addSystemMessage (text : jsstr) : O unit :=
  does (AddMessage text system).

Section Flow.

Variable env : Env.
Variable STAGES : list Stage.

Definition loadStage (st : Stage) : O unit :=
  update (set_hintLevel 0) ;~
  does (UpdateStageUI st) ;~
  does ClearHighlights ;~
  does (AddMessage (description st) system) ;~
  does (AwaitSpeakAndWait (description st)) ;~
  does (FlyToLandmark st) ;~
  does (AddLandmarkMarker st) ;~
  does (AwaitTimeout 3500) ;~
  does AddTypingIndicator ;~
  puzzleText <~ call (Exports.generatePuzzle env st) ;;
  does RemoveTypingIndicator ;~
  does (AppendAiMessage puzzleText) ;~
  does (AwaitSpeakAndWait puzzleText).

Definition endGame : O unit :=
  does StopTimer ;~
  does StopSpeaking ;~
  does (AwaitStageTransition (js "ALL SECTORS UNLOCKED")) ;~
  does MinimizeChatPanel ;~
  does SetClearSkyWeather ;~
  g <~ state ;;
  let rank := calculateRank g in
  endingStory <~ call (Exports.generateEndingStory env (getFormattedTime g)
                         (totalHintsUsed g) (Z.of_nat (List.length STAGES))) ;;
  does (ShowFinal (getFormattedTime g) (totalHintsUsed g) rank endingStory) ;~
  does AwaitSky ;~
  does (Speak endingStory) ;~
  does (ShowScreen (js "ending")).

(** The object literal [{ hintsUsed: state.totalHintsUsed, elapsedTime:
    state.elapsedSeconds }] that [advanceStage] writes as third argument. *)
Definition statsOf (g : GameState) : PlayerStats :=
  {| hintsUsed := Some (totalHintsUsed g);
     elapsedTime := Some (elapsedSeconds g) |}.

(** A call with one argument more than the callee has parameters: the
    argument is evaluated and the callee never sees it. *)
Definition call_dropping_extra {A B C R} (f : A -> B -> R) (a : A) (b : B)
    (extra : C) : R := f a b.

Definition advanceStage : O unit :=
  update (fun g => set_currentStage (S (currentStage g)) g) ;~
  g <~ state ;;
  if (List.length STAGES <=? currentStage g)%nat then endGame
  else
    match nth_error STAGES (currentStage g - 1),
          nth_error STAGES (currentStage g) with
    | Some prevStage, Some nextStage =>
      does StopSpeaking ;~
      does (AwaitStageTransition
              (js "SECTOR " +++ ofZ (id prevStage) +++ js " UNLOCKED")) ;~
      does AddTypingIndicator ;~
      narration <~ call (call_dropping_extra (Exports.generateNarration env)
                           prevStage nextStage (statsOf g)) ;;
      does RemoveTypingIndicator ;~
      addSystemMessage narration ;~
      does (AwaitSpeakAndWait narration) ;~
      does (AwaitStageTransition
              (js "SECTOR " +++ ofZ (id nextStage) +++ js ": "
               +++ name nextStage)) ;~
      loadStage nextStage
    | _, _ => oret tt
    end.

(** [response.startsWith('[CORRECT]') || response.includes('[CORRECT]')] *)
Definition classifiedCorrect (response : jsstr) : bool :=
  startsWith response CORRECT || includes response CORRECT.

Definition onSendAnswer (input : jsstr) : O unit :=
  let answer := trim input in
  g <~ state ;;
  if negb (truthy answer) || isProcessing g then oret tt
  else if eqb answer (js "/skip") then
    does ClearInput ;~
    does StopSpeaking ;~
    does RemoveTypingIndicator ;~
    update (set_isProcessing false) ;~
    addSystemMessage (js "DEBUG: STAGE SKIP") ;~
    advanceStage
  else if eqb answer (js "/end") then
    does ClearInput ;~
    does StopSpeaking ;~
    does RemoveTypingIndicator ;~
    update (set_isProcessing false) ;~
    addSystemMessage (js "DEBUG: JUMP TO ENDING") ;~
    endGame
  else
    update (set_isProcessing true) ;~
    does (DisableSend true) ;~
    does ClearInput ;~
    does (AddMessage answer user) ;~
    does AddTypingIndicator ;~
    response <~ call (Exports.evaluateAnswer env answer) ;;
    does RemoveTypingIndicator ;~
    if classifiedCorrect response then
      does (PlaySound correct) ;~
      does (AppendAiMessage response) ;~
      does (AwaitSpeakAndWait response) ;~
      addSystemMessage (js "ACCESS GRANTED -- SECTOR UNLOCKED") ;~
      update (set_isProcessing false) ;~
      does (DisableSend false) ;~
      advanceStage
    else
      does (PlaySound wrong) ;~
      does (AddMessage response ai) ;~
      update (set_isProcessing false) ;~
      does (DisableSend false).

Definition onHintRequest : O unit :=
  g <~ state ;;
  if isProcessing g then oret tt
  else
    update (fun g => set_hintLevel (Z.min (hintLevel g + 1) 3) g) ;~
    update (fun g => set_totalHintsUsed (totalHintsUsed g + 1) g) ;~
    update (set_isProcessing true) ;~
    does (PlaySound hint) ;~
    g' <~ state ;;
    addSystemMessage (js "HINT DECRYPT -- LEVEL " +++ ofZ (hintLevel g')
                      +++ js "/3") ;~
    does AddTypingIndicator ;~
    h <~ call (Exports.requestHint env (hintLevel g')) ;;
    does RemoveTypingIndicator ;~
    does (AddMessage h ai) ;~
    update (set_isProcessing false).

End Flow.

End Orchestrator.

(** ** Sample environments and inputs *)

Module Fixtures.

Import Engine.

Definition part (t : string) (isThought : bool) : Part :=
  {| text := Some (js t); thought := isThought |}.

(** A response whose first candidate holds the parts [ps]. *)
Definition withParts (ps : list Part) : option Response :=
  Some {| candidates := Some
            [ {| content := Some {| parts := Some ps |} |} ] |}.

(** A cloud reply whose only candidate holds one plain text part. *)
Definition reply (t : jsstr) : Result :=
  {| response := Some {| candidates := Some
       [ {| content := Some {| parts := Some
            [ {| text := Some t; thought := false |} ] |} |} ] |} |}.

(** A cloud reply without candidates. *)
Definition emptyReply : Result :=
  {| response := Some {| candidates := Some [] |} |}.

(** No edge capability; the cloud answers as [cloud] says. *)
Definition cloudOnly (cloud : nat -> outcome Result) : Env :=
  {| window_ai := false;
     capabilities := fun _ => Rejects;
     create := fun _ => Rejects;
     sendMessage := fun n _ => cloud n;
     prompt := fun _ _ => Rejects |}.

(** The first cloud call rejects, the later ones resolve with a text that
    is too short for a verdict. *)
Definition flaky : Env :=
  cloudOnly (fun n => match n with
                      | O => Rejects
                      | _ => Resolves (reply (js "[WR"))
                      end).

(** Every cloud call rejects. *)
Definition cloudDown : Env := cloudOnly (fun _ => Rejects).

(** The edge model is ready and answers as [edge] says; every cloud call
    rejects. *)
Definition edgeOnly (edge : nat -> outcome jsstr) : Env :=
  {| window_ai := true;
     capabilities := fun _ => Resolves (js "readily");
     create := fun _ => Resolves tt;
     sendMessage := fun _ _ => Rejects;
     prompt := fun n _ => edge n |}.

(** The edge model is ready and answers as [edge] says; the cloud answers
    as [cloud] says. *)
Definition hybrid (edge : nat -> outcome jsstr) (cloud : nat -> outcome Result)
    : Env :=
  {| window_ai := true;
     capabilities := fun _ => Resolves (js "readily");
     create := fun _ => Resolves tt;
     sendMessage := fun n _ => cloud n;
     prompt := fun n _ => edge n |}.

(** The singleton [gameMasterEngine] right after the module is loaded. *)
Definition fresh (apiKey : bool) : St :=
  {| eng := constructor apiKey true; tick := 0; trace := [] |}.

Definition tower : Stage :=
  {| id := 1; name := js "東京タワー"; nameEn := js "Tokyo Tower";
     difficulty := 2; description := js "[AXIOM] セクター1。";
     puzzleContext := js "高さ333m。1958年竣工。" |}.

Definition ginza : Stage :=
  {| id := 2; name := js "銀座"; nameEn := js "Ginza";
     difficulty := 3; description := js "[AXIOM] セクター2。";
     puzzleContext := js "和光ビル。時計塔。" |}.

Definition unknownStage : Stage :=
  {| id := 9; name := js "お台場"; nameEn := js "Odaiba";
     difficulty := 1; description := js "[AXIOM] セクター9。";
     puzzleContext := js "人工島。" |}.

End Fixtures.

(** * Properties *)

(** ** JavaScript strings *)

Module JSProps.

Import JS.

Lemma eqb_eq a b : eqb a b = true <-> a = b.
Proof.
  revert b; induction a as [|x a IH]; intros [|y b]; simpl;
    try (split; (reflexivity || discriminate)).
  rewrite andb_true_iff, N.eqb_eq, IH.
  split; [intros [-> ->]; reflexivity | intros H; inversion H; auto].
Qed.

Lemma startsWith_includes s p : startsWith s p = true -> includes s p = true.
Proof. destruct s; simpl; intros ->; reflexivity. Qed.

End JSProps.

(** ** Rank computation *)

Module RankProps.

Import Orchestrator.

Definition timed (time hints : Z) : GameState :=
  {| currentStage := 0; hintLevel := 0; totalHintsUsed := hints;
     elapsedSeconds := time; isProcessing := false; gameStarted := true |}.

Example getFormattedTime_example :
  getFormattedTime (timed 125 3) = js "02:05" /\
  getFormattedTime (timed 3725 0) = js "62:05".
Proof. vm_compute. split; reflexivity. Qed.

(** C3: for every elapsed time and hint count the rank follows the bands,
    each band applying when the ones before it do not: no hints and under
    300s is "S"; at most 2 hints and under 600s is "A"; at most 5 hints and
    under 900s is "B"; under 1200s is "C"; anything else is "D".  The five
    sample points of the specification land in S, A, B, C and D. *)
Theorem calculateRank_bands :
  (forall g : GameState,
     let time := elapsedSeconds g in
     let hints := totalHintsUsed g in
     let bandS := hints = 0 /\ time < 300 in
     let bandA := hints <= 2 /\ time < 600 in
     let bandB := hints <= 5 /\ time < 900 in
     let bandC := time < 1200 in
     (bandS -> calculateRank g = js "S") /\
     (~ bandS -> bandA -> calculateRank g = js "A") /\
     (~ bandS -> ~ bandA -> bandB -> calculateRank g = js "B") /\
     (~ bandS -> ~ bandA -> ~ bandB -> bandC -> calculateRank g = js "C") /\
     (~ bandS -> ~ bandA -> ~ bandB -> ~ bandC -> calculateRank g = js "D"))
  /\ calculateRank (timed 250 0) = js "S"
  /\ calculateRank (timed 500 2) = js "A"
  /\ calculateRank (timed 700 5) = js "B"
  /\ calculateRank (timed 1000 0) = js "C"
  /\ calculateRank (timed 1300 0) = js "D".
Proof.
  split; [|repeat split; reflexivity].
  intros g time hints bandS bandA bandB bandC.
  subst bandS bandA bandB bandC. unfold calculateRank. fold time hints.
  destruct (Z.eqb_spec hints 0), (Z.ltb_spec time 300), (Z.leb_spec hints 2),
    (Z.ltb_spec time 600), (Z.leb_spec hints 5), (Z.ltb_spec time 900),
    (Z.ltb_spec time 1200); cbn [andb];
    repeat split; intros; try reflexivity; exfalso; lia.
Qed.

End RankProps.


(** ** Properties of the engine *)

Module EngineProps.

Import Engine Fixtures JSProps.

Ltac monad :=
  unfold ensure_session, chat_sendMessage, local_prompt, _updateDifficultyStats,
    external, emit, modify, this, bind, ret in *; cbn [fst snd eng tick trace] in *.

Lemma fallbacks_unknown (k : Z) : ~ (1 <= k <= 5) -> fallbacks k = None.
Proof.
  intros H. destruct k as [|p|p]; try reflexivity.
  do 3 (try (destruct p as [p|p|]); try (exfalso; lia); try reflexivity).
Qed.

Lemma fallbacks_known (k : Z) :
  1 <= k <= 5 ->
  exists t, fallbacks k = Some t /\ truthy t = true /\ t <> GENERIC_PUZZLE.
Proof.
  intros H.
  assert (Hk : k = 1 \/ k = 2 \/ k = 3 \/ k = 4 \/ k = 5) by lia.
  destruct Hk as [-> | [-> | [-> | [-> | ->]]]];
    (eexists; split; [reflexivity | split; [reflexivity | ]]);
    intros E; apply eqb_eq in E; vm_compute in E; discriminate.
Qed.

Lemma fallback_nonempty (st : Stage) : _getFallbackPuzzle st <> [].
Proof.
  unfold _getFallbackPuzzle.
  destruct (fallbacks (id st)) as [t|]; [destruct t; simpl|]; discriminate.
Qed.

Lemma generatePuzzle_all_fail (env : Env) (st : Stage) (s : St) :
  (forall n p, sendMessage env n p = Rejects) ->
  (forall n p, prompt env n p = Rejects) ->
  fst (generatePuzzle env st s) = _getFallbackPuzzle st.
Proof.
  intros Hc He. unfold generatePuzzle.
  unfold bind at 1. destruct (ensure_session env s) as [[] s1].
  monad. destruct (chatSession (eng s1)); cbn [fst snd eng];
    rewrite ?Hc; destruct (localAiSession (eng s1)); cbn [fst snd eng];
    rewrite ?He; reflexivity.
Qed.

(** C1: when every cloud call and every edge call fails, [generatePuzzle]
    still returns text, and the text is not empty: for a stage whose id is
    one of 1 to 5 it is the canned puzzle stored under that id (which is not
    the generic one), and for any other id it is the generic fallback. *)
Theorem generatePuzzle_fallback (env : Env) (st : Stage) (s : St) :
  (forall n p, sendMessage env n p = Rejects) ->
  (forall n p, prompt env n p = Rejects) ->
  let puzzle := fst (generatePuzzle env st s) in
  puzzle <> [] /\
  (1 <= id st <= 5 ->
   fallbacks (id st) = Some puzzle /\ puzzle <> GENERIC_PUZZLE) /\
  (~ (1 <= id st <= 5) -> puzzle = GENERIC_PUZZLE).
Proof.
  intros Hc He puzzle. subst puzzle.
  rewrite (generatePuzzle_all_fail env st s Hc He).
  split; [apply fallback_nonempty|]. unfold _getFallbackPuzzle. split; intros H.
  - destruct (fallbacks_known _ H) as (t & -> & Ht & Hg). rewrite Ht. auto.
  - rewrite (fallbacks_unknown _ H). reflexivity.
Qed.

(** The canned puzzles of two different known ids differ. *)
Lemma fallbacks_stage_specific (j k : Z) :
  1 <= j <= 5 -> 1 <= k <= 5 -> j <> k -> fallbacks j <> fallbacks k.
Proof.
  intros Hj Hk Hne.
  assert (Ej : j = 1 \/ j = 2 \/ j = 3 \/ j = 4 \/ j = 5) by lia.
  assert (Ek : k = 1 \/ k = 2 \/ k = 3 \/ k = 4 \/ k = 5) by lia.
  destruct Ej as [-> | [-> | [-> | [-> | ->]]]];
  destruct Ek as [-> | [-> | [-> | [-> | ->]]]];
    try congruence;
    intros E;
    apply (f_equal (fun o => match o with Some t => t | None => [] end)) in E;
    apply eqb_eq in E; vm_compute in E; discriminate.
Qed.

Lemma generatePuzzle_fallback_witness :
  let puzzle := fst (generatePuzzle cloudDown tower (fresh true)) in
  puzzle <> [] /\
  (1 <= id tower <= 5 ->
   fallbacks (id tower) = Some puzzle /\ puzzle <> GENERIC_PUZZLE) /\
  (~ (1 <= id tower <= 5) -> puzzle = GENERIC_PUZZLE).
Proof.
  apply (generatePuzzle_fallback cloudDown tower (fresh true));
    intros; reflexivity.
Defined.

(** With the cloud down, a stage whose id is not a key of the table gets
    the generic puzzle; a known stage gets another text, also when the
    engine was built without an API key. *)
Lemma generatePuzzle_unknown_stage :
  fst (generatePuzzle cloudDown unknownStage (fresh true)) = GENERIC_PUZZLE /\
  fst (generatePuzzle cloudDown tower (fresh false)) <> GENERIC_PUZZLE.
Proof.
  split; [vm_compute; reflexivity|].
  intros E. apply eqb_eq in E. vm_compute in E. discriminate E.
Qed.

(** *** The difficulty counters *)

Definition exclusive (e : GeoAIGameMaster) : Prop :=
  consecutiveCorrect e = 0 \/ consecutiveWrong e = 0.

(** What [_updateDifficultyStats] makes of the engine. *)
Definition scored (v : jsstr) (e : GeoAIGameMaster) : GeoAIGameMaster :=
  if includes v CORRECT
  then set_counters 0 (consecutiveCorrect e + 1) e
  else set_counters (consecutiveWrong e + 1) 0 e.

Lemma scored_exclusive v e : exclusive (scored v e).
Proof. unfold exclusive, scored. destruct (includes v CORRECT); simpl; auto. Qed.

(** Use a fact about the rest of the attempts at the state they start in. *)
Ltac at_rest H :=
  match goal with
  | |- context [cloudAttempts _ _ _ ?s1] => exact (H s1)
  end.

Lemma cloudAttempts_cases env p attempts s :
  let r := cloudAttempts env p attempts s in
  (fst r = UNSTABLE /\ eng (snd r) = eng s) \/
  (eng (snd r) = scored (fst r) (eng s)).
Proof.
  revert s. induction attempts as [|a rest IH]; intros s; simpl.
  - left. split; reflexivity.
  - monad. destruct (chatSession (eng s)) eqn:Hs; cbn [fst snd eng].
    + destruct (sendMessage env (tick s) p) as [result|].
      * destruct (truthy _ && _); cbn [fst snd eng].
        -- right. reflexivity.
        -- at_rest IH.
      * destruct (a =? 0); at_rest IH.
    + destruct (a =? 0); at_rest IH.
Qed.

Lemma evaluateAnswer_cases env answer s :
  let r := evaluateAnswer env answer s in
  ((fst r = CONNECTION_LOST \/ fst r = UNSTABLE) /\ eng (snd r) = eng s) \/
  (eng (snd r) = scored (fst r) (eng s)).
Proof.
  unfold evaluateAnswer. monad.
  destruct (negb (chatSession (eng s)) && negb (localAiSession (eng s))).
  - left. split; [left|]; reflexivity.
  - pose proof (cloudAttempts_cases env (cloudEvalPrompt answer) [0; 1]) as HC.
    destruct (localAiSession (eng s)); cbn [fst snd eng].
    + destruct (prompt env (tick s) (edgeEvalPrompt answer)) as [resp|];
        cbn [fst snd eng].
      * right. reflexivity.
      * match goal with |- context [cloudAttempts _ _ _ ?s1] =>
          destruct (HC s1) as [[E1 E2]|E] end.
        -- left. split; [right; exact E1 | exact E2].
        -- right. exact E.
    + destruct (HC s) as [[E1 E2]|E].
      * left. split; [right; exact E1 | exact E2].
      * right. exact E.
Qed.

Ltac branches :=
  repeat (cbn [fst snd eng tick trace];
          match goal with
          | |- context [if ?b then _ else _] => destruct b
          | |- context [match ?x with Resolves _ => _ | Rejects => _ end] =>
            destruct x
          end);
  cbn [fst snd eng tick trace].

Lemma init_resets env s :
  consecutiveCorrect (eng (snd (init env s))) = 0 /\
  consecutiveWrong (eng (snd (init env s))) = 0.
Proof. unfold init. monad. branches; split; reflexivity. Qed.

Lemma ensure_session_exclusive env s :
  exclusive (eng s) -> exclusive (eng (snd (ensure_session env s))).
Proof.
  intros H. unfold ensure_session, bind, this.
  destruct (chatSession (eng s)); [exact H|].
  left. apply init_resets.
Qed.

Lemma generatePuzzle_engine env st s :
  eng (snd (generatePuzzle env st s)) = eng (snd (ensure_session env s)).
Proof.
  unfold generatePuzzle. unfold bind at 1.
  destruct (ensure_session env s) as [[] s1]. monad. branches; reflexivity.
Qed.

Lemma requestHint_engine env l s : eng (snd (requestHint env l s)) = eng s.
Proof. unfold requestHint. monad. branches; reflexivity. Qed.

Lemma generateNarration_engine env f t ps s :
  eng (snd (generateNarration env f t ps s)) = eng (snd (ensure_session env s)).
Proof.
  unfold generateNarration. unfold bind at 1.
  destruct (ensure_session env s) as [[] s1]. monad. branches; reflexivity.
Qed.

Lemma generateEndingStory_engine env t h c s :
  eng (snd (generateEndingStory env t h c s)) = eng (snd (ensure_session env s)).
Proof.
  unfold generateEndingStory. unfold bind at 1.
  destruct (ensure_session env s) as [[] s1]. monad. branches; reflexivity.
Qed.

Lemma evaluateAnswer_exclusive env a s :
  exclusive (eng s) -> exclusive (eng (snd (evaluateAnswer env a s))).
Proof.
  intros H. destruct (evaluateAnswer_cases env a s) as [[_ E]|E]; rewrite E.
  - exact H.
  - apply scored_exclusive.
Qed.

Lemma perform_exclusive env c s :
  exclusive (eng s) -> exclusive (eng (perform env c s)).
Proof.
  intros H. destruct c; simpl.
  - left. apply init_resets.
  - rewrite generatePuzzle_engine. apply ensure_session_exclusive, H.
  - apply evaluateAnswer_exclusive, H.
  - rewrite requestHint_engine. exact H.
  - rewrite generateNarration_engine. apply ensure_session_exclusive, H.
  - rewrite generateEndingStory_engine. apply ensure_session_exclusive, H.
Qed.

Lemma session_exclusive env calls s0 : exclusive (eng (session env calls s0)).
Proof.
  unfold session.
  assert (H : exclusive (eng (snd (init env s0)))) by (left; apply init_resets).
  revert H. generalize (snd (init env s0)).
  induction calls as [|c calls IH]; intros s H; simpl.
  - exact H.
  - apply IH, perform_exclusive, H.
Qed.

(** C2, as the code has it: after [init] and any sequence of calls, the two
    counters are never both non-zero, before and after an [evaluateAnswer]
    call; a returned verdict that contains the correct-marker leaves
    [consecutiveCorrect] one higher and [consecutiveWrong] at zero; a
    returned verdict without the marker, other than the two fixed fallback
    responses, leaves [consecutiveWrong] one higher and [consecutiveCorrect]
    at zero. *)
Theorem counters_follow_verdicts :
  forall (env : Env) (s0 : St) (calls : list Call) (answer : jsstr),
    let s := session env calls s0 in
    let r := evaluateAnswer env answer s in
    let verdict := fst r in
    let before := eng s in
    let after := eng (snd r) in
    exclusive before /\ exclusive after /\
    (includes verdict CORRECT = true ->
     consecutiveCorrect after = consecutiveCorrect before + 1 /\
     consecutiveWrong after = 0) /\
    (includes verdict CORRECT = false ->
     verdict <> CONNECTION_LOST -> verdict <> UNSTABLE ->
     consecutiveWrong after = consecutiveWrong before + 1 /\
     consecutiveCorrect after = 0).
Proof.
  intros env s0 calls answer s r verdict before after.
  assert (Hb : exclusive before) by apply session_exclusive.
  split; [exact Hb|].
  split; [apply evaluateAnswer_exclusive, Hb|].
  subst verdict before after r.
  destruct (evaluateAnswer_cases env answer s) as [[[E|E] _]|E].
  - split; [|congruence].
    intros H. rewrite E in H. vm_compute in H. discriminate H.
  - split; [|congruence].
    intros H. rewrite E in H. vm_compute in H. discriminate H.
  - rewrite E. unfold scored. split; intros H; rewrite H; simpl; auto.
Qed.

(** Two answers in a row judged correct by the cloud, then one judged
    wrong. *)
Lemma counters_follow_verdicts_witness :
  let env := cloudOnly (fun n => match n with
                                 | 0%nat | 1%nat =>
                                   Resolves (reply (js "[CORRECT] 認証完了。"))
                                 | _ => Resolves (reply (js "[WRONG] 不正解だ。"))
                                 end) in
  let one := session env [CallEvaluateAnswer (js "東京タワー")] (fresh true) in
  let two := snd (evaluateAnswer env (js "和光") one) in
  let three := snd (evaluateAnswer env (js "柴犬") two) in
  (consecutiveCorrect (eng two) = 2 /\ consecutiveWrong (eng two) = 0) /\
  (consecutiveWrong (eng three) = 1 /\ consecutiveCorrect (eng three) = 0).
Proof.
  cbn zeta. split.
  - match goal with |- context [evaluateAnswer ?env ?a (session ?env ?c ?s0)] =>
      pose proof (counters_follow_verdicts env s0 c a) as H end.
    cbn zeta in H. destruct H as (_ & _ & H & _).
    specialize (H ltac:(vm_compute; reflexivity)).
    vm_compute in H. vm_compute. exact H.
  - pose proof (counters_follow_verdicts
                  (cloudOnly (fun n => match n with
                                | 0%nat | 1%nat =>
                                  Resolves (reply (js "[CORRECT] 認証完了。"))
                                | _ => Resolves (reply (js "[WRONG] 不正解だ。"))
                                end))
                  (fresh true)
                  [CallEvaluateAnswer (js "東京タワー");
                   CallEvaluateAnswer (js "和光")]
                  (js "柴犬")) as H.
    cbn zeta in H. destruct H as (_ & _ & _ & H).
    specialize (H ltac:(vm_compute; reflexivity)
                  ltac:(intros E; apply eqb_eq in E; vm_compute in E;
                        discriminate E)
                  ltac:(intros E; apply eqb_eq in E; vm_compute in E;
                        discriminate E)).
    vm_compute in H. vm_compute. exact H.
Defined.

(** C2, counterexample to the claim as stated: with a cloud session whose
    calls all reject, [evaluateAnswer] returns a verdict that is tagged wrong
    and holds no correct-marker, and [consecutiveWrong] is not incremented. *)
Lemma wrong_fallback_not_counted :
  let s := session cloudDown [] (fresh true) in
  let r := evaluateAnswer cloudDown (js "東京タワー") s in
  startsWith (fst r) WRONG = true /\
  includes (fst r) CORRECT = false /\
  consecutiveWrong (eng (snd r)) <> consecutiveWrong (eng s) + 1.
Proof. vm_compute. repeat split; discriminate. Qed.

(** *** The paths of [evaluateAnswer] *)

Lemma cloudAttempts_two env p s :
  chatSession (eng s) = true ->
  let first := sendMessage env (tick s) p in
  let second := sendMessage env (S (tick s)) p in
  let r := cloudAttempts env p [0; 1] s in
  match verdictOf first with
  | Some t =>
    fst r = t /\ eng (snd r) = scored t (eng s) /\
    trace (snd r) = trace s ++ [CloudSend p]
  | None =>
    trace (snd r) =
      trace s ++ [CloudSend p]
        ++ (if rejected first then [Sleep 500] else []) ++ [CloudSend p] /\
    match verdictOf second with
    | Some t => fst r = t /\ eng (snd r) = scored t (eng s)
    | None => fst r = UNSTABLE /\ eng (snd r) = eng s
    end
  end.
Proof.
  intros Hs. cbn zeta. unfold cloudAttempts. monad. rewrite Hs.
  cbn [fst snd eng tick trace]. unfold verdictOf.
  destruct (sendMessage env (tick s) p) as [r1|]; cbn [rejected].
  - destruct (truthy _ && _); cbn [fst snd eng tick trace].
    + repeat split; reflexivity.
    + rewrite Hs. cbn [fst snd eng tick trace].
      destruct (sendMessage env (S (tick s)) p) as [r2|];
        [destruct (truthy _ && _)|]; cbn [fst snd eng tick trace];
        rewrite <- ?app_assoc; repeat split; reflexivity.
  - change (0 =? 0) with true. cbn iota. cbn [fst snd eng tick trace].
    rewrite Hs. cbn [fst snd eng tick trace].
    destruct (sendMessage env (S (tick s)) p) as [r2|];
      [destruct (truthy _ && _)|]; cbn [fst snd eng tick trace];
      rewrite <- ?app_assoc; repeat split; reflexivity.
Qed.

Lemma cloudAttempts_no_session env p attempts s :
  chatSession (eng s) = false ->
  fst (cloudAttempts env p attempts s) = UNSTABLE /\
  eng (snd (cloudAttempts env p attempts s)) = eng s.
Proof.
  revert s. induction attempts as [|a rest IH]; intros s Hs; simpl.
  - split; reflexivity.
  - monad. rewrite Hs. cbn [fst snd eng tick trace].
    destruct (a =? 0); cbn [fst snd eng tick trace];
      match goal with
      | |- context [cloudAttempts _ _ _ ?s1] => exact (IH s1 Hs)
      end.
Qed.

(** C5, as the code has it: with neither session [evaluateAnswer] returns
    the connection-lost response and touches nothing (no call is made).
    The cloud path is taken by an engine with a chat session that has no
    edge session, or whose edge call rejects; the attempts then start at
    the next call number, after the edge prompt if there was one.  On it an
    attempt that is accepted is returned at once, and an attempt that
    rejects or is too short is followed by exactly one more attempt, after
    a 500ms pause when it rejected and with no pause when it was too short;
    when the second attempt is not accepted either, the result is the
    "unstable" response.  An edge call that resolves is returned as it is
    and the cloud is not asked; and when the edge call rejects and there is
    no chat session, nothing is sent: both attempts fail before the call,
    with the one pause between them. *)
Theorem evaluateAnswer_paths :
  forall (env : Env) (answer : jsstr) (s : St),
    let r := evaluateAnswer env answer s in
    let p := cloudEvalPrompt answer in
    let edge := localAiSession (eng s) in
    let asked := prompt env (tick s) (edgeEvalPrompt answer) in
    let n := if edge then S (tick s) else tick s in
    let before :=
      trace s ++ (if edge then [EdgePrompt (edgeEvalPrompt answer)] else []) in
    let first := sendMessage env n p in
    let second := sendMessage env (S n) p in
    startsWith CONNECTION_LOST WRONG = true /\
    startsWith UNSTABLE WRONG = true /\
    (chatSession (eng s) = false -> edge = false ->
     r = (CONNECTION_LOST, s)) /\
    (chatSession (eng s) = true -> (edge = true -> asked = Rejects) ->
     match verdictOf first with
     | Some t => fst r = t /\ trace (snd r) = before ++ [CloudSend p]
     | None =>
       trace (snd r) =
         before ++ [CloudSend p]
           ++ (if rejected first then [Sleep 500] else []) ++ [CloudSend p] /\
       fst r = match verdictOf second with Some t => t | None => UNSTABLE end
     end) /\
    (forall resp, edge = true -> asked = Resolves resp ->
     fst r = resp /\ trace (snd r) = before) /\
    (chatSession (eng s) = false -> edge = true -> asked = Rejects ->
     fst r = UNSTABLE /\ trace (snd r) = before ++ [Sleep 500]).
Proof.
  intros env answer s r p edge asked n before first second.
  subst r edge asked n before first second.
  split; [vm_compute; reflexivity|]. split; [vm_compute; reflexivity|].
  split; [|split; [|split]].
  - intros Hc Hl. unfold evaluateAnswer. monad. rewrite Hc, Hl. reflexivity.
  - intros Hc Hedge. unfold evaluateAnswer. monad. rewrite Hc.
    cbn [negb andb]. fold p.
    destruct (localAiSession (eng s)) eqn:Hl.
    + rewrite (Hedge eq_refl). cbn [fst snd eng tick trace].
      match goal with |- context [cloudAttempts _ _ _ ?s1] =>
        pose proof (cloudAttempts_two env p s1 Hc) as H end.
      cbn zeta in H. cbn [tick trace] in H.
      destruct (verdictOf (sendMessage env (S (tick s)) p)).
      * destruct H as (H1 & _ & H3). split; assumption.
      * destruct H as (H1 & H2). split; [assumption|].
        destruct (verdictOf (sendMessage env (S (S (tick s))) p)); apply H2.
    + pose proof (cloudAttempts_two env p s Hc) as H. cbn zeta in H.
      rewrite app_nil_r.
      destruct (verdictOf (sendMessage env (tick s) p)).
      * destruct H as (H1 & _ & H3). split; assumption.
      * destruct H as (H1 & H2). split; [assumption|].
        destruct (verdictOf (sendMessage env (S (tick s)) p)); apply H2.
  - intros resp Hl Ha. unfold evaluateAnswer. monad.
    rewrite Hl, andb_false_r. cbn beta iota. rewrite Ha.
    cbn [fst snd eng tick trace]. split; reflexivity.
  - intros Hc Hl Ha. unfold evaluateAnswer. monad. rewrite Hc, Hl.
    cbn [negb andb]. cbn beta iota. rewrite Ha.
    cbn [fst snd eng tick trace].
    unfold cloudAttempts. monad. rewrite Hc. cbn [fst snd eng tick trace].
    change (0 =? 0) with true. change (1 =? 0) with false. cbn iota.
    cbn [fst snd eng tick trace]. rewrite Hc. cbn [fst snd eng tick trace].
    split; reflexivity.
Qed.

(** C5, counterexample to the claim as stated: a first cloud attempt that
    resolves with too short a text is retried at once; no pause stands
    between the two attempts. *)
Lemma short_reply_retried_without_backoff :
  let env := cloudOnly (fun _ => Resolves (reply (js "[WR"))) in
  let s := session env [] (fresh true) in
  let p := cloudEvalPrompt (js "東京タワー") in
  let r := evaluateAnswer env (js "東京タワー") s in
  fst r = UNSTABLE /\
  trace (snd r) = trace s ++ [CloudSend p; CloudSend p] /\
  ~ In (Sleep 500) (trace (snd r)).
Proof.
  cbn zeta. split; [vm_compute; reflexivity|]. split; [vm_compute; reflexivity|].
  vm_compute. intros [H|[H|[H|[]]]]; discriminate.
Qed.

(** The cases of C5 at sample inputs: no session at all; a cloud whose
    first attempt rejects and whose second is too short; and an engine with
    both sessions whose edge call rejects, whose first cloud attempt rejects
    and whose second gives a verdict. *)
Lemma evaluateAnswer_paths_witness :
  evaluateAnswer cloudDown (js "東京タワー") (fresh false)
    = (CONNECTION_LOST, fresh false) /\
  (let s := session flaky [] (fresh true) in
   let p := cloudEvalPrompt (js "東京タワー") in
   let r := evaluateAnswer flaky (js "東京タワー") s in
   trace (snd r) = trace s ++ [CloudSend p; Sleep 500; CloudSend p] /\
   fst r = UNSTABLE) /\
  (let env := hybrid (fun _ => Rejects)
                (fun n => if (n =? 3)%nat then Rejects
                          else Resolves (reply (js "[CORRECT] 正解だ。"))) in
   let s := session env [] (fresh true) in
   let p := cloudEvalPrompt (js "東京タワー") in
   let r := evaluateAnswer env (js "東京タワー") s in
   localAiSession (eng s) = true /\
   trace (snd r) = trace s ++ [EdgePrompt (edgeEvalPrompt (js "東京タワー"));
                               CloudSend p; Sleep 500; CloudSend p] /\
   fst r = js "[CORRECT] 正解だ。").
Proof.
  split; [|split].
  - apply (evaluateAnswer_paths cloudDown (js "東京タワー") (fresh false));
      reflexivity.
  - cbn zeta.
    pose proof (evaluateAnswer_paths flaky (js "東京タワー")
                  (session flaky [] (fresh true))) as H.
    cbn zeta in H. destruct H as (_ & _ & _ & H & _).
    assert (A : chatSession (eng (session flaky [] (fresh true))) = true)
      by (lazy; reflexivity).
    assert (B : localAiSession (eng (session flaky [] (fresh true))) = true ->
                prompt flaky (tick (session flaky [] (fresh true)))
                  (edgeEvalPrompt (js "東京タワー")) = Rejects)
      by (intros _; reflexivity).
    specialize (H A B). destruct H as [H1 H2].
    lazy in H1. lazy in H2. lazy. split; [exact H1 | exact H2].
  - cbn zeta.
    match goal with |- localAiSession (eng (session ?env _ _)) = true /\ _ =>
      pose proof (evaluateAnswer_paths env (js "東京タワー")
                    (session env [] (fresh true))) as H;
      assert (A : chatSession (eng (session env [] (fresh true))) = true)
        by (lazy; reflexivity);
      assert (B : localAiSession (eng (session env [] (fresh true))) = true ->
                  prompt env (tick (session env [] (fresh true)))
                    (edgeEvalPrompt (js "東京タワー")) = Rejects)
        by (intros _; reflexivity);
      assert (L : localAiSession (eng (session env [] (fresh true))) = true)
        by (lazy; reflexivity)
    end.
    cbn zeta in H. destruct H as (_ & _ & _ & H & _).
    specialize (H A B). destruct H as [H1 H2].
    split; [exact L|].
    lazy in H1. lazy in H2. lazy. split; [exact H1 | exact H2].
Defined.

(** C10: when [evaluateAnswer] gets no verdict from the edge session (if
    there is one, its call rejects) and none from the cloud (if there is a
    cloud session, both attempts reject or are too short), it returns the
    "unstable" response and leaves the engine, and so both counters, as
    they were. *)
Theorem unstable_fallback_keeps_counters (env : Env) (answer : jsstr) (s : St) :
  let edge := localAiSession (eng s) in
  let cloud := chatSession (eng s) in
  let n := if edge then S (tick s) else tick s in
  let p := cloudEvalPrompt answer in
  let r := evaluateAnswer env answer s in
  edge = true \/ cloud = true ->
  (edge = true -> prompt env (tick s) (edgeEvalPrompt answer) = Rejects) ->
  (cloud = true -> verdictOf (sendMessage env n p) = None /\
                   verdictOf (sendMessage env (S n) p) = None) ->
  fst r = UNSTABLE /\
  eng (snd r) = eng s /\
  consecutiveCorrect (eng (snd r)) = consecutiveCorrect (eng s) /\
  consecutiveWrong (eng (snd r)) = consecutiveWrong (eng s).
Proof.
  cbn zeta. intros Hsome Hedge Hcloud.
  assert (G : fst (evaluateAnswer env answer s) = UNSTABLE /\
              eng (snd (evaluateAnswer env answer s)) = eng s).
  2:{ destruct G as [G1 G2]. rewrite G2. auto. }
  unfold evaluateAnswer. monad.
  destruct (localAiSession (eng s)) eqn:Hl.
  - rewrite andb_false_r. rewrite (Hedge eq_refl). cbn [fst snd eng tick trace].
    destruct (chatSession (eng s)) eqn:Hc.
    + match goal with |- context [cloudAttempts _ ?p _ ?s1] =>
        pose proof (cloudAttempts_two env p s1 Hc) as H end.
      cbn zeta in H. cbn [tick] in H.
      destruct (Hcloud eq_refl) as [V1 V2]. rewrite V1, V2 in H.
      destruct H as [_ H]. exact H.
    + match goal with |- context [cloudAttempts _ ?p _ ?s1] =>
        exact (cloudAttempts_no_session env p [0; 1] s1 Hc) end.
  - destruct Hsome as [Hsome|Hc]; [discriminate|]. rewrite Hc. cbn [negb andb].
    pose proof (cloudAttempts_two env (cloudEvalPrompt answer) s Hc) as H.
    cbn zeta in H. destruct (Hcloud Hc) as [V1 V2]. rewrite V1, V2 in H.
    destruct H as [_ H]. exact H.
Qed.

Lemma unstable_fallback_keeps_counters_witness :
  let s := session cloudDown [] (fresh true) in
  let r := evaluateAnswer cloudDown (js "東京タワー") s in
  fst r = UNSTABLE /\
  eng (snd r) = eng s /\
  consecutiveCorrect (eng (snd r)) = consecutiveCorrect (eng s) /\
  consecutiveWrong (eng (snd r)) = consecutiveWrong (eng s).
Proof.
  apply (unstable_fallback_keeps_counters cloudDown (js "東京タワー")
           (session cloudDown [] (fresh true))).
  - right. reflexivity.
  - intros H. discriminate H.
  - intros _. split; reflexivity.
Defined.

(** *** Empty replies *)

(** Thought parts are skipped, the text parts are joined by a newline; when
    only thought parts carry text, the first of them is returned. *)
Example extractResponseText_example :
  _extractResponseText
    (withParts [part "plan" true; part "[HINT] 333" false; part "m" false])
  = js "[HINT] 333" +++ nl +++ js "m" /\
  _extractResponseText (withParts [part "plan" true; part "more" true])
  = js "plan" /\
  _extractResponseText (withParts [{| text := None; thought := false |}]) = [] /\
  _extractResponseText None = [].
Proof. vm_compute. repeat split; reflexivity. Qed.

(** [generatePuzzle] never returns the empty string: a cloud text is
    returned only when it has at least 10 code units, an edge text only when
    it has more than 10, and the canned puzzles are not empty. *)
Lemma generatePuzzle_nonempty env st s : fst (generatePuzzle env st s) <> [].
Proof.
  pose proof (fallback_nonempty st) as F.
  unfold generatePuzzle. unfold bind at 1.
  destruct (ensure_session env s) as [[] s1]. monad.
  destruct (chatSession (eng s1)); cbn [fst snd eng tick trace].
  - destruct (sendMessage env (tick s1) _) as [result|];
      cbn [fst snd eng tick trace].
    + destruct (truthy (_extractResponseText (response result))) eqn:T;
        cbn [negb orb]; [|exact F].
      destruct (len _ <? 10); cbn [fst]; [exact F|].
      intros E. rewrite E in T. discriminate T.
    + destruct (localAiSession (eng s1)); cbn [fst snd]; [|exact F].
      destruct (prompt env _ _) as [t|]; cbn [fst snd]; [|exact F].
      destruct (truthy t) eqn:T; cbn [andb]; [|exact F].
      destruct (len t >? 10); cbn [fst]; [|exact F].
      intros E. rewrite E in T. discriminate T.
  - destruct (localAiSession (eng s1)); cbn [fst snd]; [|exact F].
    destruct (prompt env _ _) as [t|]; cbn [fst snd]; [|exact F].
    destruct (truthy t) eqn:T; cbn [andb]; [|exact F].
    destruct (len t >? 10); cbn [fst]; [|exact F].
    intros E. rewrite E in T. discriminate T.
Qed.

(** C6, the code at the failing input: a cloud reply without candidates
    makes [generatePuzzle] fall back to the canned puzzle, but
    [requestHint], [generateNarration] and [generateEndingStory] hand the
    empty text to their caller, and so does [evaluateAnswer] with an empty
    edge reply. *)
Theorem empty_reply_reaches_caller :
  let env := cloudOnly (fun _ => Resolves emptyReply) in
  let s := session env [] (fresh true) in
  let edge := edgeOnly (fun _ => Resolves []) in
  fst (generatePuzzle env tower s) = _getFallbackPuzzle tower /\
  fst (requestHint env 1 s) = [] /\
  fst (generateNarration env tower ginza Exports.noStats s) = [] /\
  fst (generateEndingStory env (js "05:00") 0 5 s) = [] /\
  fst (evaluateAnswer edge (js "東京タワー") (session edge [] (fresh false))) = [].
Proof. vm_compute. repeat split; reflexivity. Qed.

End EngineProps.

(** ** Properties of the speech sequencer *)

Module TtsProps.

Import Tts.

(** Identifiers are handed out in increasing order: suspended calls have
    distinct ids, and every id or promise in use is below [nextId]. *)
Definition fresh_ids (s : State) : Prop :=
  NoDup (map tid (tasks s)) /\
  (forall t, In t (tasks s) -> (tid t < nextId s)%nat) /\
  (forall t q, In t (tasks s) -> caller t = FromWait q -> (q < nextId s)%nat) /\
  (forall q, In q (resolved s) -> (q < nextId s)%nat) /\
  (forall q, currentSpeakResolve s = Some q -> (q < nextId s)%nat).

(** The promise [p] is resolved, or a suspended call will resolve it when
    it settles. *)
Definition pending_or_resolved (p : nat) (s : State) : Prop :=
  In p (resolved s) \/ exists t, In t (tasks s) /\ caller t = FromWait p.

(** The part of the state the two predicates look at. *)
Definition core (s : State) :=
  (tasks s, nextId s, resolved s, currentSpeakResolve s).

Lemma fresh_ids_core s s' : core s = core s' -> fresh_ids s -> fresh_ids s'.
Proof.
  unfold core, fresh_ids. intros E. injection E as E1 E2 E3 E4.
  rewrite E1, E2, E3, E4. auto.
Qed.

Lemma pending_core p s s' :
  core s = core s' -> pending_or_resolved p s -> pending_or_resolved p s'.
Proof.
  unfold core, pending_or_resolved. intros E. injection E as E1 E2 E3 E4.
  rewrite E1, E3. auto.
Qed.

Lemma pending_same p s s' :
  tasks s = tasks s' -> resolved s = resolved s' ->
  pending_or_resolved p s -> pending_or_resolved p s'.
Proof. unfold pending_or_resolved. intros -> ->. auto. Qed.

Lemma core_stopSpeaking s : core s = core (stopSpeaking s).
Proof. destruct s as [? [a|] ? ? ? ? ? ? ? ? ?]; reflexivity. Qed.

Lemma unique_task (l : list Task) (a b : Task) :
  NoDup (map tid l) -> In a l -> In b l -> tid a = tid b -> a = b.
Proof.
  induction l as [|x l IH]; simpl; intros N Ha Hb E; [contradiction|].
  inversion N as [|? ? Hx N']; subst.
  destruct Ha as [->|Ha], Hb as [->|Hb]; auto.
  - exfalso. apply Hx. rewrite E. apply in_map, Hb.
  - exfalso. apply Hx. rewrite <- E. apply in_map, Ha.
Qed.

Lemma pc_eqb_refl a : pc_eqb a a = true.
Proof. destruct a; reflexivity. Qed.

Lemma waiting_in i a s t :
  waiting i a s = Some t -> In t (tasks s) /\ tid t = i /\ pc t = a.
Proof.
  unfold waiting. intros H. apply find_some in H. destruct H as [H1 H2].
  apply andb_true_iff in H2. destruct H2 as [H2 H3].
  apply Nat.eqb_eq in H2. split; [exact H1|]. split; [exact H2|].
  destruct (pc t), a; simpl in H3; congruence.
Qed.

Lemma waiting_found s t :
  fresh_ids s -> In t (tasks s) -> waiting (tid t) (pc t) s = Some t.
Proof.
  intros (N & _) Ht. destruct (waiting (tid t) (pc t) s) as [t'|] eqn:W.
  - apply waiting_in in W. destruct W as (H1 & H2 & _).
    f_equal. apply (unique_task (tasks s)); assumption.
  - unfold waiting in W. apply (find_none _ _ W) in Ht.
    rewrite Nat.eqb_refl, pc_eqb_refl in Ht. discriminate.
Qed.

Lemma NoDup_map_filter {A B} (f : A -> B) (g : A -> bool) (l : list A) :
  NoDup (map f l) -> NoDup (map f (filter g l)).
Proof.
  induction l as [|x l IH]; simpl; intros N; [constructor|].
  inversion N as [|? ? Hx N']; subst.
  destruct (g x); simpl; [constructor|]; auto.
  intros H. apply Hx. apply in_map_iff in H. destruct H as (y & E & Hy).
  apply filter_In in Hy. apply in_map_iff. exists y. tauto.
Qed.

Lemma NoDup_snoc {A} (l : list A) (x : A) :
  NoDup l -> ~ In x l -> NoDup (l ++ [x]).
Proof.
  induction l as [|y l IH]; simpl; intros N Hx.
  - constructor; [intros []|constructor].
  - inversion N as [|? ? Hy N']; subst. constructor.
    + intros H. apply in_app_iff in H. destruct H as [H|[->|[]]]; auto.
    + apply IH; auto.
Qed.

Lemma fresh_synthesizeAndPlay text c s :
  fresh_ids s -> (forall q, c = FromWait q -> (q < nextId s)%nat) ->
  fresh_ids (synthesizeAndPlay text c s).
Proof.
  destruct s as [en ca qu ip csr sa ts ni rs so pl].
  unfold fresh_ids, synthesizeAndPlay. cbn.
  intros (N & T & C & R & S) Hc. repeat split.
  - rewrite map_app. cbn. apply NoDup_snoc; [exact N|].
    intros H. apply in_map_iff in H.
    destruct H as (t & E & Ht). apply T in Ht. lia.
  - intros t Ht. apply in_app_iff in Ht. destruct Ht as [Ht|[<-|[]]]; cbn.
    + apply T in Ht. lia.
    + lia.
  - intros t q Ht Hq. apply in_app_iff in Ht. destruct Ht as [Ht|[<-|[]]].
    + apply (C t q Ht) in Hq. lia.
    + cbn in Hq. apply Hc in Hq. lia.
  - intros q Hq. apply R in Hq. lia.
  - intros q Hq. apply S in Hq. lia.
Qed.

Lemma pending_synthesizeAndPlay p text c s :
  pending_or_resolved p s -> pending_or_resolved p (synthesizeAndPlay text c s).
Proof.
  destruct s as [en ca qu ip csr sa ts ni rs so pl].
  unfold pending_or_resolved, synthesizeAndPlay. cbn.
  intros [H|(t & Ht & Hc)]; [left; exact H|].
  right. exists t. split; [apply in_app_iff; left; exact Ht | exact Hc].
Qed.

Lemma fresh_settle t s : fresh_ids s -> In t (tasks s) -> fresh_ids (settle t s).
Proof.
  intros F Ht.
  assert (F1 : fresh_ids (drop_task (tid t) s)).
  { destruct s as [en ca qu ip csr sa ts ni rs so pl].
    unfold fresh_ids, drop_task in *. cbn in *.
    destruct F as (N & T & C & R & S). repeat split; auto.
    - apply NoDup_map_filter, N.
    - intros t' H. apply filter_In in H. apply T, H.
    - intros t' q H. apply filter_In in H. apply C, H. }
  assert (Q : forall q, caller t = FromWait q ->
                        (q < nextId (drop_task (tid t) s))%nat).
  { destruct s as [en ca qu ip csr sa ts ni rs so pl].
    destruct F as (_ & _ & C & _). cbn in *. intros q. apply C, Ht. }
  unfold settle. generalize dependent (drop_task (tid t) s). clear F Ht s.
  intros s F Q. destruct (caller t) as [|p].
  - destruct (audioQueue s) as [|text rest] eqn:E.
    + apply (fresh_ids_core s); [destruct s; reflexivity | exact F].
    + apply fresh_synthesizeAndPlay; [|discriminate].
      apply (fresh_ids_core s); [destruct s; reflexivity | exact F].
  - specialize (Q p eq_refl).
    destruct s as [en ca qu ip csr sa ts ni rs so pl].
    unfold fresh_ids, resolve in *. cbn in *.
    destruct F as (N & T & C & R & S). repeat split; auto.
    + intros q [<-|H]; auto.
    + discriminate.
Qed.

Lemma settle_resolves t p s :
  caller t = FromWait p -> In p (resolved (settle t s)).
Proof.
  intros E. unfold settle. rewrite E.
  destruct s as [en ca qu ip csr sa ts ni rs so pl]. cbn. left. reflexivity.
Qed.

Lemma pending_settle p t s :
  fresh_ids s -> In t (tasks s) ->
  pending_or_resolved p s -> pending_or_resolved p (settle t s).
Proof.
  intros F Ht H.
  destruct (caller t) as [|q] eqn:Ec.
  - (* the loop of processQueue goes on *)
    assert (H1 : pending_or_resolved p (drop_task (tid t) s)).
    { destruct H as [H|(u & Hu & Hc)].
      - left. destruct s; exact H.
      - right. exists u. split; [|exact Hc].
        destruct s as [en ca qu ip csr sa ts ni rs so pl]. cbn in *.
        apply filter_In. split; [exact Hu|].
        apply negb_true_iff, Nat.eqb_neq. intros E.
        destruct F as (N & _). cbn in N.
        assert (u = t) by (apply (unique_task ts); auto). congruence. }
    unfold settle. rewrite Ec. generalize dependent (drop_task (tid t) s).
    intros s1 H1. destruct (audioQueue s1) as [|text rest].
    + apply (pending_core p s1); [destruct s1; reflexivity | exact H1].
    + apply pending_synthesizeAndPlay.
      apply (pending_core p s1); [destruct s1; reflexivity | exact H1].
  - destruct (Nat.eq_dec p q) as [->|Hpq].
    + left. apply settle_resolves, Ec.
    + destruct H as [H|(u & Hu & Hc)].
      * left. unfold settle. rewrite Ec.
        destruct s as [en ca qu ip csr sa ts ni rs so pl]. cbn. right. exact H.
      * right. exists u. split; [|exact Hc]. unfold settle. rewrite Ec.
        destruct s as [en ca qu ip csr sa ts ni rs so pl]. cbn in *.
        apply filter_In. split; [exact Hu|].
        apply negb_true_iff, Nat.eqb_neq. intros E.
        destruct F as (N & _). cbn in N.
        assert (u = t) by (apply (unique_task ts); auto). congruence.
Qed.

Lemma fresh_set_pc i v s : fresh_ids s -> fresh_ids (set_pc i v s).
Proof.
  destruct s as [en ca qu ip csr sa ts ni rs so pl].
  unfold fresh_ids, set_pc. cbn. intros (N & T & C & R & S).
  assert (E : map tid (map (fun t => if Nat.eqb (tid t) i
                 then {| tid := tid t; ttext := ttext t; pc := v;
                         caller := caller t |} else t) ts) = map tid ts).
  { rewrite map_map. apply map_ext. intros t. destruct (Nat.eqb (tid t) i);
      reflexivity. }
  repeat split; auto.
  - rewrite E. exact N.
  - intros t H. apply in_map_iff in H. destruct H as (u & <- & Hu).
    apply T in Hu. destruct (Nat.eqb (tid u) i); exact Hu.
  - intros t q H. apply in_map_iff in H. destruct H as (u & <- & Hu).
    intros Hq. apply (C u q Hu). destruct (Nat.eqb (tid u) i); exact Hq.
Qed.

Lemma pending_set_pc p i v s :
  pending_or_resolved p s -> pending_or_resolved p (set_pc i v s).
Proof.
  destruct s as [en ca qu ip csr sa ts ni rs so pl].
  unfold pending_or_resolved, set_pc. cbn.
  intros [H|(t & Ht & Hc)]; [left; exact H|]. right.
  eexists. split; [apply in_map, Ht|]. destruct (Nat.eqb (tid t) i); exact Hc.
Qed.

(** A state that differs from [s] outside [core] inherits what is known
    of [s]. *)
Ltac cosmetic s :=
  match goal with
  | |- fresh_ids _ =>
    apply (fresh_ids_core s); [destruct s; reflexivity | assumption]
  | |- pending_or_resolved _ _ =>
    apply (pending_core _ s); [destruct s; reflexivity | assumption]
  | |- In _ (tasks _) => destruct s; assumption
  end.

Ltac settled s :=
  first [ apply fresh_settle | apply pending_settle ]; try cosmetic s;
  try assumption.

Lemma on_event_keeps ev p s :
  fresh_ids s ->
  fresh_ids (on_event ev s) /\
  (pending_or_resolved p s -> pending_or_resolved p (on_event ev s)).
Proof.
  intros F. destruct ev as [i|i ok|i|i data|i|i|i]; unfold on_event;
    cbn zeta;
    match goal with
    | |- context [waiting ?i ?a s] =>
      destruct (waiting i a s) as [t|] eqn:W;
      [apply waiting_in in W; destruct W as (Ht & _)
      | try solve [split; auto]]
    end.
  - split; [|intros P]; settled s.
  - destruct (synthesisAborted s); [split; [|intros P]; settled s|].
    destruct (negb ok); [split; [|intros P]; settled s|].
    split; [apply fresh_set_pc, F | apply pending_set_pc].
  - split; [|intros P]; settled s.
  - destruct (missing data || synthesisAborted s);
      [split; [|intros P]; settled s|].
    destruct (negb (decodable data)); [split; [|intros P]; settled s|].
    destruct (synthesisAborted s); [split; [|intros P]; settled s|].
    split; [|intros P].
    + apply fresh_set_pc. cosmetic s.
    + apply pending_set_pc. cosmetic s.
  - destruct (existsb (Nat.eqb i) (sounding s)); [|split; auto].
    split; [|intros P]; settled s.
  - split; [|intros P]; settled s.
  - destruct (existsb _ (played s)); [|split; auto].
    split; [|intros P]; cosmetic s.
  - split; [|intros P]; settled s.
Qed.

Section WithKey.

Variable key : option jsstr.

Lemma speakAndWait_promise text s : fst (speakAndWait key text s) = nextId s.
Proof.
  unfold speakAndWait.
  repeat match goal with |- context [if ?b then _ else _] => destruct b end;
    reflexivity.
Qed.

Lemma processQueue_keeps p s :
  fresh_ids s ->
  fresh_ids (processQueue s) /\
  (pending_or_resolved p s -> pending_or_resolved p (processQueue s)).
Proof.
  intros F. unfold processQueue. destruct (isPlaying s); [split; auto|].
  destruct (audioQueue s) as [|text rest]; [split; auto|]. split; [|intros P].
  - apply fresh_synthesizeAndPlay; [cosmetic s | discriminate].
  - apply pending_synthesizeAndPlay. cosmetic s.
Qed.

Lemma speak_keeps p text s :
  fresh_ids s ->
  fresh_ids (speak key text s) /\
  (pending_or_resolved p s -> pending_or_resolved p (speak key text s)).
Proof.
  intros F. unfold speak.
  destruct (negb (ttsEnabled s) || negb (hasKey key) || negb (truthy text));
    [split; auto|].
  destruct (negb (truthy (clean text)) || (len (clean text) <? 3));
    [split; auto|].
  match goal with |- context [isPlaying ?s1] =>
    assert (F1 : fresh_ids s1) by cosmetic s;
    assert (P1 : pending_or_resolved p s -> pending_or_resolved p s1)
      by (intros P; cosmetic s);
    generalize dependent s1 end.
  intros s1 F1 P1. destruct (isPlaying s1); [split; auto|].
  destruct (processQueue_keeps p s1 F1). split; auto.
Qed.

Lemma stopSpeaking_keeps p s :
  fresh_ids s ->
  fresh_ids (stopSpeaking s) /\
  (pending_or_resolved p s -> pending_or_resolved p (stopSpeaking s)).
Proof.
  intros F. split; [|intros P].
  - apply (fresh_ids_core s); [apply core_stopSpeaking | exact F].
  - apply (pending_core p s); [apply core_stopSpeaking | exact P].
Qed.

Lemma fresh_bump s : fresh_ids s -> fresh_ids (set_nextId (S (nextId s)) s).
Proof.
  destruct s as [en ca qu ip csr sa ts ni rs so pl].
  unfold fresh_ids. cbn. intros (N & T & C & R & S).
  repeat split; auto.
  - intros t H. apply T in H. lia.
  - intros t q H Hq. apply (C t q H) in Hq. lia.
  - intros q H. apply R in H. lia.
  - intros q H. apply S in H. lia.
Qed.

Lemma fresh_resolve p s :
  fresh_ids s -> (p < nextId s)%nat -> fresh_ids (resolve p s).
Proof.
  destruct s as [en ca qu ip csr sa ts ni rs so pl].
  unfold fresh_ids, resolve. cbn. intros (N & T & C & R & S) Hp.
  repeat split; auto. intros q [<-|H]; auto.
Qed.

Lemma pending_resolve p q s :
  pending_or_resolved p s -> pending_or_resolved p (resolve q s).
Proof.
  destruct s as [en ca qu ip csr sa ts ni rs so pl].
  unfold pending_or_resolved, resolve. cbn. intros [H|H]; auto.
Qed.

Lemma resolve_resolved p s : In p (resolved (resolve p s)).
Proof. destruct s. cbn. left. reflexivity. Qed.

Lemma fresh_set_resolve p s :
  fresh_ids s -> (p < nextId s)%nat ->
  fresh_ids (set_currentSpeakResolve (Some p) s).
Proof.
  destruct s as [en ca qu ip csr sa ts ni rs so pl].
  unfold fresh_ids. cbn. intros (N & T & C & R & S) Hp.
  repeat split; auto. intros q E. injection E as <-. exact Hp.
Qed.

Lemma nextId_bump s : nextId (set_nextId (S (nextId s)) s) = S (nextId s).
Proof. destruct s; reflexivity. Qed.

Lemma speakAndWait_keeps q text s :
  fresh_ids s ->
  fresh_ids (snd (speakAndWait key text s)) /\
  (pending_or_resolved q s ->
   pending_or_resolved q (snd (speakAndWait key text s))).
Proof.
  intros F. unfold speakAndWait.
  pose proof (fresh_bump s F) as F1. pose proof (nextId_bump s) as N1.
  assert (P1 : pending_or_resolved q s ->
               pending_or_resolved q (set_nextId (S (nextId s)) s))
    by (destruct s; intros P; exact P).
  generalize dependent (set_nextId (S (nextId s)) s). intros s1 F1 N1 P1.
  assert (Hp : (nextId s < nextId s1)%nat) by lia.
  destruct (negb (ttsEnabled s1) || negb (hasKey key) || negb (truthy text));
    cbn [snd].
  { split; [apply fresh_resolve; assumption|].
    intros P. apply pending_resolve, P1, P. }
  destruct (negb (truthy (clean text)) || (len (clean text) <? 3)); cbn [snd].
  { split; [apply fresh_resolve; assumption|].
    intros P. apply pending_resolve, P1, P. }
  pose proof (fresh_set_resolve (nextId s) s1 F1 Hp) as F2.
  assert (N2 : nextId (stopSpeaking
                 (set_currentSpeakResolve (Some (nextId s)) s1)) = nextId s1).
  { destruct s1 as [? [a|] ? ? ? ? ? ? ? ? ?]; reflexivity. }
  split.
  - apply fresh_synthesizeAndPlay.
    + apply (stopSpeaking_keeps 0). exact F2.
    + intros q' E. injection E as <-. rewrite N2. exact Hp.
  - intros P. apply pending_synthesizeAndPlay.
    apply (stopSpeaking_keeps q); [exact F2|].
    apply (pending_same q s1); [destruct s1; reflexivity ..| apply P1, P].
Qed.

(** The promise that [speakAndWait] returns is resolved at once or is the
    one a suspended call will resolve. *)
Lemma speakAndWait_pending text s :
  pending_or_resolved (fst (speakAndWait key text s))
    (snd (speakAndWait key text s)).
Proof.
  unfold speakAndWait.
  destruct (negb _ || negb (hasKey key) || negb (truthy text)); cbn [fst snd].
  { left. apply resolve_resolved. }
  destruct (negb (truthy (clean text)) || (len (clean text) <? 3));
    cbn [fst snd].
  { left. apply resolve_resolved. }
  right. unfold synthesizeAndPlay.
  match goal with |- context [stopSpeaking ?s1] =>
    generalize (stopSpeaking s1) end.
  intros s1. destruct s1 as [en ca qu ip csr sa ts ni rs so pl]. cbn.
  eexists. split; [apply in_app_iff; right; left; reflexivity | reflexivity].
Qed.

Lemma skipAndProceed_keeps q s :
  fresh_ids s ->
  fresh_ids (skipAndProceed s) /\
  (pending_or_resolved q s -> pending_or_resolved q (skipAndProceed s)).
Proof.
  intros F. unfold skipAndProceed.
  destruct (stopSpeaking_keeps q s F) as [F1 P1].
  generalize dependent (stopSpeaking s). intros s1 F1 P1.
  destruct (currentSpeakResolve s1) as [p|] eqn:E; [|split; auto].
  assert (Hp : (p < nextId s1)%nat) by (apply F1, E).
  split.
  - apply fresh_resolve.
    + destruct s1 as [en ca qu ip csr sa ts ni rs so pl].
      unfold fresh_ids in *. cbn in *. destruct F1 as (N & T & C & R & S).
      repeat split; auto. discriminate.
    + destruct s1; exact Hp.
  - intros P. apply pending_resolve.
    apply (pending_same q s1); [destruct s1; reflexivity ..| apply P1, P].
Qed.

Lemma toggleTTS_keeps q s :
  fresh_ids s ->
  fresh_ids (snd (toggleTTS s)) /\
  (pending_or_resolved q s -> pending_or_resolved q (snd (toggleTTS s))).
Proof.
  intros F. unfold toggleTTS. cbn [snd].
  assert (F1 : fresh_ids (set_ttsEnabled (negb (ttsEnabled s)) s))
    by cosmetic s.
  assert (P1 : pending_or_resolved q s ->
               pending_or_resolved q (set_ttsEnabled (negb (ttsEnabled s)) s))
    by (intros P; cosmetic s).
  generalize dependent (set_ttsEnabled (negb (ttsEnabled s)) s).
  intros s1 F1 P1. destruct (negb (ttsEnabled s1)); [|split; auto].
  destruct (stopSpeaking_keeps q s1 F1). split; auto.
Qed.

Lemma act_keeps q a s :
  fresh_ids s ->
  fresh_ids (act key a s) /\
  (pending_or_resolved q s -> pending_or_resolved q (act key a s)).
Proof.
  intros F. destruct a; simpl.
  - apply speak_keeps, F.
  - apply speakAndWait_keeps, F.
  - apply stopSpeaking_keeps, F.
  - apply skipAndProceed_keeps, F.
  - apply toggleTTS_keeps, F.
  - apply on_event_keeps, F.
Qed.

Lemma run_keeps q l s :
  fresh_ids s ->
  fresh_ids (run key l s) /\
  (pending_or_resolved q s -> pending_or_resolved q (run key l s)).
Proof.
  revert s. induction l as [|a l IH]; intros s F; simpl; [split; auto|].
  destruct (act_keeps q a s F) as [F1 P1].
  destruct (IH _ F1) as [F2 P2]. split; auto.
Qed.

Lemma fresh_initial : fresh_ids initial.
Proof.
  unfold fresh_ids, initial. cbn.
  repeat split; try constructor; intros; try contradiction; discriminate.
Qed.

(** While a suspended call waits, each way it can fail at that point
    settles it. *)
Lemma failure_settles s t p ev :
  fresh_ids s -> In t (tasks s) -> caller t = FromWait p ->
  In ev (failures t) -> In p (resolved (on_event ev s)).
Proof.
  intros F Ht Hc Hev. pose proof (waiting_found s t F Ht) as W.
  unfold failures in Hev.
  destruct (pc t); cbn in Hev;
    repeat (destruct Hev as [<-|Hev]; [|]); try contradiction;
    unfold on_event; rewrite ?W; cbn [negb missing decodable orb];
    repeat match goal with
           | |- context [if ?b then _ else _] => destruct b
           end;
    apply settle_resolves, Hc.
Qed.

End WithKey.

(** The cleaning of a verdict: the tag, the emphasis marks, the markup and
    every ['>'] go; an empty pair of angle brackets is no markup and keeps
    its ['<']. *)
Example clean_example :
  clean (js "[WRONG] **AXIOM** <b>denies</b> > <> access ")
  = js "AXIOM denies  < access".
Proof. vm_compute. reflexivity. Qed.

(** Each kind of failure on a priority item, from the initial state: the
    promise 0 of the call is resolved afterwards. *)
Example speakAndWait_failures_example :
  let key := Some (js "key") in
  let said := CallSpeakAndWait (js "[PUZZLE] access code") in
  Forall (fun events => In 0%nat (resolved (run key (said :: events) initial)))
    [ [Deliver (FetchRejected 1)];
      [Deliver (FetchResolved 1 false)];
      [Deliver (FetchResolved 1 true); Deliver (JsonRejected 1)];
      [Deliver (FetchResolved 1 true); Deliver (JsonResolved 1 Missing)];
      [Deliver (FetchResolved 1 true); Deliver (JsonResolved 1 Undecodable)];
      [Deliver (FetchResolved 1 true); Deliver (JsonResolved 1 Mp3);
       Deliver (AudioError 1)];
      [Deliver (FetchResolved 1 true); Deliver (JsonResolved 1 Mp3);
       Deliver (PlayRejected 1)] ] /\
  ~ In 0%nat (resolved (run key [said; Deliver (FetchResolved 1 true)] initial)).
Proof.
  cbn zeta. split.
  - repeat constructor; vm_compute; auto.
  - vm_compute. intros [].
Qed.

(** C9: take the sequencer after any run, call [speakAndWait] on any text,
    and let anything happen afterwards.  The promise is new, and at every
    such moment either it is already resolved or its synthesis call is
    suspended and every failure possible at the point it waits at (the
    fetch rejects or answers with a non-ok status; the body cannot be
    parsed, holds no audio content or cannot be decoded; the audio element
    reports an error or refuses to play) resolves it. *)
Theorem speakAndWait_resolves_on_failure :
  forall (key : option jsstr) (before after : list Action) (text : jsstr),
    let s0 := run key before initial in
    let p := fst (speakAndWait key text s0) in
    let s := run key after (snd (speakAndWait key text s0)) in
    ~ In p (resolved s0) /\
    (In p (resolved s) \/
     exists t, In t (tasks s) /\ caller t = FromWait p /\
       Forall (fun ev => In p (resolved (on_event ev s))) (failures t)).
Proof.
  intros key before after text s0 p s.
  assert (F0 : fresh_ids s0) by (apply (run_keeps key 0), fresh_initial).
  assert (Ep : p = nextId s0) by apply speakAndWait_promise.
  split.
  - intros H. apply F0 in H. lia.
  - destruct (speakAndWait_keeps key p text s0 F0) as [F1 _].
    destruct (run_keeps key p after _ F1) as [F P].
    specialize (P (speakAndWait_pending key text s0)).
    fold s in F, P. destruct P as [P|(t & Ht & Hc)]; [left; exact P|].
    right. exists t. split; [exact Ht|]. split; [exact Hc|].
    apply Forall_forall. intros ev Hev.
    apply (failure_settles s t p ev F Ht Hc Hev).
Qed.

(** C7, the code at the failing input: a queued item is being synthesized,
    [stopSpeaking] is called and a new item is queued at once.  The new
    [speak] clears the abort flag, so when the fetch of the stopped item
    answers, its audio starts; then the audio of the new item starts too and
    both sound together.  Without the new submission the stopped item stays
    silent. *)
Theorem stop_then_speak_leaks_prior_audio :
  let key := Some (js "key") in
  let first := js "first message" in
  let second := js "second message" in
  let stopped := run key [CallSpeak first; CallStopSpeaking] initial in
  let resumed := run key [CallSpeak second] stopped in
  let answers := [Deliver (FetchResolved 0 true); Deliver (JsonResolved 0 Mp3);
                  Deliver (FetchResolved 1 true); Deliver (JsonResolved 1 Mp3)] in
  synthesisAborted stopped = true /\
  played (run key answers stopped) = [] /\
  synthesisAborted resumed = false /\
  played (run key answers resumed) = [(0%nat, first); (1%nat, second)] /\
  sounding (run key answers resumed) = [1%nat; 0%nat].
Proof. vm_compute. repeat split; reflexivity. Qed.

End TtsProps.

(** ** Properties of the orchestrator *)

Module OrchestratorProps.

Import Engine Orchestrator Fixtures JSProps.

Ltac fields :=
  cbn [fst snd game engine log currentStage hintLevel totalHintsUsed
       elapsedSeconds isProcessing gameStarted] in *.

Ltac flow :=
  unfold addSystemMessage, obind, oret, does, update, call, state,
    call_dropping_extra, set_currentStage, set_hintLevel, set_totalHintsUsed,
    set_isProcessing in *;
  fields.

(** Name the result of each call into the engine. *)
Ltac engine_calls :=
  repeat match goal with
         | |- context [Exports.generatePuzzle ?e ?a ?s] =>
           destruct (Exports.generatePuzzle e a s)
         | |- context [Exports.evaluateAnswer ?e ?a ?s] =>
           destruct (Exports.evaluateAnswer e a s)
         | |- context [Exports.requestHint ?e ?a ?s] =>
           destruct (Exports.requestHint e a s)
         | |- context [Exports.generateNarration ?e ?a ?b ?s] =>
           destruct (Exports.generateNarration e a b s)
         | |- context [Exports.generateEndingStory ?e ?a ?b ?c ?s] =>
           destruct (Exports.generateEndingStory e a b c s)
         end;
  fields.

Lemma loadStage_game env st w :
  game (snd (loadStage env st w)) = set_hintLevel 0 (game w).
Proof. unfold loadStage. flow. engine_calls. reflexivity. Qed.

Lemma endGame_game env STAGES w : game (snd (endGame env STAGES w)) = game w.
Proof. unfold endGame. flow. engine_calls. reflexivity. Qed.

Lemma advanceStage_currentStage env STAGES w :
  currentStage (game (snd (advanceStage env STAGES w)))
  = S (currentStage (game w)).
Proof.
  unfold advanceStage. flow. engine_calls.
  destruct (List.length STAGES <=? S (currentStage (game w)))%nat.
  - rewrite endGame_game. reflexivity.
  - destruct (nth_error STAGES _) as [prevStage|]; [|reflexivity].
    destruct (nth_error STAGES _) as [nextStage|]; [|reflexivity].
    flow. engine_calls. rewrite loadStage_game. reflexivity.
Qed.

Definition extends (w w' : World) : Prop :=
  exists more, log w' = log w ++ more.

Lemma extends_refl w : extends w w.
Proof. exists []. symmetry. apply app_nil_r. Qed.

Lemma extends_trans w1 w2 w3 : extends w1 w2 -> extends w2 w3 -> extends w1 w3.
Proof.
  intros [m1 E1] [m2 E2]. exists (m1 ++ m2). rewrite E2, E1.
  symmetry. apply app_assoc.
Qed.

Lemma extends_bind {A B} (m : O A) (k : A -> O B) w :
  extends w (snd (m w)) -> (forall a w1, extends w1 (snd (k a w1))) ->
  extends w (snd (obind m k w)).
Proof.
  intros Hm Hk. unfold obind. destruct (m w) as [a w1]. cbn [snd] in Hm.
  apply (extends_trans _ w1); [exact Hm | apply Hk].
Qed.

Lemma extends_does st w : extends w (snd (does st w)).
Proof. exists [st]. reflexivity. Qed.

Lemma extends_update f w : extends w (snd (update f w)).
Proof. exists []. symmetry. apply app_nil_r. Qed.

Lemma extends_state w : extends w (snd (state w)).
Proof. apply extends_refl. Qed.

Lemma extends_call {A} (m : Engine.M A) w : extends w (snd (call m w)).
Proof.
  unfold call. destruct (m (engine w)). exists []. symmetry. apply app_nil_r.
Qed.

Lemma extends_oret {A} (a : A) w : extends w (snd (oret a w)).
Proof. apply extends_refl. Qed.

Ltac log_grows :=
  repeat (first [ apply extends_bind; [|intros ? ?]
                | apply extends_does | apply extends_update
                | apply extends_state | apply extends_call
                | apply extends_oret ]).

Lemma loadStage_log env st w : extends w (snd (loadStage env st w)).
Proof. unfold loadStage. log_grows. Qed.

Lemma endGame_log env STAGES w : extends w (snd (endGame env STAGES w)).
Proof. unfold endGame. log_grows. Qed.

Lemma advanceStage_log env STAGES w :
  extends w (snd (advanceStage env STAGES w)).
Proof.
  unfold advanceStage. log_grows.
  destruct (_ <=? _)%nat; [apply endGame_log|].
  destruct (nth_error STAGES _); [|apply extends_refl].
  destruct (nth_error STAGES _); [|apply extends_refl].
  unfold addSystemMessage. log_grows.
Qed.

Lemma classifiedCorrect_includes response :
  classifiedCorrect response = includes response CORRECT.
Proof.
  unfold classifiedCorrect.
  destruct (startsWith response CORRECT) eqn:E; [|reflexivity].
  symmetry. apply startsWith_includes, E.
Qed.

(** The handler on an ordinary answer: the state in which the response
    arrives, and the two ways on from there. *)
Definition evaluated (answer : jsstr) (e : St) (w : World) : World :=
  {| game := set_isProcessing true (game w);
     engine := e;
     log := log w ++ [DisableSend true; ClearInput; AddMessage answer user;
                      AddTypingIndicator; RemoveTypingIndicator] |}.

Definition granted (response : jsstr) (w : World) : World :=
  {| game := set_isProcessing false (game w);
     engine := engine w;
     log := log w ++ [PlaySound correct; AppendAiMessage response;
                      AwaitSpeakAndWait response;
                      AddMessage (js "ACCESS GRANTED -- SECTOR UNLOCKED") system;
                      DisableSend false] |}.

Definition denied (response : jsstr) (w : World) : World :=
  {| game := set_isProcessing false (game w);
     engine := engine w;
     log := log w ++ [PlaySound wrong; AddMessage response ai;
                      DisableSend false] |}.

Lemma onSendAnswer_ordinary env STAGES input w :
  truthy (trim input) = true ->
  isProcessing (game w) = false ->
  eqb (trim input) (js "/skip") = false ->
  eqb (trim input) (js "/end") = false ->
  onSendAnswer env STAGES input w =
  let r := Exports.evaluateAnswer env (trim input) (engine w) in
  let w1 := evaluated (trim input) (snd r) w in
  if includes (fst r) CORRECT
  then advanceStage env STAGES (granted (fst r) w1)
  else (tt, denied (fst r) w1).
Proof.
  intros Ha Hp Hs He. unfold onSendAnswer.
  unfold obind at 1. unfold state at 1.
  rewrite Ha, Hp, Hs, He. cbn [negb orb].
  cbn zeta. flow.
  destruct (Exports.evaluateAnswer env (trim input) (engine w)) as [r e].
  fields. rewrite classifiedCorrect_includes.
  destruct (includes r CORRECT); repeat f_equal;
    unfold granted, denied, evaluated, set_isProcessing; fields;
    repeat rewrite <- app_assoc; reflexivity.
Qed.

(** C4, as the code has it: an answer that is not empty, not a reserved
    command and not submitted while another is processed is classified
    correct, and the stage advances, exactly when the response contains the
    [CORRECT] tag anywhere.  Then the handler is the stage transition run
    from the world [spoken]: the world in which the response has been
    displayed and awaited as speech, the unlock message shown and the send
    button enabled, with the stage index still where it was.  So the stage
    index moves, and every step of the transition is taken, after the
    speech has been awaited.  Otherwise the response is displayed, the
    stage index stays and the processing flag is cleared, so the game
    awaits the next answer. *)
Theorem onSendAnswer_classification :
  forall (env : Env) (STAGES : list Stage) (input : jsstr) (w : World),
    let answer := trim input in
    let verdict := Exports.evaluateAnswer env answer (engine w) in
    let response := fst verdict in
    let w' := snd (onSendAnswer env STAGES input w) in
    let spoken :=
      {| game := set_isProcessing false (game w);
         engine := snd verdict;
         log := log w ++
           [DisableSend true; ClearInput; AddMessage answer user;
            AddTypingIndicator; RemoveTypingIndicator;
            PlaySound correct; AppendAiMessage response;
            AwaitSpeakAndWait response;
            AddMessage (js "ACCESS GRANTED -- SECTOR UNLOCKED") system;
            DisableSend false] |} in
    truthy answer = true ->
    isProcessing (game w) = false ->
    eqb answer (js "/skip") = false ->
    eqb answer (js "/end") = false ->
    (includes response CORRECT = true ->
     onSendAnswer env STAGES input w = advanceStage env STAGES spoken /\
     currentStage (game spoken) = currentStage (game w) /\
     currentStage (game w') = S (currentStage (game w)) /\
     (exists more, log w' = log spoken ++ more) /\
     In (AwaitSpeakAndWait response) (log w')) /\
    (includes response CORRECT = false ->
     currentStage (game w') = currentStage (game w) /\
     isProcessing (game w') = false /\
     log w' = log w ++
       [DisableSend true; ClearInput; AddMessage answer user;
        AddTypingIndicator; RemoveTypingIndicator;
        PlaySound wrong; AddMessage response ai; DisableSend false]).
Proof.
  intros env STAGES input w answer verdict response w' spoken Ha Hp Hs He.
  subst w'. rewrite (onSendAnswer_ordinary env STAGES input w Ha Hp Hs He).
  cbn zeta. fold answer. fold verdict. fold response.
  split; intros H; rewrite H.
  - assert (E : granted response (evaluated answer (snd verdict) w) = spoken).
    { unfold granted, evaluated, spoken, set_isProcessing. fields.
      rewrite <- app_assoc. reflexivity. }
    rewrite E.
    destruct (advanceStage_log env STAGES spoken) as [more L].
    split; [reflexivity|]. split; [reflexivity|].
    split; [rewrite advanceStage_currentStage; reflexivity|].
    split; [exists more; exact L|].
    rewrite L. apply in_app_iff. left. unfold spoken. cbn [log].
    apply in_app_iff. right. cbn. auto 10.
  - cbn [snd denied evaluated game log set_isProcessing currentStage
         isProcessing].
    rewrite <- app_assoc. repeat split; reflexivity.
Qed.

(** C4, counterexample to the claim as stated: the first token of the
    response is the [WRONG] tag and the [CORRECT] tag stands later in the
    text; the handler advances the stage and never displays the response as
    a wrong answer. *)
Lemma wrong_first_token_still_advances :
  let env := cloudOnly (fun _ =>
               Resolves (reply (js "[WRONG] [CORRECT]と言える回答ではない。"))) in
  let w := {| game := {| currentStage := 0; hintLevel := 0;
                         totalHintsUsed := 0; elapsedSeconds := 42;
                         isProcessing := false; gameStarted := true |};
              engine := session env [] (fresh true);
              log := [] |} in
  let input := js "スカイツリー" in
  let response := fst (Exports.evaluateAnswer env (trim input) (engine w)) in
  let w' := snd (onSendAnswer env [tower; ginza] input w) in
  startsWith response WRONG = true /\
  startsWith response CORRECT = false /\
  currentStage (game w') = S (currentStage (game w)) /\
  ~ In (AddMessage response ai) (log w').
Proof.
  vm_compute. repeat split; try reflexivity.
  intros H. repeat (destruct H as [H|H]; [discriminate H|]). exact H.
Qed.

Lemma onSendAnswer_classification_witness :
  let g := {| currentStage := 0; hintLevel := 0;
              totalHintsUsed := 0; elapsedSeconds := 42;
              isProcessing := false; gameStarted := true |} in
  let input := js " スカイツリー " in
  (let env := cloudOnly (fun _ => Resolves (reply (js "[WRONG] 不正解だ。"))) in
   let w := {| game := g; engine := session env [] (fresh true); log := [] |} in
   let response := js "[WRONG] 不正解だ。" in
   let w' := snd (onSendAnswer env [tower; ginza] input w) in
   currentStage (game w') = 0%nat /\
   isProcessing (game w') = false /\
   log w' = [DisableSend true; ClearInput; AddMessage (js "スカイツリー") user;
             AddTypingIndicator; RemoveTypingIndicator;
             PlaySound wrong; AddMessage response ai; DisableSend false]) /\
  (let env := cloudOnly (fun _ => Resolves (reply (js "[CORRECT] 正解だ。"))) in
   let w := {| game := g; engine := session env [] (fresh true); log := [] |} in
   let response := js "[CORRECT] 正解だ。" in
   let w' := snd (onSendAnswer env [tower; ginza] input w) in
   currentStage (game w') = 1%nat /\
   exists more,
     log w' = [DisableSend true; ClearInput; AddMessage (js "スカイツリー") user;
               AddTypingIndicator; RemoveTypingIndicator;
               PlaySound correct; AppendAiMessage response;
               AwaitSpeakAndWait response;
               AddMessage (js "ACCESS GRANTED -- SECTOR UNLOCKED") system;
               DisableSend false] ++ more).
Proof.
  cbn zeta. split.
  - match goal with |- context [onSendAnswer ?env ?st ?i ?w] =>
      pose proof (onSendAnswer_classification env st i w) as H end.
    cbn zeta in H.
    assert (H1 := H ltac:(vm_compute; reflexivity) ltac:(vm_compute; reflexivity)
                    ltac:(vm_compute; reflexivity) ltac:(vm_compute; reflexivity)).
    destruct H1 as [_ H1]. specialize (H1 ltac:(vm_compute; reflexivity)).
    vm_compute in H1. vm_compute. exact H1.
  - match goal with |- context [onSendAnswer ?env ?st ?i ?w] =>
      pose proof (onSendAnswer_classification env st i w) as H end.
    cbn zeta in H.
    assert (H1 := H ltac:(vm_compute; reflexivity) ltac:(vm_compute; reflexivity)
                    ltac:(vm_compute; reflexivity) ltac:(vm_compute; reflexivity)).
    destruct H1 as [H1 _]. specialize (H1 ltac:(vm_compute; reflexivity)).
    destruct H1 as (_ & _ & H2 & (more & H3) & _).
    split; [exact H2|]. exists more. rewrite H3. f_equal.
Defined.

(** *** The narration request *)

(** The prompt of [generateNarration] does not read [elapsedTime]. *)
Lemma narrationPrompt_ignores_elapsedTime e f t hints time time' :
  narrationPrompt e f t {| hintsUsed := hints; elapsedTime := time |}
  = narrationPrompt e f t {| hintsUsed := hints; elapsedTime := time' |}.
Proof. unfold narrationPrompt, hintsUsed_or_0. cbn [hintsUsed]. reflexivity. Qed.

Lemma loadStage_engine env st w :
  engine (snd (loadStage env st w))
  = snd (Exports.generatePuzzle env st (engine w)).
Proof. unfold loadStage. flow. engine_calls. reflexivity. Qed.

(** Whatever the hint count and the elapsed time of the game are, a stage
    transition makes the same calls to the engine. *)
Lemma advanceStage_engine_ignores_stats env STAGES g eng0 l hints time :
  (S (currentStage g) < List.length STAGES)%nat ->
  let g' := {| currentStage := currentStage g; hintLevel := hintLevel g;
               totalHintsUsed := hints; elapsedSeconds := time;
               isProcessing := isProcessing g;
               gameStarted := gameStarted g |} in
  engine (snd (advanceStage env STAGES
                 {| game := g'; engine := eng0; log := l |}))
  = engine (snd (advanceStage env STAGES
                   {| game := g; engine := eng0; log := l |})).
Proof.
  intros Hlt g'. subst g'. unfold advanceStage. flow.
  destruct (Nat.leb_spec (List.length STAGES) (S (currentStage g))); [lia|].
  destruct (nth_error STAGES _) as [prevStage|]; [|reflexivity].
  destruct (nth_error STAGES _) as [nextStage|]; [|reflexivity].
  flow. engine_calls. rewrite !loadStage_engine. reflexivity.
Qed.

(** C8, the code at the failing input: the player has used 3 hints and
    played 125 seconds when the first stage is cleared.  [advanceStage]
    builds the stats object, but the proxy export takes two parameters, so
    the engine composes the prompt from an empty stats object: the prompt
    sent reports 0 hints.  Called with the stats, the method would have
    reported 3. *)
Theorem narration_prompt_drops_stats :
  let env := cloudOnly (fun _ =>
               Resolves (reply (js "[AXIOM] 次のセクターへ進め、ランナー。"))) in
  let g := {| currentStage := 0; hintLevel := 2; totalHintsUsed := 3;
              elapsedSeconds := 125; isProcessing := false;
              gameStarted := true |} in
  let w := {| game := g; engine := session env [] (fresh true); log := [] |} in
  let w' := snd (advanceStage env [tower; ginza] w) in
  let e := eng (engine w) in
  let sent := narrationPrompt e tower ginza Exports.noStats in
  let intended := narrationPrompt e tower ginza (statsOf g) in
  trace (engine w') =
    [StartChat _getSystemPrompt; CloudSend sent;
     CloudSend (puzzlePrompt ginza [])] /\
  includes sent (js "ヒント使用: 0回") = true /\
  includes intended (js "ヒント使用: 3回") = true /\
  sent <> intended.
Proof.
  vm_compute. repeat split; try reflexivity. discriminate.
Qed.

End OrchestratorProps.

(** * Further properties *)

(** ** The engine: replies, call budgets and fallback chains *)

Module EngineMore.

Import Engine Fixtures JSProps EngineProps.

(** The parts of the first candidate of a reply, when the reply has one. *)
Definition firstParts (r : option Response) : option (list Part) :=
  match r with
  | Some {| candidates := Some (c :: _) |} =>
    match content c with
    | Some ct => parts ct
    | None => None
    end
  | _ => None
  end.

Lemma join_nonempty sep (l : list jsstr) :
  l <> [] -> (forall x, In x l -> x <> []) -> join sep l <> [].
Proof.
  destruct l as [|x l]; [congruence|]. intros _ H.
  assert (Hx : x <> []) by (apply H; left; reflexivity).
  simpl. destruct l; [exact Hx|]. destruct x; [congruence|discriminate].
Qed.

Lemma has_text_nonempty p : has_text p = true -> text_of p <> [].
Proof.
  unfold has_text, text_of. destruct (text p) as [[|c t]|]; simpl;
    intros H; try discriminate H. discriminate.
Qed.

(** X1: the text extracted from a cloud reply is empty exactly when no part
    of the reply's first candidate carries text; a missing reply, an empty
    candidate list, a candidate without content and content without parts
    all give the empty text. *)
Theorem extractResponseText_empty_iff (r : option Response) :
  _extractResponseText r = [] <->
  (forall ps, firstParts r = Some ps -> forall p, In p ps -> has_text p = false).
Proof.
  unfold _extractResponseText, firstParts.
  destruct r as [[[[|[[[[ps|]]|]] cs]|]]|]; cbn [candidates content parts];
    try (split; [intros _ ps' H; discriminate H | reflexivity]).
  split.
  - intros E qs Hq p Hp. injection Hq as <-.
    destruct (has_text p) eqn:Ht; [exfalso|reflexivity].
    destruct (filter (fun p => has_text p && negb (thought p)) ps) as [|q qs] eqn:F.
    + destruct (find has_text ps) as [a|] eqn:Fd.
      * apply find_some in Fd. apply (has_text_nonempty a); [apply Fd | exact E].
      * apply (find_none _ _ Fd) in Hp. congruence.
    + revert E. apply join_nonempty; [discriminate|].
      intros x Hx. apply in_map_iff in Hx. destruct Hx as (y & <- & Hy).
      rewrite <- F in Hy. apply filter_In in Hy. destruct Hy as [_ Hy].
      apply andb_true_iff in Hy. apply has_text_nonempty, Hy.
  - intros H. specialize (H ps eq_refl).
    assert (F : filter (fun p => has_text p && negb (thought p)) ps = []).
    { clear -H. induction ps as [|p ps IH]; [reflexivity|]. simpl.
      rewrite (H p (or_introl eq_refl)). simpl. apply IH.
      intros q Hq. apply H. right. exact Hq. }
    rewrite F. destruct (find has_text ps) as [a|] eqn:Fd; [|reflexivity].
    apply find_some in Fd. destruct Fd as [Ha Ht]. rewrite (H a Ha) in Ht.
    discriminate Ht.
Qed.

(** *** What one call may cost *)

Definition isCloudSend (e : Effect) : bool :=
  match e with CloudSend _ => true | _ => false end.
Definition isEdgePrompt (e : Effect) : bool :=
  match e with EdgePrompt _ => true | _ => false end.

(** The milliseconds spent in [setTimeout] pauses. *)
Fixpoint slept (l : list Effect) : Z :=
  match l with
  | [] => 0
  | Sleep ms :: r => ms + slept r
  | _ :: r => slept r
  end.

Ltac traced :=
  eexists; split;
  [ repeat rewrite <- app_assoc; try reflexivity;
    symmetry; apply app_nil_r
  | cbn; repeat split; lia ].

(** X2: one [evaluateAnswer] call prompts the edge model at most once, sends
    to the cloud at most twice, pauses for at most 500ms in all, and does
    nothing else to the outside world. *)
Theorem evaluateAnswer_budget (env : Env) (answer : jsstr) (s : St) :
  let s' := snd (evaluateAnswer env answer s) in
  exists made,
    trace s' = trace s ++ made /\
    ((List.length (filter isEdgePrompt made) <= 1)%nat /\
     (List.length (filter isCloudSend made) <= 2)%nat /\
     slept made <= 500 /\
     (List.length made <= 4)%nat /\
     (tick s' <= tick s + 3)%nat).
Proof.
  cbn zeta. unfold evaluateAnswer, cloudAttempts. monad.
  change (0 =? 0) with true. change (1 =? 0) with false. cbn iota.
  branches; traced.
Qed.

(** X3: [requestHint] never touches the engine's fields.  Without a chat
    session it answers the offline message and calls nothing; when the cloud
    call rejects it returns what the edge model answers to the same prompt,
    and the hint-unavailable message when there is no edge session or its
    call rejects too.  Both fixed messages carry the [HINT] tag. *)
Theorem requestHint_chain (env : Env) (hintLevel : Z) (s : St) :
  let r := requestHint env hintLevel s in
  let p := hintPrompt hintLevel in
  eng (snd r) = eng s /\
  (chatSession (eng s) = false -> r = (HINT_OFFLINE, s)) /\
  (chatSession (eng s) = true ->
   sendMessage env (tick s) p = Rejects ->
   fst r = (if localAiSession (eng s)
            then match prompt env (S (tick s)) p with
                 | Resolves t => t
                 | Rejects => HINT_FAILED
                 end
            else HINT_FAILED)) /\
  startsWith HINT_OFFLINE (js "[HINT]") = true /\
  startsWith HINT_FAILED (js "[HINT]") = true.
Proof.
  cbn zeta. split; [apply requestHint_engine|].
  split; [|split; [|split; vm_compute; reflexivity]].
  - intros H. unfold requestHint. monad. rewrite H. reflexivity.
  - intros H R. unfold requestHint. monad. rewrite H. cbn [negb].
    cbn [fst snd eng tick trace]. rewrite H. cbn [fst snd eng tick trace].
    rewrite R.
    destruct (localAiSession (eng s)); cbn [fst snd eng tick trace];
      [destruct (prompt env (S (tick s)) (hintPrompt hintLevel))|];
      reflexivity.
Qed.

Lemma requestHint_chain_witness :
  requestHint cloudDown 2 (fresh false) = (HINT_OFFLINE, fresh false) /\
  fst (requestHint cloudDown 2 (session cloudDown [] (fresh true)))
  = HINT_FAILED.
Proof.
  split.
  - apply (requestHint_chain cloudDown 2 (fresh false)). reflexivity.
  - assert (A : chatSession (eng (session cloudDown [] (fresh true))) = true)
      by (lazy; reflexivity).
    assert (B : sendMessage cloudDown (tick (session cloudDown [] (fresh true)))
                  (hintPrompt 2) = Rejects) by reflexivity.
    pose proof (proj1 (proj2 (proj2 (requestHint_chain cloudDown 2
                  (session cloudDown [] (fresh true))))) A B) as H.
    cbn zeta in H.
    replace (localAiSession (eng (session cloudDown [] (fresh true))))
      with false in H by (lazy; reflexivity).
    exact H.
Defined.

(** *** The narration fallback *)

Lemma startsWith_app (x b : jsstr) : startsWith (x ++ b) x = true.
Proof.
  induction x as [|c x IH]; [destruct b; reflexivity|].
  simpl. rewrite N.eqb_refl. exact IH.
Qed.

Lemma includes_app (a x b : jsstr) : includes (a ++ x ++ b) x = true.
Proof.
  induction a as [|c a IH].
  - cbn [app]. apply startsWith_includes. apply startsWith_app.
  - change ((c :: a) ++ x ++ b) with (c :: (a ++ x ++ b)).
    cbn [includes]. rewrite IH. apply orb_true_r.
Qed.

(** X4: when the cloud does not answer, [generateNarration] returns its
    template: a text that opens with the AXIOM tag and names both the stage
    just cleared and the stage ahead. *)
Theorem narration_fallback_names
    (env : Env) (fromStage toStage : Stage) (stats : PlayerStats) (s : St) :
  (forall n p, sendMessage env n p = Rejects) ->
  let r := fst (generateNarration env fromStage toStage stats s) in
  r = narrationFallback fromStage toStage /\
  startsWith r (js "[AXIOM] ") = true /\
  includes r (name fromStage) = true /\
  includes r (name toStage) = true.
Proof.
  intros Hc r.
  assert (E : r = narrationFallback fromStage toStage).
  { subst r. unfold generateNarration. unfold bind at 1.
    destruct (ensure_session env s) as [[] s1]. monad.
    destruct (chatSession (eng s1)); cbn [fst snd eng tick trace];
      rewrite ?Hc; reflexivity. }
  split; [exact E|]. rewrite E. unfold narrationFallback.
  split; [apply startsWith_app|]. split.
  - apply includes_app.
  - rewrite !app_assoc. rewrite <- (app_assoc _ (name toStage)).
    apply includes_app.
Qed.

Lemma narration_fallback_names_witness :
  let r := fst (generateNarration cloudDown tower ginza Exports.noStats
                  (fresh true)) in
  r = narrationFallback tower ginza /\
  startsWith r (js "[AXIOM] ") = true /\
  includes r (name tower) = true /\
  includes r (name ginza) = true.
Proof.
  apply (narration_fallback_names cloudDown tower ginza Exports.noStats
           (fresh true)).
  intros n p. reflexivity.
Defined.

(** *** Who changes the engine *)

Definition asks (c : Call) : bool :=
  match c with
  | CallInit | CallEvaluateAnswer _ => false
  | _ => true
  end.

Lemma ensure_session_ready env s :
  chatSession (eng s) = true -> ensure_session env s = (tt, s).
Proof. intros H. unfold ensure_session, bind, this. rewrite H. reflexivity. Qed.

(** X5: while a chat session exists, generating a puzzle, a hint, a
    narration or an ending leaves every field of the engine as it was: only
    [init] and [evaluateAnswer] move the difficulty counters. *)
Theorem queries_keep_engine (env : Env) (c : Call) (s : St) :
  chatSession (eng s) = true -> asks c = true ->
  eng (perform env c s) = eng s.
Proof.
  intros H A. destruct c; try discriminate A; cbn [perform].
  - rewrite generatePuzzle_engine, ensure_session_ready; auto.
  - apply requestHint_engine.
  - rewrite generateNarration_engine, ensure_session_ready; auto.
  - rewrite generateEndingStory_engine, ensure_session_ready; auto.
Qed.

Lemma queries_keep_engine_witness :
  let s := session flaky [CallEvaluateAnswer (js "a")] (fresh true) in
  eng (perform flaky (CallGeneratePuzzle tower) s) = eng s.
Proof.
  apply (queries_keep_engine flaky (CallGeneratePuzzle tower)
           (session flaky [CallEvaluateAnswer (js "a")] (fresh true)));
    lazy; reflexivity.
Defined.

(** *** An engine without a cloud model *)

Lemma modifier_at_zero e :
  consecutiveWrong e = 0 -> consecutiveCorrect e = 0 ->
  _getDifficultyModifier e = [].
Proof. intros W C. unfold _getDifficultyModifier. rewrite W, C. reflexivity. Qed.

Lemma init_without_cloud env s :
  cloudModel (eng s) = false -> chatSession (eng s) = false ->
  let s1 := snd (init env s) in
  (consecutiveWrong (eng s1) = 0 /\ consecutiveCorrect (eng s1) = 0) /\
  (cloudModel (eng s1) = false /\ chatSession (eng s1) = false) /\
  exists made,
    trace s1 = trace s ++ made /\
    filter isCloudSend made = [] /\
    forall p, ~ In (EdgePrompt p) made.
Proof.
  intros Hm Hc. cbn zeta. unfold init. monad.
  cbn [set_counters cloudModel hybridMode]. rewrite Hm.
  cbn [fst snd eng tick trace set_counters cloudModel hybridMode].
  branches;
    cbn [eng cloudModel chatSession consecutiveWrong consecutiveCorrect
         set_counters set_localAiSession];
    (split; [split; reflexivity|]); (split; [split; assumption|]);
    (eexists; split;
     [ repeat rewrite <- app_assoc; try reflexivity; symmetry; apply app_nil_r
     | split; [reflexivity|];
       cbn; intros p H;
       repeat (destruct H as [H|H]; [discriminate H|]); exact H ]).
Qed.

(** X6: an engine built without an API key never gets a chat session, so
    each [generatePuzzle] call runs [init] again: both difficulty counters
    are back at zero afterwards, nothing is sent to the cloud, and the only
    prompt the edge model can receive is the puzzle prompt without any
    difficulty modifier. *)
Theorem generatePuzzle_without_cloud (env : Env) (st : Stage) (s : St) :
  cloudModel (eng s) = false -> chatSession (eng s) = false ->
  let s' := snd (generatePuzzle env st s) in
  (consecutiveWrong (eng s') = 0 /\ consecutiveCorrect (eng s') = 0) /\
  (cloudModel (eng s') = false /\ chatSession (eng s') = false) /\
  exists made,
    trace s' = trace s ++ made /\
    filter isCloudSend made = [] /\
    forall p, In (EdgePrompt p) made ->
              p = puzzlePrompt st [] +++ PUZZLE_EDGE_SUFFIX.
Proof.
  intros Hm Hc.
  destruct (init_without_cloud env s Hm Hc) as (Z & K & made & T & F & E).
  remember (generatePuzzle env st s) as r eqn:R. cbn zeta.
  unfold generatePuzzle in R. unfold bind at 1 in R.
  unfold ensure_session at 1 in R. unfold bind at 1, this at 1 in R.
  rewrite Hc in R. destruct (init env s) as [[] s1]. cbn [fst snd] in *.
  destruct Z as [Zw Zc], K as [Km Kc]. monad. rewrite Kc in R.
  cbn [fst snd eng tick trace] in R.
  rewrite (modifier_at_zero (eng s1) Zw Zc) in R.
  destruct (localAiSession (eng s1)); cbn [fst snd eng tick trace] in R.
  - destruct (prompt env (tick s1) _) as [t|];
      [destruct (truthy t && (len t >? 10))|]; subst r;
      cbn [fst snd eng tick trace];
      (split; [split; assumption|]); (split; [split; assumption|]);
      (eexists; split; [rewrite T, <- app_assoc; reflexivity|]);
      (split; [rewrite filter_app, F; reflexivity|]);
      intros p H; apply in_app_iff in H;
      (destruct H as [H|[H|[]]]; [destruct (E p H) | injection H as <-; reflexivity]).
  - subst r. cbn [fst snd eng tick trace].
    split; [split; assumption|]. split; [split; assumption|].
    exists made. split; [exact T|]. split; [exact F|].
    intros p H. destruct (E p H).
Qed.

Lemma generatePuzzle_without_cloud_witness :
  let env := edgeOnly (fun _ => Resolves (js "[WRONG] no")) in
  let s := session env [CallEvaluateAnswer (js "a"); CallEvaluateAnswer (js "b")]
             (fresh false) in
  consecutiveWrong (eng s) = 2 /\
  let s' := snd (generatePuzzle env tower s) in
  (consecutiveWrong (eng s') = 0 /\ consecutiveCorrect (eng s') = 0) /\
  (cloudModel (eng s') = false /\ chatSession (eng s') = false) /\
  exists made,
    trace s' = trace s ++ made /\
    filter isCloudSend made = [] /\
    forall p, In (EdgePrompt p) made ->
              p = puzzlePrompt tower [] +++ PUZZLE_EDGE_SUFFIX.
Proof.
  split; [lazy; reflexivity|].
  apply (generatePuzzle_without_cloud
           (edgeOnly (fun _ => Resolves (js "[WRONG] no"))) tower
           (session (edgeOnly (fun _ => Resolves (js "[WRONG] no")))
              [CallEvaluateAnswer (js "a"); CallEvaluateAnswer (js "b")]
              (fresh false)));
    lazy; reflexivity.
Defined.

(** *** Runs of verdicts *)

(** [evaluateAnswer] on each answer in turn: the verdicts returned and the
    state at the end. *)
Fixpoint evaluateEach (env : Env) (answers : list jsstr) (s : St)
    : list jsstr * St :=
  match answers with
  | [] => ([], s)
  | a :: rest =>
    let (v, s1) := evaluateAnswer env a s in
    let (vs, s2) := evaluateEach env rest s1 in
    (v :: vs, s2)
  end.

Definition countedWrong (v : jsstr) : Prop :=
  includes v CORRECT = false /\ v <> CONNECTION_LOST /\ v <> UNSTABLE.

(** X7: a run of answers whose verdicts all contain the correct-marker adds
    its length to [consecutiveCorrect] and leaves [consecutiveWrong] at
    zero; a run whose verdicts all lack the marker, none of them a fixed
    fallback response, adds its length to [consecutiveWrong] and leaves
    [consecutiveCorrect] at zero. *)
Theorem verdict_runs_are_counted (env : Env) (answers : list jsstr) (s : St) :
  let verdicts := fst (evaluateEach env answers s) in
  let s' := snd (evaluateEach env answers s) in
  let n := Z.of_nat (List.length answers) in
  (Forall (fun v => includes v CORRECT = true) verdicts ->
   consecutiveCorrect (eng s') = consecutiveCorrect (eng s) + n /\
   (answers <> [] -> consecutiveWrong (eng s') = 0)) /\
  (Forall countedWrong verdicts ->
   consecutiveWrong (eng s') = consecutiveWrong (eng s) + n /\
   (answers <> [] -> consecutiveCorrect (eng s') = 0)).
Proof.
  cbn zeta. revert s. induction answers as [|a rest IH]; intros s.
  - cbn. split; intros _; (split; [lia | congruence]).
  - cbn [evaluateEach].
    pose proof (evaluateAnswer_cases env a s) as C. cbn zeta in C.
    destruct (evaluateAnswer env a s) as [v s1]. cbn [fst snd] in C.
    specialize (IH s1). destruct (evaluateEach env rest s1) as [vs s2] eqn:Er.
    cbn [fst snd] in *. destruct IH as [IHc IHw].
    change (Z.of_nat (List.length (a :: rest)))
      with (Z.of_nat (S (List.length rest))). rewrite Nat2Z.inj_succ.
    split; intros F; inversion F as [|? ? Hv Hvs]; subst.
    + destruct C as [[[E|E] _]|E];
        try (rewrite E in Hv; vm_compute in Hv; discriminate Hv).
      destruct (IHc Hvs) as [I1 I2]. rewrite E in I1. unfold scored in I1.
      rewrite Hv in I1. cbn in I1. split; [lia|]. intros _.
      destruct rest as [|b rest]; [|apply I2; discriminate].
      cbn in Er. injection Er as <- <-.
      rewrite E. unfold scored. rewrite Hv. reflexivity.
    + destruct Hv as (Hi & H1 & H2).
      destruct C as [[[E|E] _]|E]; try congruence.
      destruct (IHw Hvs) as [I1 I2]. rewrite E in I1. unfold scored in I1.
      rewrite Hi in I1. cbn in I1. split; [lia|]. intros _.
      destruct rest as [|b rest]; [|apply I2; discriminate].
      cbn in Er. injection Er as <- <-.
      rewrite E. unfold scored. rewrite Hi. reflexivity.
Qed.

(** Three wrong verdicts in a row from the cloud: the counter stands at 3
    and the next puzzle is asked for with the strongest easing modifier. *)
Example three_wrong_verdicts_example :
  let env := cloudOnly (fun _ => Resolves (reply (js "[WRONG] 不正解だ。"))) in
  let s := snd (evaluateEach env [js "a"; js "b"; js "c"]
                  (session env [] (fresh true))) in
  consecutiveWrong (eng s) = 3 /\ consecutiveCorrect (eng s) = 0 /\
  trace (snd (generatePuzzle env tower s)) =
    trace s ++ [CloudSend (puzzlePrompt tower (_getDifficultyModifier (eng s)))] /\
  startsWith (_getDifficultyModifier (eng s)) (js "(難易度調整: プレイヤーが苦戦中") = true.
Proof. vm_compute. repeat split; reflexivity. Qed.

(** *** Session set-up *)

Ltac fields_of s :=
  cbn [set_localAiSession set_counters set_chatSession cloudModel hybridMode
       chatSession localAiSession consecutiveWrong consecutiveCorrect] in *.

(** X8: [init] resets both counters; it leaves a chat session behind
    exactly when a cloud model exists or a session was there before; it
    never drops an edge session, and a failing edge set-up costs nothing but
    the attempt.  With hybrid mode off or no edge capability in the browser
    it makes no external call at all, and it never makes more than two. *)
Theorem init_sessions (env : Env) (s : St) :
  let s' := snd (init env s) in
  (consecutiveWrong (eng s') = 0 /\ consecutiveCorrect (eng s') = 0) /\
  chatSession (eng s') = cloudModel (eng s) || chatSession (eng s) /\
  (cloudModel (eng s') = cloudModel (eng s) /\
   hybridMode (eng s') = hybridMode (eng s)) /\
  (localAiSession (eng s) = true -> localAiSession (eng s') = true) /\
  (hybridMode (eng s) && window_ai env = false ->
   tick s' = tick s /\ localAiSession (eng s') = localAiSession (eng s)) /\
  (localAiSession (eng s') = true -> localAiSession (eng s) = false ->
   exists available,
     capabilities env (tick s) = Resolves available /\
     (available = js "readily" \/ available = js "after-download") /\
     create env (S (tick s)) = Resolves tt) /\
  (tick s' <= tick s + 2)%nat.
Proof.
  cbn zeta. unfold init. monad.
  cbn [set_counters cloudModel hybridMode chatSession localAiSession].
  destruct (cloudModel (eng s)) eqn:Hm, (hybridMode (eng s)) eqn:Hh,
    (window_ai env) eqn:Hw;
    cbn [fst snd eng tick trace andb orb set_counters set_chatSession
         cloudModel hybridMode chatSession localAiSession
         consecutiveWrong consecutiveCorrect];
    rewrite ?Hm, ?Hh; cbn [andb];
    try (repeat split; intros; fields_of s; try reflexivity; try lia;
         try assumption; try discriminate; congruence).
  all: destruct (capabilities env (tick s)) as [available|] eqn:Hcap;
    cbn [fst snd eng tick trace];
    [ destruct (eqb available (js "readily")
                || eqb available (js "after-download")) eqn:Hav;
      cbn [fst snd eng tick trace];
      [ destruct (create env (S (tick s))) as [[]|] eqn:Hcr;
        cbn [fst snd eng tick trace] | ] | ];
    repeat split; intros; fields_of s; try reflexivity; try lia;
    try assumption; try discriminate; try congruence.
  all: exists available; split; [reflexivity|]; split; [|reflexivity];
    apply orb_true_iff in Hav; destruct Hav as [Hav|Hav];
    apply eqb_eq in Hav; auto.
Qed.

End EngineMore.

(** ** The speech sequencer: silence, skipping and the queue *)

Module TtsMore.

Import Tts TtsProps.

(** *** After a stop *)

(** Nothing may start: the abort flag is up and the queue is empty. *)
Definition halted (s : State) : Prop :=
  synthesisAborted s = true /\ audioQueue s = [].

Lemma incl_without i l : incl (without i l) l.
Proof. intros x H. apply filter_In in H. apply H. Qed.

Lemma settle_halted t s :
  halted s ->
  halted (settle t s) /\ played (settle t s) = played s /\
  sounding (settle t s) = sounding s /\
  currentAudio (settle t s) = currentAudio s.
Proof.
  destruct s as [en ca qu ip csr sa ts ni rs so pl]. unfold halted. cbn.
  intros [-> ->]. unfold settle. cbn. destruct (caller t); cbn; auto.
Qed.

Lemma on_event_halted ev s :
  halted s -> currentAudio s = None ->
  halted (on_event ev s) /\ played (on_event ev s) = played s /\
  incl (sounding (on_event ev s)) (sounding s) /\
  currentAudio (on_event ev s) = None.
Proof.
  intros H C.
  assert (K : forall t s1, halted s1 -> played s1 = played s ->
            incl (sounding s1) (sounding s) -> currentAudio s1 = None ->
            halted (settle t s1) /\ played (settle t s1) = played s /\
            incl (sounding (settle t s1)) (sounding s) /\
            currentAudio (settle t s1) = None).
  { intros t s1 H1 P1 I1 C1.
    destruct (settle_halted t s1 H1) as (A & B & D & E).
    rewrite B, D, E. auto. }
  assert (Same : halted s /\ played s = played s /\
                 incl (sounding s) (sounding s) /\ currentAudio s = None)
    by (repeat split; try apply H; auto using incl_refl).
  destruct H as [Ha Hq].
  destruct ev as [i|i ok|i|i data|i|i|i]; unfold on_event; cbn zeta;
    match goal with
    | |- context [waiting ?i ?a s] =>
      destruct (waiting i a s) as [t|]; [|try exact Same]
    end.
  - apply K; [split; assumption | reflexivity | apply incl_refl | exact C].
  - rewrite Ha.
    apply K; [split; assumption | reflexivity | apply incl_refl | exact C].
  - apply K; [split; assumption | reflexivity | apply incl_refl | exact C].
  - rewrite Ha, orb_true_r.
    apply K; [split; assumption | reflexivity | apply incl_refl | exact C].
  - destruct (existsb (Nat.eqb i) (sounding s)); [|exact Same].
    apply K; destruct s; cbn in *;
      [split; assumption | reflexivity | apply incl_without | reflexivity].
  - apply K; destruct s; cbn in *;
      [split; assumption | reflexivity | apply incl_without | reflexivity].
  - destruct (existsb _ (played s)); [|exact Same].
    destruct s; cbn in *.
    repeat split; try assumption; try reflexivity. apply incl_without.
  - apply K; destruct s; cbn in *;
      [split; assumption | reflexivity | apply incl_without | assumption].
Qed.

Definition deliver (evs : list Event) (s : State) : State :=
  fold_left (fun s ev => on_event ev s) evs s.

Lemma stopSpeaking_halts s :
  halted (stopSpeaking s) /\ currentAudio (stopSpeaking s) = None /\
  played (stopSpeaking s) = played s /\
  incl (sounding (stopSpeaking s)) (sounding s) /\
  (forall a, currentAudio s = Some a -> ~ In a (sounding (stopSpeaking s))).
Proof.
  destruct s as [en [a|] qu ip csr sa ts ni rs so pl]; unfold halted; cbn.
  - split; [split; reflexivity|]. split; [reflexivity|].
    split; [reflexivity|]. split; [apply incl_without|].
    intros b E. injection E as <-. intros H. apply filter_In in H.
    destruct H as [_ H]. rewrite Nat.eqb_refl in H. discriminate H.
  - split; [split; reflexivity|]. split; [reflexivity|].
    split; [reflexivity|]. split; [apply incl_refl|].
    intros b E. discriminate E.
Qed.

(** X9: after [stopSpeaking], whatever the pending fetches, bodies and audio
    elements deliver, no audio starts until something is spoken again: the
    list of started audios stays as it was, no element is current, the
    element that was playing stays silent, and the set of sounding elements
    only shrinks. *)
Theorem stop_keeps_pending_items_silent (s : State) (evs : list Event) :
  let s' := deliver evs (stopSpeaking s) in
  played s' = played s /\
  currentAudio s' = None /\
  audioQueue s' = [] /\
  incl (sounding s') (sounding s) /\
  (forall a, currentAudio s = Some a -> ~ In a (sounding s')).
Proof.
  cbn zeta. destruct (stopSpeaking_halts s) as (H & C & P & I & N).
  revert H C P I N. generalize (stopSpeaking s) as s1. unfold deliver.
  induction evs as [|ev evs IH]; intros s1 H C P I N; cbn [fold_left].
  - destruct H as [_ Hq]. auto.
  - destruct (on_event_halted ev s1 H C) as (H' & P' & I' & C').
    apply IH; auto.
    + congruence.
    + intros x Hx. apply I, I', Hx.
    + intros a Ha Hin. apply (N a Ha), I', Hin.
Qed.

(** *** Skipping and the guards *)

Section WithKey.

Variable key : option jsstr.

(** X10: [skipAndProceed] called right after [speakAndWait] resolves the
    promise that call returned, whatever the text and the state were, and
    leaves the sequencer stopped: no handle, no queue, no current audio. *)
Theorem skip_resolves_pending_promise (text : jsstr) (s : State) :
  let p := fst (speakAndWait key text s) in
  let s' := skipAndProceed (snd (speakAndWait key text s)) in
  In p (resolved s') /\
  currentSpeakResolve s' = None /\
  audioQueue s' = [] /\ currentAudio s' = None /\ synthesisAborted s' = true.
Proof.
  cbn zeta. unfold speakAndWait.
  destruct (negb _ || negb (hasKey key) || negb (truthy text)); cbn [fst snd];
    [|destruct (negb (truthy (clean text)) || (len (clean text) <? 3));
      cbn [fst snd]].
  - destruct s as [en [a|] qu ip [q|] sa ts ni rs so pl]; cbn; auto 10.
  - destruct s as [en [a|] qu ip [q|] sa ts ni rs so pl]; cbn; auto 10.
  - destruct s as [en [a|] qu ip [q|] sa ts ni rs so pl]; cbn; auto 10.
Qed.

(** What may be spoken: speech is on, a key is configured, and the text,
    once cleaned, keeps at least 3 code units. *)
Definition speakable (text : jsstr) (s : State) : bool :=
  ttsEnabled s && hasKey key && truthy text && (3 <=? len (clean text)).

Lemma speakable_guards text s :
  speakable text s = false ->
  negb (ttsEnabled s) || negb (hasKey key) || negb (truthy text) = true \/
  negb (truthy (clean text)) || (len (clean text) <? 3) = true.
Proof.
  unfold speakable. destruct (ttsEnabled s), (hasKey key), (truthy text);
    cbn; auto. intros H. right. apply orb_true_iff. right.
  apply Z.ltb_lt. apply Z.leb_gt in H. exact H.
Qed.

(** X11: with speech switched off, no API key, an empty text, or a text
    that cleans down to fewer than 3 code units, [speak] changes nothing and
    [speakAndWait] only resolves its promise: it makes no request, and it
    does not interrupt what is queued or playing. *)
Theorem unspeakable_text_is_ignored (text : jsstr) (s : State) :
  speakable text s = false ->
  speak key text s = s /\
  let p := fst (speakAndWait key text s) in
  let s' := snd (speakAndWait key text s) in
  In p (resolved s') /\
  tasks s' = tasks s /\ audioQueue s' = audioQueue s /\
  currentAudio s' = currentAudio s /\ sounding s' = sounding s /\
  isPlaying s' = isPlaying s /\ synthesisAborted s' = synthesisAborted s /\
  currentSpeakResolve s' = currentSpeakResolve s.
Proof.
  intros H. apply speakable_guards in H. split.
  - unfold speak. destruct H as [-> | H]; [reflexivity|].
    destruct (negb (ttsEnabled s) || negb (hasKey key) || negb (truthy text));
      [reflexivity|]. rewrite H. reflexivity.
  - cbn zeta. unfold speakAndWait.
    assert (E : ttsEnabled (set_nextId (S (nextId s)) s) = ttsEnabled s)
      by (destruct s; reflexivity).
    rewrite E.
    destruct (negb (ttsEnabled s) || negb (hasKey key) || negb (truthy text));
      [|destruct H as [H|H]; [discriminate H|rewrite H]];
      destruct s; cbn; auto 10.
Qed.

End WithKey.

Lemma unspeakable_text_is_ignored_witness :
  speakable (Some (js "key")) (js "[CORRECT] **") initial = false /\
  speak (Some (js "key")) (js "[CORRECT] **") initial = initial /\
  let p := fst (speakAndWait (Some (js "key")) (js "[CORRECT] **") initial) in
  let s' := snd (speakAndWait (Some (js "key")) (js "[CORRECT] **") initial) in
  In p (resolved s') /\
  tasks s' = tasks initial /\ audioQueue s' = audioQueue initial /\
  currentAudio s' = currentAudio initial /\ sounding s' = sounding initial /\
  isPlaying s' = isPlaying initial /\
  synthesisAborted s' = synthesisAborted initial /\
  currentSpeakResolve s' = currentSpeakResolve initial.
Proof.
  assert (H : speakable (Some (js "key")) (js "[CORRECT] **") initial = false).
  { unfold speakable. replace (3 <=? len (clean (js "[CORRECT] **"))) with false
      by (vm_compute; reflexivity). apply andb_false_r. }
  split; [exact H|].
  exact (unspeakable_text_is_ignored (Some (js "key")) (js "[CORRECT] **")
           initial H).
Defined.


(** *** Muting *)

Definition muted (s : State) : Prop :=
  ttsEnabled s = false /\ halted s /\ currentAudio s = None.

Definition isToggle (a : Action) : bool :=
  match a with CallToggleTTS => true | _ => false end.

Lemma act_muted key a s :
  isToggle a = false -> muted s ->
  muted (act key a s) /\ played (act key a s) = played s /\
  incl (sounding (act key a s)) (sounding s).
Proof.
  intros Ha (E & H & C). destruct a; try discriminate Ha; cbn [act].
  - unfold speak. rewrite E. cbn. repeat split; try apply H; auto using incl_refl.
  - unfold speakAndWait.
    replace (ttsEnabled (set_nextId (S (nextId s)) s)) with false
      by (destruct s; cbn in *; congruence).
    cbn. destruct H as [Hs Hq].
    destruct s; cbn in *. unfold muted, halted. cbn.
    repeat split; auto using incl_refl.
  - destruct (stopSpeaking_halts s) as (H1 & C1 & P1 & I1 & _).
    repeat split; try apply H1; auto. destruct s as [? [?|]]; exact E.
  - unfold skipAndProceed.
    destruct (stopSpeaking_halts s) as (H1 & C1 & P1 & I1 & _).
    assert (E1 : ttsEnabled (stopSpeaking s) = false)
      by (destruct s as [? [?|]]; exact E).
    destruct H1 as [Hs Hq]. revert E1 Hs Hq C1 P1 I1.
    generalize (stopSpeaking s) as s1. intros s1 E1 Hs Hq C1 P1 I1.
    destruct (currentSpeakResolve s1); destruct s1; cbn in *;
      unfold muted, halted; cbn; repeat split; auto.
  - destruct (on_event_halted ev s H C) as (H1 & P1 & I1 & C1).
    repeat split; try apply H1; auto.
    destruct ev as [i|i ok|i|i data|i|i|i]; unfold on_event;
      repeat match goal with
             | |- context [match ?x with _ => _ end] => destruct x
             end;
      try exact E;
      unfold settle;
      repeat match goal with
             | |- context [match ?x with _ => _ end] => destruct x
             end;
      destruct s; cbn in *; try exact E; destruct H as [_ H]; cbn in H;
      congruence.
Qed.

(** X12: once speech has been switched off with [toggleTTS], no audio
    starts until it is switched on again, whatever is spoken, stopped,
    skipped or delivered in between; the call returns the new setting. *)
Theorem muting_silences (key : option jsstr) (s : State) (l : list Action) :
  ttsEnabled s = true ->
  forallb (fun a => negb (isToggle a)) l = true ->
  fst (toggleTTS s) = false /\
  let s' := run key l (snd (toggleTTS s)) in
  played s' = played s /\ incl (sounding s') (sounding s) /\
  ttsEnabled s' = false.
Proof.
  intros E F. split; [unfold toggleTTS; destruct s as [? [?|]]; cbn in *;
                      rewrite E; reflexivity|].
  cbn zeta.
  assert (M : muted (snd (toggleTTS s)) /\
              played (snd (toggleTTS s)) = played s /\
              incl (sounding (snd (toggleTTS s))) (sounding s)).
  { unfold toggleTTS. cbn [snd].
    replace (ttsEnabled (set_ttsEnabled (negb (ttsEnabled s)) s))
      with false by (destruct s; cbn in *; rewrite E; reflexivity).
    cbn [negb].
    destruct (stopSpeaking_halts (set_ttsEnabled (negb (ttsEnabled s)) s))
      as (H1 & C1 & P1 & I1 & _).
    split; [split; [|split; assumption]|split].
    - destruct s as [? [?|]]; cbn in *; rewrite E; reflexivity.
    - rewrite P1. destruct s; reflexivity.
    - intros x Hx. apply I1 in Hx. destruct s; exact Hx. }
  revert M. generalize (snd (toggleTTS s)) as s1. unfold run.
  induction l as [|a l IH]; intros s1 (M & P & I); cbn [fold_left].
  - repeat split; auto. apply M.
  - cbn [forallb] in F. apply andb_true_iff in F. destruct F as [Fa Fl].
    apply negb_true_iff in Fa.
    destruct (act_muted key a s1 Fa M) as (M' & P' & I').
    apply IH; [exact Fl|]. split; [exact M'|]. split; [congruence|].
    intros x Hx. apply I, I', Hx.
Qed.

Lemma muting_silences_witness :
  let key := Some (js "key") in
  let l := [CallSpeak (js "first message"); Deliver (FetchResolved 0 true);
            CallSpeakAndWait (js "second message")] in
  ttsEnabled initial = true /\
  forallb (fun a => negb (isToggle a)) l = true /\
  fst (toggleTTS initial) = false /\
  let s' := run key l (snd (toggleTTS initial)) in
  played s' = played initial /\ incl (sounding s') (sounding initial) /\
  ttsEnabled s' = false.
Proof.
  cbn zeta. split; [reflexivity|]. split; [reflexivity|].
  apply (muting_silences (Some (js "key")) initial); reflexivity.
Defined.

(** *** The queue *)

(** The environment serves the synthesis call [i] without fault: the fetch
    answers ok, the body holds audio, the audio plays to its end. *)
Definition playThrough (i : nat) : list Action :=
  [Deliver (FetchResolved i true); Deliver (JsonResolved i Mp3);
   Deliver (AudioEnded i)].

(** The states a run goes through, one per action. *)
Fixpoint history (key : option jsstr) (l : list Action) (s : State)
    : list State :=
  match l with
  | [] => []
  | a :: r => act key a s :: history key r (act key a s)
  end.

Definition speakableText (key : option jsstr) (text : jsstr) : bool :=
  hasKey key && truthy text && (3 <=? len (clean text)).

(** The sequencer while the queued call [n] for [t] is under way, [q]
    waiting behind it, and when all is played. *)
Definition under_way (n : nat) (t : jsstr) (at_ : Pc) (q : list jsstr)
    (pl : list (nat * jsstr)) : State :=
  {| ttsEnabled := true;
     currentAudio := match at_ with Playing => Some n | _ => None end;
     audioQueue := q; isPlaying := true; currentSpeakResolve := None;
     synthesisAborted := false;
     tasks := [{| tid := n; ttext := t; pc := at_; caller := FromQueue |}];
     nextId := S n; resolved := [];
     sounding := match at_ with Playing => [n] | _ => [] end;
     played := pl |}.

Definition all_played (m : nat) (pl : list (nat * jsstr)) : State :=
  {| ttsEnabled := true; currentAudio := None; audioQueue := [];
     isPlaying := false; currentSpeakResolve := None;
     synthesisAborted := false; tasks := []; nextId := m; resolved := [];
     sounding := []; played := pl |}.

Lemma speakableText_guards key text :
  speakableText key text = true ->
  hasKey key = true /\ truthy text = true /\
  negb (truthy (clean text)) || (len (clean text) <? 3) = false.
Proof.
  unfold speakableText. intros H.
  apply andb_true_iff in H. destruct H as [H H3].
  apply andb_true_iff in H. destruct H as [H1 H2].
  split; [exact H1|]. split; [exact H2|].
  apply Z.leb_le in H3. apply orb_false_iff. split.
  - apply negb_false_iff. destruct (clean text); [cbn in H3; lia|reflexivity].
  - apply Z.ltb_ge. exact H3.
Qed.

Lemma speak_behind key text n t at_ q pl :
  speakableText key text = true ->
  speak key text (under_way n t at_ q pl)
  = under_way n t at_ (q ++ [clean text]) pl.
Proof.
  intros H. destruct (speakableText_guards key text H) as (K & T & C).
  unfold speak. cbn [ttsEnabled under_way negb orb]. rewrite K, T, C.
  reflexivity.
Qed.

Lemma run_app key l1 l2 s : run key (l1 ++ l2) s = run key l2 (run key l1 s).
Proof. unfold run. apply fold_left_app. Qed.

(** A schedule in which nothing goes wrong: texts are submitted with
    [speak], and the environment delivers fetches that succeed, bodies that
    hold audio and playbacks that end, for whatever call and in whatever
    order. *)
Definition delivery (a : Action) : bool :=
  match a with
  | Deliver (FetchResolved _ true) => true
  | Deliver (JsonResolved _ Mp3) => true
  | Deliver (AudioEnded _) => true
  | _ => false
  end.

Definition smooth (a : Action) : bool :=
  match a with
  | CallSpeak _ => true
  | _ => delivery a
  end.

(** The cleaned texts that a schedule gets past the guards of [speak], in
    the order of their submission. *)
Definition accepted (key : option jsstr) (a : Action) : list jsstr :=
  match a with
  | CallSpeak text => if speakableText key text then [clean text] else []
  | _ => []
  end.

Definition submitted (key : option jsstr) (l : list Action) : list jsstr :=
  flat_map (accepted key) l.

(** The texts in the sequencer whose audio has not started: those of the
    calls being synthesized, then the queue. *)
Definition waitingTexts (s : State) : list jsstr :=
  map ttext (filter (fun t => negb (pc_eqb (pc t) Playing)) (tasks s))
  ++ audioQueue s.

(** The audios started when the texts [l] have been played in order. *)
Definition numbered (l : list jsstr) : list (nat * jsstr) :=
  combine (seq 0 (List.length l)) l.

Definition idle (done : list jsstr) : State :=
  all_played (List.length done) (numbered done).

Definition busy (done : list jsstr) (t : jsstr) (at_ : Pc) (q : list jsstr)
    : State :=
  under_way (List.length done) t at_ q
    (numbered (match at_ with Playing => done ++ [t] | _ => done end)).

(** The states of a schedule in which nothing goes wrong, with the texts
    accepted so far. *)
Inductive Shape : State -> list jsstr -> Prop :=
| Idle done : Shape (idle done) done
| Busy done t at_ q : Shape (busy done t at_ q) (done ++ t :: q).

Lemma combine_seq_snoc a (l : list jsstr) t :
  combine (seq a (S (List.length l))) (l ++ [t])
  = combine (seq a (List.length l)) l ++ [(a + List.length l, t)]%nat.
Proof.
  revert a. induction l as [|x l IH]; intros a.
  - cbn. rewrite Nat.add_0_r. reflexivity.
  - change (combine (seq a (S (List.length (x :: l)))) ((x :: l) ++ [t]))
      with ((a, x) :: combine (seq (S a) (S (List.length l))) (l ++ [t])).
    rewrite (IH (S a)).
    change (combine (seq a (List.length (x :: l))) (x :: l))
      with ((a, x) :: combine (seq (S a) (List.length l)) l).
    cbn [List.length app]. rewrite Nat.add_succ_r. reflexivity.
Qed.

Lemma length_snoc (l : list jsstr) t : List.length (l ++ [t]) = S (List.length l).
Proof. rewrite length_app. cbn. lia. Qed.

Lemma numbered_snoc l t : numbered (l ++ [t]) = numbered l ++ [(List.length l, t)].
Proof. unfold numbered. rewrite length_snoc. apply combine_seq_snoc. Qed.

Lemma map_snd_combine_seq a (l : list jsstr) :
  map snd (combine (seq a (List.length l)) l) = l.
Proof.
  revert a. induction l as [|x l IH]; intros a; [reflexivity|].
  cbn. rewrite IH. reflexivity.
Qed.

Lemma map_snd_numbered l : map snd (numbered l) = l.
Proof. apply map_snd_combine_seq. Qed.

Lemma speak_idle key text m pl :
  speakableText key text = true ->
  speak key text (all_played m pl) = under_way m (clean text) AwaitFetch [] pl.
Proof.
  intros H. destruct (speakableText_guards key text H) as (K & T & C).
  unfold speak. cbn [ttsEnabled all_played negb orb]. rewrite K, T, C.
  reflexivity.
Qed.

Lemma speak_ignored key text s :
  speakableText key text = false -> speak key text s = s.
Proof.
  unfold speakableText, speak. intros H.
  destruct (ttsEnabled s); [|reflexivity].
  destruct (hasKey key); [|reflexivity].
  destruct (truthy text); [|reflexivity].
  cbn [negb orb andb] in *. apply Z.leb_gt in H.
  destruct (Z.ltb_spec (len (clean text)) 3); [|lia].
  rewrite orb_true_r. reflexivity.
Qed.

Lemma fetched_under_way i n t at_ q pl :
  on_event (FetchResolved i true) (under_way n t at_ q pl)
  = if Nat.eqb n i && pc_eqb at_ AwaitFetch
    then under_way n t AwaitJson q pl
    else under_way n t at_ q pl.
Proof.
  unfold on_event, waiting, set_pc. cbn.
  destruct (Nat.eqb n i) eqn:E; destruct at_; cbn; rewrite ?E; reflexivity.
Qed.

Lemma parsed_under_way i n t at_ q pl :
  on_event (JsonResolved i Mp3) (under_way n t at_ q pl)
  = if Nat.eqb n i && pc_eqb at_ AwaitJson
    then under_way n t Playing q (pl ++ [(n, t)])
    else under_way n t at_ q pl.
Proof.
  unfold on_event, waiting, set_pc. cbn.
  destruct (Nat.eqb n i) eqn:E; destruct at_; cbn; rewrite ?E; try reflexivity.
  apply Nat.eqb_eq in E. subst i. reflexivity.
Qed.

Lemma ended_under_way i n t at_ q pl :
  on_event (AudioEnded i) (under_way n t at_ q pl)
  = if Nat.eqb n i && pc_eqb at_ Playing
    then match q with
         | [] => all_played (S n) pl
         | t' :: q' => under_way (S n) t' AwaitFetch q' pl
         end
    else under_way n t at_ q pl.
Proof.
  unfold on_event, waiting, settle, drop_task, without. cbn.
  destruct (Nat.eqb n i) eqn:E; destruct at_; cbn; rewrite ?E; try reflexivity.
  apply Nat.eqb_eq in E. subst i. rewrite ?Nat.eqb_refl. cbn.
  rewrite ?Nat.eqb_refl. cbn. destruct q; reflexivity.
Qed.

Lemma delivery_all_played a m pl :
  delivery a = true -> act (None : option jsstr) a (all_played m pl) = all_played m pl.
Proof.
  destruct a as [| | | | |[i|i [|]|i|i [| |]|i|i|i]]; try discriminate;
    intros _; reflexivity.
Qed.

Lemma act_delivery key a s :
  delivery a = true -> act key a s = act None a s.
Proof. destruct a; try discriminate. reflexivity. Qed.

Lemma Shape_act key a s ag :
  Shape s ag -> smooth a = true -> Shape (act key a s) (ag ++ accepted key a).
Proof.
  intros Sh Sm. destruct a as [text| | | | |ev]; try discriminate Sm.
  - (* a text is submitted *)
    cbn [act accepted]. destruct (speakableText key text) eqn:Ok.
    + destruct Sh as [done|done t at_ q].
      * unfold idle. rewrite (speak_idle key text _ _ Ok).
        apply (Busy done (clean text) AwaitFetch []).
      * unfold busy. rewrite (speak_behind key text _ _ _ _ _ Ok).
        rewrite <- app_assoc. cbn [app].
        apply (Busy done t at_ (q ++ [clean text])).
    + rewrite (speak_ignored key text s Ok), app_nil_r. exact Sh.
  - (* an event is delivered *)
    cbn [smooth] in Sm. rewrite (act_delivery key _ s Sm).
    cbn [accepted]. rewrite app_nil_r.
    destruct Sh as [done|done t at_ q].
    + unfold idle. rewrite (delivery_all_played _ _ _ Sm). apply Idle.
    + destruct ev as [i|i [|]|i|i [| |]|i|i|i]; try discriminate Sm;
        cbn [act]; unfold busy.
      * rewrite fetched_under_way.
        destruct (Nat.eqb (List.length done) i && pc_eqb at_ AwaitFetch) eqn:E.
        -- destruct at_; try (rewrite andb_false_r in E; discriminate E).
           apply (Busy done t AwaitJson q).
        -- apply (Busy done t at_ q).
      * rewrite parsed_under_way.
        destruct (Nat.eqb (List.length done) i && pc_eqb at_ AwaitJson) eqn:E.
        -- destruct at_; try (rewrite andb_false_r in E; discriminate E).
           rewrite <- numbered_snoc. apply (Busy done t Playing q).
        -- apply (Busy done t at_ q).
      * rewrite ended_under_way.
        destruct (Nat.eqb (List.length done) i && pc_eqb at_ Playing) eqn:E.
        -- destruct at_; try (rewrite andb_false_r in E; discriminate E).
           rewrite <- (length_snoc done t).
           replace (done ++ t :: q) with ((done ++ [t]) ++ q)
             by (rewrite <- app_assoc; reflexivity).
           destruct q as [|t' q'].
           ++ rewrite app_nil_r. apply (Idle (done ++ [t])).
           ++ apply (Busy (done ++ [t]) t' AwaitFetch q').
        -- apply (Busy done t at_ q).
Qed.

Lemma Shape_run key l s ag :
  Shape s ag -> forallb smooth l = true ->
  Shape (run key l s) (ag ++ submitted key l) /\
  Forall (fun st => (List.length (sounding st) <= 1)%nat) (history key l s).
Proof.
  revert s ag. induction l as [|a l IH]; intros s ag Sh Sm.
  - cbn. rewrite app_nil_r. split; [exact Sh | constructor].
  - cbn [forallb] in Sm. apply andb_true_iff in Sm. destruct Sm as [Sa Sm].
    pose proof (Shape_act key a s ag Sh Sa) as Sh1.
    destruct (IH _ _ Sh1 Sm) as [Sh2 F].
    cbn [run fold_left history]. unfold submitted. cbn [flat_map].
    rewrite app_assoc. split; [exact Sh2|].
    constructor; [|exact F].
    destruct Sh1 as [done|done t [| |] q]; cbn; lia.
Qed.

Lemma Shape_view s ag :
  Shape s ag ->
  played s = numbered (map snd (played s)) /\
  map snd (played s) ++ waitingTexts s = ag /\
  (List.length (sounding s) <= 1)%nat.
Proof.
  intros [done|done t at_ q].
  - unfold idle, waitingTexts. cbn. rewrite map_snd_numbered, app_nil_r.
    repeat split; auto.
  - unfold busy, waitingTexts.
    cbn [played under_way tasks audioQueue sounding filter pc map ttext].
    rewrite map_snd_numbered.
    destruct at_; cbn; rewrite <- ?app_assoc; repeat split; auto.
Qed.

(** The events that play what is left, one call after the other. *)
Definition drain (n : nat) (q : list jsstr) : list Action :=
  flat_map playThrough (seq n (S (List.length q))).

Lemma delivery_drain n q : forallb delivery (drain n q) = true.
Proof.
  unfold drain. generalize (S (List.length q)). intros k. revert n.
  induction k as [|k IH]; intros n; [reflexivity|].
  cbn [seq flat_map playThrough app forallb delivery andb]. apply IH.
Qed.

Lemma play_on key done t at_ q :
  run key (playThrough (List.length done)) (busy done t at_ q)
  = match q with
    | [] => idle (done ++ [t])
    | t' :: q' => busy (done ++ [t]) t' AwaitFetch q'
    end.
Proof.
  unfold playThrough, busy, idle. cbn [run fold_left act].
  rewrite fetched_under_way, Nat.eqb_refl.
  destruct at_; cbn [andb pc_eqb];
    rewrite parsed_under_way, Nat.eqb_refl; cbn [andb pc_eqb];
    rewrite ended_under_way, Nat.eqb_refl; cbn [andb pc_eqb];
    rewrite <- ?numbered_snoc, <- (length_snoc done t);
    destruct q; reflexivity.
Qed.

Lemma drain_busy key done t at_ q :
  run key (drain (List.length done) q) (busy done t at_ q)
  = idle (done ++ t :: q).
Proof.
  revert done t at_. induction q as [|t' q IH]; intros done t at_.
  - unfold drain. cbn [List.length seq flat_map]. rewrite app_nil_r.
    apply (play_on key done t at_ []).
  - unfold drain.
    change (seq (List.length done) (S (List.length (t' :: q))))
      with (List.length done :: seq (S (List.length done)) (S (List.length q))).
    cbn [flat_map]. rewrite run_app, (play_on key done t at_ (t' :: q)).
    rewrite <- (length_snoc done t).
    fold (drain (List.length (done ++ [t])) q).
    rewrite IH, <- app_assoc. reflexivity.
Qed.

Lemma Shape_drain key s ag :
  Shape s ag ->
  exists rest, forallb delivery rest = true /\ run key rest s = idle ag.
Proof.
  intros [done|done t at_ q].
  - exists []. split; reflexivity.
  - exists (drain (List.length done) q).
    split; [apply delivery_drain | apply drain_busy].
Qed.

(** X13: texts submitted with [speak] are synthesized and played in the
    order of their submission, whenever they are submitted: before, between
    or after the events of the calls under way.  In every schedule of
    [speak] calls and of fetches that succeed, bodies that hold audio and
    playbacks that end, the audios started are numbered in order and are a
    beginning of the cleaned texts accepted so far, what is left of them is
    what the sequencer still holds, at no moment of the run does more than
    one element sound, and delivering the events still owed plays all that
    was accepted and leaves the sequencer at rest. *)
Theorem queue_plays_in_order (key : option jsstr) (script : list Action) :
  forallb smooth script = true ->
  let s := run key script initial in
  let heard := map snd (played s) in
  played s = numbered heard /\
  heard ++ waitingTexts s = submitted key script /\
  Forall (fun st => (List.length (sounding st) <= 1)%nat)
    (history key script initial) /\
  exists rest,
    forallb delivery rest = true /\
    let s' := run key (script ++ rest) initial in
    played s' = numbered (submitted key script) /\
    sounding s' = [] /\ tasks s' = [] /\ audioQueue s' = [] /\
    isPlaying s' = false.
Proof.
  intros H. cbn zeta.
  destruct (Shape_run key script initial [] (Idle []) H) as [Sh F].
  cbn [app] in Sh.
  destruct (Shape_view _ _ Sh) as (V1 & V2 & _).
  destruct (Shape_drain key _ _ Sh) as (rest & D & E).
  split; [exact V1|]. split; [exact V2|]. split; [exact F|].
  exists rest. split; [exact D|].
  rewrite run_app, E. repeat split; reflexivity.
Qed.

Lemma queue_plays_in_order_witness :
  let key := Some (js "key") in
  let script :=
    [CallSpeak (js "[PUZZLE] first"); Deliver (FetchResolved 0 true);
     CallSpeak (js "second **one**"); Deliver (JsonResolved 0 Mp3);
     CallSpeak (js "**"); CallSpeak (js "third"); Deliver (AudioEnded 0);
     Deliver (FetchResolved 1 true)] in
  forallb smooth script = true /\
  submitted key script = [js "first"; js "second one"; js "third"] /\
  played (run key script initial)
  = numbered (map snd (played (run key script initial))) /\
  map snd (played (run key script initial))
    ++ waitingTexts (run key script initial)
  = submitted key script.
Proof.
  cbn zeta.
  match goal with |- forallb smooth ?script = true /\ _ =>
    assert (H : forallb smooth script = true) by reflexivity;
    pose proof (queue_plays_in_order (Some (js "key")) script H) as Q
  end.
  cbn zeta in Q. destruct Q as (Q1 & Q2 & _).
  split; [exact H|]. split; [lazy; reflexivity|].
  split; [exact Q1 | exact Q2].
Defined.

(** *** The cleaned text *)

Lemma trimStart_suffix l : exists pre, l = pre ++ trimStart l.
Proof.
  induction l as [|c l [pre E]]; [exists []; reflexivity|].
  cbn [trimStart]. destruct (isWhiteSpace c).
  - exists (c :: pre). cbn. rewrite <- E. reflexivity.
  - exists []. reflexivity.
Qed.

Lemma trimStart_head l c r : trimStart l = c :: r -> isWhiteSpace c = false.
Proof.
  induction l as [|d l IH]; cbn [trimStart]; [discriminate|].
  destruct (isWhiteSpace d) eqn:W; [exact IH|].
  intros E. injection E as <- _. exact W.
Qed.

Lemma In_trimStart x l : In x (trimStart l) -> In x l.
Proof.
  destruct (trimStart_suffix l) as [pre E]. intros H. rewrite E.
  apply in_app_iff. right. exact H.
Qed.

Lemma trim_ends s :
  (forall x, In x (trim s) -> In x s) /\
  (forall c r, trim s = c :: r -> isWhiteSpace c = false) /\
  (forall c r, trim s = r ++ [c] -> isWhiteSpace c = false).
Proof.
  unfold trim. split; [|split].
  - intros x H. apply in_rev in H. apply In_trimStart in H.
    apply in_rev in H. apply In_trimStart in H. exact H.
  - intros c r E.
    destruct (trimStart_suffix (rev (trimStart s))) as [pre P].
    apply (f_equal (@rev N)) in E. rewrite rev_involutive in E.
    cbn [rev] in E. rewrite E in P.
    apply (f_equal (@rev N)) in P. rewrite rev_involutive in P.
    rewrite app_assoc, rev_app_distr in P. cbn in P.
    apply (trimStart_head s c _ P).
  - intros c r E.
    apply (f_equal (@rev N)) in E. rewrite rev_involutive in E.
    rewrite rev_app_distr in E. cbn in E.
    apply (trimStart_head _ c _ E).
Qed.

Lemma length_trimStart l : (List.length (trimStart l) <= List.length l)%nat.
Proof.
  destruct (trimStart_suffix l) as [pre E]. rewrite E at 2.
  rewrite length_app. lia.
Qed.

Lemma length_replaceBracketed k s :
  (List.length (replaceBracketed k s) <= List.length s)%nat.
Proof.
  revert k. induction s as [|c s IH]; intros k; [destruct k; cbn; lia|].
  cbn [replaceBracketed]. destruct k as [|k].
  - destruct (c =? 91)%N; [destruct (closeBracket s)|]; cbn [List.length];
      try (specialize (IH 0%nat); lia).
    specialize (IH n). lia.
  - specialize (IH k). cbn [List.length]. lia.
Qed.

Lemma length_replaceTags k s :
  (List.length (replaceTags k s) <= List.length s)%nat.
Proof.
  revert k. induction s as [|c s IH]; intros k; [destruct k; cbn; lia|].
  cbn [replaceTags]. destruct k as [|k].
  - destruct (c =? 60)%N; [destruct (closeTag s) as [[|[|m]]|]|];
      cbn [List.length]; try (specialize (IH 0%nat); lia).
    specialize (IH (S (S m))). lia.
  - specialize (IH k). cbn [List.length]. lia.
Qed.

Lemma length_replaceStars s :
  (List.length (replaceStars s) <= List.length s)%nat.
Proof.
  assert (H : forall n s, (List.length s <= n)%nat ->
                          (List.length (replaceStars s) <= List.length s)%nat).
  { intros n. induction n as [|n IH]; intros [|c [|d r]] L; cbn in *; try lia.
    destruct ((c =? 42) && (d =? 42))%N.
    - specialize (IH r). lia.
    - specialize (IH (d :: r)). cbn in *. lia. }
  apply (H (List.length s)). lia.
Qed.

(** X14: the text handed to speech synthesis is never longer than the
    input, it holds no ['>'], and it neither begins nor ends with white
    space. *)
Theorem clean_shape (text : jsstr) :
  (List.length (clean text) <= List.length text)%nat /\
  ~ In 62%N (clean text) /\
  (forall c r, clean text = c :: r -> isWhiteSpace c = false) /\
  (forall c r, clean text = r ++ [c] -> isWhiteSpace c = false).
Proof.
  unfold clean.
  destruct (trim_ends (replaceGt (replaceTags 0 (replaceStars
              (replaceBracketed 0 text))))) as (I & Hd & Tl).
  split; [|split; [|split; assumption]].
  - unfold trim. rewrite length_rev.
    eapply Nat.le_trans; [apply length_trimStart|]. rewrite length_rev.
    eapply Nat.le_trans; [apply length_trimStart|]. unfold replaceGt.
    eapply Nat.le_trans; [apply filter_length_le|].
    eapply Nat.le_trans; [apply length_replaceTags|].
    eapply Nat.le_trans; [apply length_replaceStars|].
    apply length_replaceBracketed.
  - intros H. apply I in H. unfold replaceGt in H. apply filter_In in H.
    destruct H as [_ H]. discriminate H.
Qed.

End TtsMore.

(** ** The orchestrator: rank, clock, guards and stage transitions *)

Module OrchestratorMore.

Import Engine Orchestrator Fixtures JSProps EngineProps OrchestratorProps.

(** *** The rank *)

(** The place of a rank on the scale S, A, B, C, D. *)
Definition grade (rank : jsstr) : Z :=
  if eqb rank (js "S") then 0
  else if eqb rank (js "A") then 1
  else if eqb rank (js "B") then 2
  else if eqb rank (js "C") then 3
  else 4.

Lemma calculateRank_grade g :
  let time := elapsedSeconds g in
  let hints := totalHintsUsed g in
  grade (calculateRank g) =
    if (hints =? 0) && (time <? 300) then 0
    else if (hints <=? 2) && (time <? 600) then 1
    else if (hints <=? 5) && (time <? 900) then 2
    else if time <? 1200 then 3
    else 4.
Proof.
  cbn zeta. unfold calculateRank.
  destruct ((totalHintsUsed g =? 0) && (elapsedSeconds g <? 300));
    [reflexivity|].
  destruct ((totalHintsUsed g <=? 2) && (elapsedSeconds g <? 600));
    [reflexivity|].
  destruct ((totalHintsUsed g <=? 5) && (elapsedSeconds g <? 900));
    [reflexivity|].
  destruct (elapsedSeconds g <? 1200); reflexivity.
Qed.

(** X15: the rank never gets better with more hints or more time: for hint
    counts that are not negative, a game with at least as many hints and at
    least as many seconds as another is ranked the same or lower. *)
Theorem calculateRank_monotone (g1 g2 : GameState) :
  0 <= totalHintsUsed g1 <= totalHintsUsed g2 ->
  elapsedSeconds g1 <= elapsedSeconds g2 ->
  grade (calculateRank g1) <= grade (calculateRank g2).
Proof.
  intros Hh Ht. rewrite !calculateRank_grade. cbn zeta.
  destruct (Z.eqb_spec (totalHintsUsed g1) 0), (Z.ltb_spec (elapsedSeconds g1) 300),
    (Z.leb_spec (totalHintsUsed g1) 2), (Z.ltb_spec (elapsedSeconds g1) 600),
    (Z.leb_spec (totalHintsUsed g1) 5), (Z.ltb_spec (elapsedSeconds g1) 900),
    (Z.ltb_spec (elapsedSeconds g1) 1200); cbn [andb]; try lia;
  destruct (Z.eqb_spec (totalHintsUsed g2) 0), (Z.ltb_spec (elapsedSeconds g2) 300),
    (Z.leb_spec (totalHintsUsed g2) 2), (Z.ltb_spec (elapsedSeconds g2) 600),
    (Z.leb_spec (totalHintsUsed g2) 5), (Z.ltb_spec (elapsedSeconds g2) 900),
    (Z.ltb_spec (elapsedSeconds g2) 1200); cbn [andb]; lia.
Qed.

Lemma calculateRank_monotone_witness :
  0 <= totalHintsUsed (RankProps.timed 280 0)
    <= totalHintsUsed (RankProps.timed 310 1) /\
  elapsedSeconds (RankProps.timed 280 0)
    <= elapsedSeconds (RankProps.timed 310 1) /\
  grade (calculateRank (RankProps.timed 280 0))
    <= grade (calculateRank (RankProps.timed 310 1)).
Proof.
  assert (H1 : 0 <= totalHintsUsed (RankProps.timed 280 0)
                 <= totalHintsUsed (RankProps.timed 310 1)) by (cbn; lia).
  assert (H2 : elapsedSeconds (RankProps.timed 280 0)
                 <= elapsedSeconds (RankProps.timed 310 1)) by (cbn; lia).
  split; [exact H1|]. split; [exact H2|].
  exact (calculateRank_monotone _ _ H1 H2).
Defined.

(** *** The clock *)

Definition digit (c : N) : option Z :=
  if ((48 <=? c) && (c <=? 57))%N then Some (Z.of_N c - 48) else None.

(** Reading a clock text [mm:ss] back as a number of seconds. *)
Definition readClock (t : jsstr) : option Z :=
  match t with
  | [m1; m0; c; s1; s0] =>
    if (c =? 58)%N then
      match digit m1, digit m0, digit s1, digit s0 with
      | Some a, Some b, Some d, Some e =>
        Some ((10 * a + b) * 60 + (10 * d + e))
      | _, _, _, _ => None
      end
    else None
  | _ => None
  end.

Definition twoDigits (n : Z) : jsstr :=
  [Z.to_N (48 + n / 10); Z.to_N (48 + n mod 10)].

Lemma padStart2_table :
  forallb (fun k => eqb (padStart2 (ofZ (Z.of_nat k))) (twoDigits (Z.of_nat k)))
          (seq 0 100) = true.
Proof. lazy. reflexivity. Qed.

Lemma padStart2_below_100 n :
  0 <= n < 100 -> padStart2 (ofZ n) = twoDigits n.
Proof.
  intros H. pose proof padStart2_table as T.
  rewrite forallb_forall in T.
  specialize (T (Z.to_nat n)). rewrite Z2Nat.id in T by lia.
  apply eqb_eq, T, in_seq. lia.
Qed.

Lemma digit_of n : 0 <= n <= 9 -> digit (Z.to_N (48 + n)) = Some n.
Proof.
  intros H. unfold digit.
  destruct (N.leb_spec 48 (Z.to_N (48 + n))); [|lia].
  destruct (N.leb_spec (Z.to_N (48 + n)) 57); [|lia].
  cbn [andb]. f_equal. lia.
Qed.

Lemma readClock_twoDigits m s :
  0 <= m < 100 -> 0 <= s < 100 ->
  readClock (twoDigits m +++ js ":" +++ twoDigits s) = Some (m * 60 + s).
Proof.
  intros Hm Hs. change (js ":") with [58%N]. unfold twoDigits.
  cbn [app readClock]. cbn [N.eqb Pos.eqb].
  pose proof (Z.div_mod m 10 ltac:(lia)).
  pose proof (Z.mod_pos_bound m 10 ltac:(lia)).
  pose proof (Z.div_mod s 10 ltac:(lia)).
  pose proof (Z.mod_pos_bound s 10 ltac:(lia)).
  rewrite !digit_of by lia. f_equal. lia.
Qed.

(** X16: below one hundred minutes the clock text is five code units,
    [mm:ss], and reads back as the elapsed seconds it was made from. *)
Theorem getFormattedTime_round_trip (g : GameState) :
  0 <= elapsedSeconds g < 6000 ->
  List.length (getFormattedTime g) = 5%nat /\
  readClock (getFormattedTime g) = Some (elapsedSeconds g).
Proof.
  intros H. unfold getFormattedTime. cbn zeta.
  rewrite Z.rem_mod_nonneg by lia.
  pose proof (Z.div_mod (elapsedSeconds g) 60 ltac:(lia)).
  pose proof (Z.mod_pos_bound (elapsedSeconds g) 60 ltac:(lia)).
  rewrite !padStart2_below_100 by lia.
  split; [reflexivity|].
  rewrite readClock_twoDigits by lia. f_equal. lia.
Qed.

Lemma getFormattedTime_round_trip_witness :
  0 <= elapsedSeconds (RankProps.timed 754 2) < 6000 /\
  List.length (getFormattedTime (RankProps.timed 754 2)) = 5%nat /\
  readClock (getFormattedTime (RankProps.timed 754 2))
  = Some (elapsedSeconds (RankProps.timed 754 2)).
Proof.
  assert (H : 0 <= elapsedSeconds (RankProps.timed 754 2) < 6000)
    by (cbn; lia).
  split; [exact H|]. exact (getFormattedTime_round_trip _ H).
Defined.

(** From one hundred minutes on the minutes take three digits. *)
Example getFormattedTime_long_game :
  getFormattedTime (RankProps.timed 6000 0) = js "100:00".
Proof. lazy. reflexivity. Qed.

(** *** The guards of the handlers *)

Lemma trimStart_blank s : forallb isWhiteSpace s = true -> trimStart s = [].
Proof.
  induction s as [|c s IH]; [reflexivity|].
  cbn [forallb trimStart]. intros H. apply andb_prop in H as [Hc Hs].
  rewrite Hc. apply IH, Hs.
Qed.

Lemma trim_blank s : forallb isWhiteSpace s = true -> trim s = [].
Proof. intros H. unfold trim. rewrite (trimStart_blank s H). reflexivity. Qed.

(** X17: while an answer or a hint is being processed both handlers return
    at once and change nothing, whatever the input, the reserved commands
    included. *)
Theorem handlers_ignored_while_processing
    (env : Env) (STAGES : list Stage) (w : World) :
  isProcessing (game w) = true ->
  (forall input, onSendAnswer env STAGES input w = (tt, w)) /\
  onHintRequest env w = (tt, w).
Proof.
  intros H. split.
  - intros input. unfold onSendAnswer. cbn zeta.
    unfold obind at 1. unfold state at 1. rewrite H, orb_true_r. reflexivity.
  - unfold onHintRequest. unfold obind at 1. unfold state at 1. rewrite H.
    reflexivity.
Qed.

Lemma handlers_ignored_while_processing_witness :
  let w := {| game := {| currentStage := 1; hintLevel := 2;
                         totalHintsUsed := 2; elapsedSeconds := 42;
                         isProcessing := true; gameStarted := true |};
              engine := session flaky [] (fresh true);
              log := [AddTypingIndicator] |} in
  isProcessing (game w) = true /\
  onSendAnswer flaky [tower; ginza] (js "/skip") w = (tt, w) /\
  onHintRequest flaky w = (tt, w).
Proof.
  cbn zeta.
  match goal with |- isProcessing (game ?w) = true /\ _ =>
    assert (H : isProcessing (game w) = true) by reflexivity;
    pose proof (handlers_ignored_while_processing flaky [tower; ginza] w H)
      as [A B]
  end.
  split; [exact H|]. split; [apply A | exact B].
Defined.

(** X18: an input of white space only is no answer: the handler returns at
    once and changes nothing. *)
Theorem blank_input_is_ignored
    (env : Env) (STAGES : list Stage) (input : jsstr) (w : World) :
  forallb isWhiteSpace input = true ->
  onSendAnswer env STAGES input w = (tt, w).
Proof.
  intros H. unfold onSendAnswer. cbn zeta.
  unfold obind at 1. unfold state at 1. rewrite (trim_blank input H).
  reflexivity.
Qed.

Lemma blank_input_is_ignored_witness :
  let w := {| game := {| currentStage := 0; hintLevel := 0;
                         totalHintsUsed := 0; elapsedSeconds := 7;
                         isProcessing := false; gameStarted := true |};
              engine := session flaky [] (fresh true);
              log := [] |} in
  forallb isWhiteSpace [32; 9; 12288; 10]%N = true /\
  onSendAnswer flaky [tower; ginza] [32; 9; 12288; 10]%N w = (tt, w).
Proof.
  cbn zeta.
  assert (H : forallb isWhiteSpace [32; 9; 12288; 10]%N = true)
    by (lazy; reflexivity).
  split; [exact H|]. exact (blank_input_is_ignored _ _ _ _ H).
Defined.

(** *** Hint requests *)

Lemma onHintRequest_idle env w :
  isProcessing (game w) = false ->
  let level := Z.min (hintLevel (game w) + 1) 3 in
  let r := Exports.requestHint env level (engine w) in
  onHintRequest env w =
  (tt, {| game := set_isProcessing false
                    (set_totalHintsUsed (totalHintsUsed (game w) + 1)
                       (set_hintLevel level (game w)));
          engine := snd r;
          log := log w ++
            [PlaySound hint;
             AddMessage (js "HINT DECRYPT -- LEVEL " +++ ofZ level +++ js "/3")
               system;
             AddTypingIndicator; RemoveTypingIndicator;
             AddMessage (fst r) ai] |}).
Proof.
  intros H. cbn zeta. unfold onHintRequest.
  unfold obind at 1. unfold state at 1. rewrite H. flow.
  destruct (Exports.requestHint env _ (engine w)) as [h e]. fields.
  repeat rewrite <- app_assoc. reflexivity.
Qed.

(** The world after [n] hint requests in a row. *)
Fixpoint hintRequests (env : Env) (n : nat) (w : World) : World :=
  match n with
  | 0%nat => w
  | S n => snd (onHintRequest env (hintRequests env n w))
  end.

(** X19: hint requests in a row, none made while another is processed: the
    hint level climbs by one per request and stays at 3 once there, the
    total of hints used counts every request, the capped ones too, and
    neither the stage nor the counters of the engine move.  The next
    request displays the hint the engine gives for the capped level. *)
Theorem hint_level_saturates (env : Env) (w : World) :
  isProcessing (game w) = false ->
  hintLevel (game w) <= 3 ->
  forall n : nat,
    let w' := hintRequests env n w in
    let next := Z.min (hintLevel (game w) + Z.of_nat n + 1) 3 in
    hintLevel (game w') = Z.min (hintLevel (game w) + Z.of_nat n) 3 /\
    totalHintsUsed (game w') = totalHintsUsed (game w) + Z.of_nat n /\
    currentStage (game w') = currentStage (game w) /\
    isProcessing (game w') = false /\
    eng (engine w') = eng (engine w) /\
    In (AddMessage (fst (Exports.requestHint env next (engine w'))) ai)
       (log (hintRequests env (S n) w)).
Proof.
  intros Hp Hl n. cbn zeta.
  assert (K : hintLevel (game (hintRequests env n w))
              = Z.min (hintLevel (game w) + Z.of_nat n) 3 /\
              totalHintsUsed (game (hintRequests env n w))
              = totalHintsUsed (game w) + Z.of_nat n /\
              currentStage (game (hintRequests env n w))
              = currentStage (game w) /\
              isProcessing (game (hintRequests env n w)) = false /\
              eng (engine (hintRequests env n w)) = eng (engine w)).
  { induction n as [|n IH].
    - cbn [hintRequests Z.of_nat].
      repeat split; try assumption; try reflexivity; lia.
    - destruct IH as (I1 & I2 & I3 & I4 & I5).
      cbn [hintRequests].
      rewrite (onHintRequest_idle env _ I4). cbn zeta.
      unfold set_isProcessing, set_totalHintsUsed, set_hintLevel. fields.
      unfold Exports.requestHint. rewrite requestHint_engine.
      rewrite I1, I2, I3, I5. repeat split; try reflexivity; lia. }
  destruct K as (K1 & K2 & K3 & K4 & K5).
  repeat split; try assumption.
  cbn [hintRequests].
  rewrite (onHintRequest_idle env _ K4). cbn zeta. fields.
  rewrite K1.
  replace (Z.min (Z.min (hintLevel (game w) + Z.of_nat n) 3 + 1) 3)
    with (Z.min (hintLevel (game w) + Z.of_nat n + 1) 3) by lia.
  apply in_app_iff. right. cbn. auto 6.
Qed.

Lemma hint_level_saturates_witness :
  let w := {| game := {| currentStage := 1; hintLevel := 1;
                         totalHintsUsed := 4; elapsedSeconds := 90;
                         isProcessing := false; gameStarted := true |};
              engine := session flaky [] (fresh true);
              log := [] |} in
  isProcessing (game w) = false /\
  hintLevel (game w) <= 3 /\
  hintLevel (game (hintRequests flaky 4 w)) = 3 /\
  totalHintsUsed (game (hintRequests flaky 4 w)) = 8.
Proof.
  cbn zeta.
  match goal with |- isProcessing (game ?w) = false /\ _ =>
    assert (A : isProcessing (game w) = false) by reflexivity;
    assert (B : hintLevel (game w) <= 3) by (cbn; lia);
    pose proof (hint_level_saturates flaky w A B 4) as H
  end.
  cbn zeta in H. destruct H as (H1 & H2 & _).
  split; [exact A|]. split; [exact B|]. split; [exact H1 | exact H2].
Defined.

(** *** Stage transitions *)

Lemma loadStage_run env st w :
  let r := Exports.generatePuzzle env st (engine w) in
  loadStage env st w =
  (tt, {| game := set_hintLevel 0 (game w);
          engine := snd r;
          log := log w ++
            [UpdateStageUI st; ClearHighlights;
             AddMessage (description st) system;
             AwaitSpeakAndWait (description st);
             FlyToLandmark st; AddLandmarkMarker st; AwaitTimeout 3500;
             AddTypingIndicator; RemoveTypingIndicator;
             AppendAiMessage (fst r); AwaitSpeakAndWait (fst r)] |}).
Proof.
  cbn zeta. unfold loadStage. flow.
  destruct (Exports.generatePuzzle env st (engine w)) as [p e]. fields.
  repeat rewrite <- app_assoc. reflexivity.
Qed.

Lemma endGame_run env STAGES w :
  let g := game w in
  let r := Exports.generateEndingStory env (getFormattedTime g)
             (totalHintsUsed g) (Z.of_nat (List.length STAGES)) (engine w) in
  endGame env STAGES w =
  (tt, {| game := g;
          engine := snd r;
          log := log w ++
            [StopTimer; StopSpeaking;
             AwaitStageTransition (js "ALL SECTORS UNLOCKED");
             MinimizeChatPanel; SetClearSkyWeather;
             ShowFinal (getFormattedTime g) (totalHintsUsed g)
               (calculateRank g) (fst r);
             AwaitSky; Speak (fst r); ShowScreen (js "ending")] |}).
Proof.
  cbn zeta. unfold endGame. flow.
  destruct (Exports.generateEndingStory env _ _ _ (engine w)) as [t e]. fields.
  repeat rewrite <- app_assoc. reflexivity.
Qed.

(** X20: clearing the last stage ends the game.  No narration and no puzzle
    is requested; the engine is asked for the ending story with the clock
    text, the hint total and the number of stages; the summary shows that
    clock text, that total and the rank computed from the same state; the
    story shown is the story spoken, and the ending screen comes last. *)
Theorem last_stage_ends_game (env : Env) (STAGES : list Stage) (w : World) :
  (List.length STAGES <= S (currentStage (game w)))%nat ->
  let g := set_currentStage (S (currentStage (game w))) (game w) in
  let r := Exports.generateEndingStory env (getFormattedTime g)
             (totalHintsUsed g) (Z.of_nat (List.length STAGES)) (engine w) in
  advanceStage env STAGES w =
  (tt, {| game := g;
          engine := snd r;
          log := log w ++
            [StopTimer; StopSpeaking;
             AwaitStageTransition (js "ALL SECTORS UNLOCKED");
             MinimizeChatPanel; SetClearSkyWeather;
             ShowFinal (getFormattedTime g) (totalHintsUsed g)
               (calculateRank g) (fst r);
             AwaitSky; Speak (fst r); ShowScreen (js "ending")] |}).
Proof.
  intros H. cbn zeta. unfold advanceStage.
  unfold obind at 1. unfold update at 1. unfold obind at 1. unfold state at 1.
  cbn [game set_currentStage currentStage].
  destruct (Nat.leb_spec (List.length STAGES) (S (currentStage (game w))));
    [|lia].
  rewrite endGame_run. reflexivity.
Qed.

Lemma last_stage_ends_game_witness :
  let w := {| game := {| currentStage := 1; hintLevel := 2;
                         totalHintsUsed := 3; elapsedSeconds := 754;
                         isProcessing := false; gameStarted := true |};
              engine := session cloudDown [] (fresh true);
              log := [] |} in
  (List.length [tower; ginza] <= S (currentStage (game w)))%nat /\
  exists story,
    log (snd (advanceStage cloudDown [tower; ginza] w)) =
      [StopTimer; StopSpeaking;
       AwaitStageTransition (js "ALL SECTORS UNLOCKED");
       MinimizeChatPanel; SetClearSkyWeather;
       ShowFinal (js "12:34") 3 (js "B") story;
       AwaitSky; Speak story; ShowScreen (js "ending")].
Proof.
  cbn zeta.
  match goal with |- (_ <= S (currentStage (game ?w)))%nat /\ _ =>
    assert (A : (List.length [tower; ginza] <= S (currentStage (game w)))%nat)
      by (cbn; lia);
    pose proof (last_stage_ends_game cloudDown [tower; ginza] w A) as H
  end.
  split; [exact A|]. cbn zeta in H. rewrite H. cbn [snd log app].
  match goal with |- context [getFormattedTime ?g] =>
    replace (getFormattedTime g) with (js "12:34") by (lazy; reflexivity);
    replace (calculateRank g) with (js "B") by (lazy; reflexivity)
  end.
  eexists. reflexivity.
Defined.

(** X21: clearing a stage that is not the last loads the next one.  Both
    stages are found; the engine is asked for the narration and then for
    the puzzle of the next stage; the hint level restarts at 0; the
    narration has been awaited as speech before the stage display changes,
    the description before the camera moves, and the puzzle is spoken last.
    No ending is shown. *)
Theorem next_stage_is_loaded (env : Env) (STAGES : list Stage) (w : World) :
  (S (currentStage (game w)) < List.length STAGES)%nat ->
  exists prevStage nextStage,
    nth_error STAGES (currentStage (game w)) = Some prevStage /\
    nth_error STAGES (S (currentStage (game w))) = Some nextStage /\
    let n := Exports.generateNarration env prevStage nextStage (engine w) in
    let p := Exports.generatePuzzle env nextStage (snd n) in
    advanceStage env STAGES w =
    (tt, {| game := set_hintLevel 0
                      (set_currentStage (S (currentStage (game w))) (game w));
            engine := snd p;
            log := log w ++
              [StopSpeaking;
               AwaitStageTransition
                 (js "SECTOR " +++ ofZ (id prevStage) +++ js " UNLOCKED");
               AddTypingIndicator; RemoveTypingIndicator;
               AddMessage (fst n) system; AwaitSpeakAndWait (fst n);
               AwaitStageTransition
                 (js "SECTOR " +++ ofZ (id nextStage) +++ js ": "
                  +++ name nextStage);
               UpdateStageUI nextStage; ClearHighlights;
               AddMessage (description nextStage) system;
               AwaitSpeakAndWait (description nextStage);
               FlyToLandmark nextStage; AddLandmarkMarker nextStage;
               AwaitTimeout 3500;
               AddTypingIndicator; RemoveTypingIndicator;
               AppendAiMessage (fst p); AwaitSpeakAndWait (fst p)] |}).
Proof.
  intros H.
  destruct (nth_error STAGES (currentStage (game w))) as [prevStage|] eqn:Ep;
    [|apply nth_error_None in Ep; lia].
  destruct (nth_error STAGES (S (currentStage (game w)))) as [nextStage|]
    eqn:En; [|apply nth_error_None in En; lia].
  exists prevStage, nextStage. split; [reflexivity|]. split; [reflexivity|].
  cbn zeta. unfold advanceStage.
  unfold obind at 1. unfold update at 1. unfold obind at 1. unfold state at 1.
  cbn [game set_currentStage currentStage].
  destruct (Nat.leb_spec (List.length STAGES) (S (currentStage (game w))));
    [lia|].
  replace (S (currentStage (game w)) - 1)%nat with (currentStage (game w))
    by lia.
  rewrite Ep, En. flow.
  destruct (Exports.generateNarration env prevStage nextStage (engine w))
    as [n e]. fields.
  rewrite loadStage_run. cbn zeta. fields.
  unfold set_hintLevel. fields.
  repeat rewrite <- app_assoc. reflexivity.
Qed.

Lemma next_stage_is_loaded_witness :
  let w := {| game := {| currentStage := 0; hintLevel := 2;
                         totalHintsUsed := 3; elapsedSeconds := 125;
                         isProcessing := false; gameStarted := true |};
              engine := session flaky [] (fresh true);
              log := [] |} in
  (S (currentStage (game w)) < List.length [tower; ginza])%nat /\
  exists prevStage nextStage,
    nth_error [tower; ginza] 0 = Some prevStage /\
    nth_error [tower; ginza] 1 = Some nextStage /\
    game (snd (advanceStage flaky [tower; ginza] w)) =
      {| currentStage := 1; hintLevel := 0;
         totalHintsUsed := 3; elapsedSeconds := 125;
         isProcessing := false; gameStarted := true |}.
Proof.
  cbn zeta.
  match goal with |- (S (currentStage (game ?w)) < _)%nat /\ _ =>
    assert (A : (S (currentStage (game w)) < List.length [tower; ginza])%nat)
      by (cbn; lia);
    pose proof (next_stage_is_loaded flaky [tower; ginza] w A) as H
  end.
  split; [exact A|].
  destruct H as (prevStage & nextStage & Ep & En & E).
  exists prevStage, nextStage.
  split; [exact Ep|]. split; [exact En|].
  cbn zeta in E. rewrite E. reflexivity.
Defined.

(** *** The game state across handlers *)

Lemma advanceStage_game env STAGES w :
  let g := set_currentStage (S (currentStage (game w))) (game w) in
  game (snd (advanceStage env STAGES w)) = g \/
  game (snd (advanceStage env STAGES w)) = set_hintLevel 0 g.
Proof.
  cbn zeta. unfold advanceStage. flow. engine_calls.
  destruct (List.length STAGES <=? S (currentStage (game w)))%nat.
  - left. rewrite endGame_game. reflexivity.
  - destruct (nth_error STAGES _) as [prevStage|]; [|left; reflexivity].
    destruct (nth_error STAGES _) as [nextStage|]; [|left; reflexivity].
    right. flow. engine_calls. rewrite loadStage_game. reflexivity.
Qed.

(** What the player does: submit a text, or ask for a hint. *)
Inductive Input : Type :=
| Answer (input : jsstr)
| Hint.

Definition handle (env : Env) (STAGES : list Stage) (i : Input) (w : World)
    : World :=
  match i with
  | Answer input => snd (onSendAnswer env STAGES input w)
  | Hint => snd (onHintRequest env w)
  end.

Definition play (env : Env) (STAGES : list Stage) (inputs : list Input)
    (w : World) : World :=
  fold_left (fun w i => handle env STAGES i w) inputs w.

(** The relation between the game state before and after one handler. *)
Definition moved (g g' : GameState) : Prop :=
  isProcessing g' = false /\
  (hintLevel g' = hintLevel g \/ hintLevel g' = 0 \/
   hintLevel g' = Z.min (hintLevel g + 1) 3) /\
  (currentStage g <= currentStage g' <= S (currentStage g))%nat /\
  totalHintsUsed g <= totalHintsUsed g' <= totalHintsUsed g + 1 /\
  elapsedSeconds g' = elapsedSeconds g /\
  gameStarted g' = gameStarted g.

Lemma moved_same g g' :
  isProcessing g = false -> g' = g -> moved g g'.
Proof. intros H ->. unfold moved. repeat split; auto; lia. Qed.

Lemma moved_advance env STAGES w g :
  game w = set_isProcessing false g ->
  moved g (game (snd (advanceStage env STAGES w))).
Proof.
  intros E. destruct (advanceStage_game env STAGES w) as [A|A]; cbn zeta in A;
    rewrite A, E; unfold moved, set_hintLevel, set_currentStage,
      set_isProcessing; fields; repeat split; auto; lia.
Qed.

Lemma onSendAnswer_moved env STAGES input w :
  isProcessing (game w) = false ->
  moved (game w) (game (snd (onSendAnswer env STAGES input w))).
Proof.
  intros Hp.
  destruct (truthy (trim input)) eqn:Ha.
  2:{ apply moved_same; [exact Hp|]. unfold onSendAnswer. cbn zeta.
      unfold obind at 1. unfold state at 1. rewrite Ha. reflexivity. }
  destruct (eqb (trim input) (js "/skip")) eqn:Hs.
  { unfold onSendAnswer. cbn zeta. unfold obind at 1. unfold state at 1.
    rewrite Ha, Hp, Hs. cbn [negb orb]. flow.
    apply moved_advance. reflexivity. }
  destruct (eqb (trim input) (js "/end")) eqn:He.
  { unfold onSendAnswer. cbn zeta. unfold obind at 1. unfold state at 1.
    rewrite Ha, Hp, Hs, He. cbn [negb orb]. flow.
    rewrite endGame_game. fields.
    unfold moved. fields. repeat split; auto; lia. }
  rewrite (onSendAnswer_ordinary env STAGES input w Ha Hp Hs He). cbn zeta.
  destruct (includes _ CORRECT).
  - apply moved_advance. unfold granted, evaluated, set_isProcessing. fields.
    reflexivity.
  - unfold denied, evaluated, set_isProcessing, moved. fields.
    repeat split; auto; lia.
Qed.

Lemma onHintRequest_moved env w :
  isProcessing (game w) = false ->
  moved (game w) (game (snd (onHintRequest env w))).
Proof.
  intros Hp. rewrite (onHintRequest_idle env w Hp). cbn zeta.
  unfold moved, set_isProcessing, set_totalHintsUsed, set_hintLevel. fields.
  repeat split; auto; lia.
Qed.

(** X22: over any sequence of answers, commands and hint requests, each
    handled to its end before the next: no handler leaves the processing
    flag set, the hint level stays between 0 and 3, the stage index never
    goes back and moves by at most one per input, the hint total never
    falls and grows by at most one per input, and no handler writes the
    elapsed seconds. *)
Theorem handlers_keep_game_sound
    (env : Env) (STAGES : list Stage) (inputs : list Input) (w : World) :
  isProcessing (game w) = false ->
  0 <= hintLevel (game w) <= 3 ->
  let g := game w in
  let g' := game (play env STAGES inputs w) in
  isProcessing g' = false /\
  0 <= hintLevel g' <= 3 /\
  (currentStage g <= currentStage g'
     <= currentStage g + List.length inputs)%nat /\
  totalHintsUsed g <= totalHintsUsed g'
    <= totalHintsUsed g + Z.of_nat (List.length inputs) /\
  elapsedSeconds g' = elapsedSeconds g.
Proof.
  cbn zeta. revert w.
  induction inputs as [|i inputs IH]; intros w Hp Hl.
  - cbn [play fold_left List.length Z.of_nat]. repeat split; auto; lia.
  - assert (M : moved (game w) (game (handle env STAGES i w))).
    { destruct i as [input|]; cbn [handle];
        [apply onSendAnswer_moved | apply onHintRequest_moved]; exact Hp. }
    destruct M as (M1 & M2 & M3 & M4 & M5 & _).
    change (play env STAGES (i :: inputs) w)
      with (play env STAGES inputs (handle env STAGES i w)).
    specialize (IH (handle env STAGES i w) M1 ltac:(lia)).
    destruct IH as (I1 & I2 & I3 & I4 & I5).
    cbn [List.length]. rewrite Nat2Z.inj_succ.
    repeat split; try assumption; try lia.
Qed.

Lemma handlers_keep_game_sound_witness :
  let w := {| game := {| currentStage := 0; hintLevel := 0;
                         totalHintsUsed := 0; elapsedSeconds := 30;
                         isProcessing := false; gameStarted := true |};
              engine := session flaky [] (fresh true);
              log := [] |} in
  let inputs := [Hint; Answer (js "  "); Answer (js "/skip"); Hint] in
  isProcessing (game w) = false /\
  0 <= hintLevel (game w) <= 3 /\
  isProcessing (game (play flaky [tower; ginza] inputs w)) = false /\
  0 <= hintLevel (game (play flaky [tower; ginza] inputs w)) <= 3.
Proof.
  cbn zeta.
  match goal with |- isProcessing (game ?w) = false /\ _ =>
    assert (A : isProcessing (game w) = false) by reflexivity;
    assert (B : 0 <= hintLevel (game w) <= 3) by (cbn; lia);
    pose proof (handlers_keep_game_sound flaky [tower; ginza]
                  [Hint; Answer (js "  "); Answer (js "/skip"); Hint] w A B)
      as H
  end.
  cbn zeta in H. destruct H as (H1 & H2 & _).
  split; [exact A|]. split; [exact B|]. split; [exact H1 | exact H2].
Defined.

(** *** The [/end] command *)

Lemma set_isProcessing_idle g :
  isProcessing g = false -> set_isProcessing false g = g.
Proof. destruct g. cbn. intros ->. reflexivity. Qed.

(** X23: the command [/end], typed as an answer at any stage while nothing
    is processed, is not evaluated: the game state stays as it is, the only
    request to the engine is the ending story, and the summary of a finished
    game is shown, with the rank of the clock and hint total of that
    moment. *)
Theorem end_command_finishes_game
    (env : Env) (STAGES : list Stage) (input : jsstr) (w : World) :
  isProcessing (game w) = false ->
  trim input = js "/end" ->
  let g := game w in
  let r := Exports.generateEndingStory env (getFormattedTime g)
             (totalHintsUsed g) (Z.of_nat (List.length STAGES)) (engine w) in
  onSendAnswer env STAGES input w =
  (tt, {| game := g;
          engine := snd r;
          log := log w ++
            [ClearInput; StopSpeaking; RemoveTypingIndicator;
             AddMessage (js "DEBUG: JUMP TO ENDING") system;
             StopTimer; StopSpeaking;
             AwaitStageTransition (js "ALL SECTORS UNLOCKED");
             MinimizeChatPanel; SetClearSkyWeather;
             ShowFinal (getFormattedTime g) (totalHintsUsed g)
               (calculateRank g) (fst r);
             AwaitSky; Speak (fst r); ShowScreen (js "ending")] |}).
Proof.
  intros Hp He. cbn zeta. unfold onSendAnswer. cbn zeta.
  unfold obind at 1. unfold state at 1. rewrite He, Hp.
  replace (truthy (js "/end")) with true by (lazy; reflexivity).
  replace (eqb (js "/end") (js "/skip")) with false by (lazy; reflexivity).
  replace (eqb (js "/end") (js "/end")) with true by (lazy; reflexivity).
  cbn [negb orb]. flow. rewrite endGame_run. cbn zeta. fields.
  fold (set_isProcessing false (game w)).
  rewrite (set_isProcessing_idle _ Hp).
  repeat rewrite <- app_assoc. reflexivity.
Qed.

Lemma end_command_finishes_game_witness :
  let w := {| game := {| currentStage := 0; hintLevel := 0;
                         totalHintsUsed := 0; elapsedSeconds := 12;
                         isProcessing := false; gameStarted := true |};
              engine := session cloudDown [] (fresh true);
              log := [] |} in
  isProcessing (game w) = false /\
  trim (js " /end ") = js "/end" /\
  exists story,
    In (ShowFinal (js "00:12") 0 (js "S") story)
       (log (snd (onSendAnswer cloudDown [tower; ginza] (js " /end ") w))) /\
    currentStage (game (snd (onSendAnswer cloudDown [tower; ginza]
                               (js " /end ") w))) = 0%nat.
Proof.
  cbn zeta.
  match goal with |- isProcessing (game ?w) = false /\ _ =>
    assert (A : isProcessing (game w) = false) by reflexivity;
    assert (B : trim (js " /end ") = js "/end") by (lazy; reflexivity);
    pose proof (end_command_finishes_game cloudDown [tower; ginza]
                  (js " /end ") w A B) as H
  end.
  split; [exact A|]. split; [exact B|].
  cbn zeta in H. rewrite H. cbn [snd log game currentStage app].
  match goal with |- context [getFormattedTime ?g] =>
    replace (getFormattedTime g) with (js "00:12") by (lazy; reflexivity);
    replace (calculateRank g) with (js "S") by (lazy; reflexivity)
  end.
  eexists. split; [|reflexivity].
  do 9 right. left. reflexivity.
Defined.

End OrchestratorMore.
